(** * Outlier removal for 3D point sets (CGAL [remove_outliers.h])

    A shallow embedding of [CGAL::internal::compute_avg_knn_sq_distance_3]
    and [CGAL::remove_outliers], together with the properties of the
    scoring pass, the ranking structure and the dual-threshold cut. *)

From Stdlib Require Import ZArith QArith Qround Qpower Lia Lqa Bool List.
From Stdlib Require Import Floats.SpecFloat.
From stdpp Require Import base list sorting.
Import ListNotations.

Close Scope Q_scope.
Open Scope Z_scope.

(** ** IEEE 754 binary64, the C++ [double]

    [threshold_percent], [threshold_distance] and the progress fraction
    handed to the callback are C++ [double]s.  They are modelled by the
    Standard Library's specification of binary64 arithmetic
    ([SpecFloat], precision 53, [emax] 1024, round to nearest even). *)
Module Double.

Definition prec : Z := 53.
Definition emax : Z := 1024.

Definition double : Type := spec_float.

(** A [double] is a canonically encoded binary64 value. *)
Definition valid (x : double) : bool := valid_binary prec emax x.

Definition sub : double -> double -> double := SFsub prec emax.
Definition mul : double -> double -> double := SFmul prec emax.
Definition div : double -> double -> double := SFdiv prec emax.
Definition leb : double -> double -> bool := SFleb.
Definition ltb : double -> double -> bool := SFltb.

(** Conversion of an integer to [double] (round to nearest even). *)
Definition of_Z (z : Z) : double := binary_normalize prec emax z 0 false.

(** [double(n)] for a [std::size_t] value [n]. *)
Definition of_size (n : nat) : double := of_Z (Z.of_nat n).

(** The literals [0.], [1.], [10.] and [100.0]. *)
Definition zero : double := S754_zero false.
Definition one : double := Eval vm_compute in of_Z 1.
Definition d10 : double := Eval vm_compute in of_Z 10.
Definition d100 : double := Eval vm_compute in of_Z 100.

Definition INT_MIN : Z := - 2 ^ 31.
Definition INT_MAX : Z := 2 ^ 31 - 1.

(** [int(x)]: truncation toward zero.  The conversion is undefined
    ([None]) when the truncated value is not representable in a 32-bit
    [int], and for infinities and NaN. *)
Definition to_int (x : double) : option Z :=
  match x with
  | S754_zero _ => Some 0
  | S754_finite s m e =>
      let t := cond_Zopp s (Z.shiftl (Z.pos m) e) in
      if (INT_MIN <=? t) && (t <=? INT_MAX) then Some t else None
  | _ => None
  end.

(** The rational number a finite [double] stands for (0 for the
    infinities and NaN, which have none). *)
Definition to_Q (x : double) : Q :=
  match x with
  | S754_finite s m e => (inject_Z (cond_Zopp s (Z.pos m)) * 2 ^ e)%Q
  | _ => 0%Q
  end.

(** Zero, or finite and positive. *)
Definition nonneg_finite (x : double) : bool :=
  match x with
  | S754_zero _ => true
  | S754_finite s _ _ => negb s
  | _ => false
  end.

(** *** Rounding to nearest even, on the rationals

    The IEEE 754 reading of an operation: the exact result, rounded.
    [round x] is the binary64 number nearest to a rational [x >= 0]
    below the overflow threshold, ties going to the even mantissa. *)
Definition pow2 (e : Z) : Q := (2 ^ e)%Q.

(** The magnitude of [x > 0]: [2 ^ (mag x - 1) <= x < 2 ^ mag x]. *)
Definition mag (x : Q) : Z :=
  let a := Z.log2 (Qnum x) - Z.log2 (Z.pos (Qden x)) in
  if Qle_bool (pow2 a) x then a + 1 else a.

(** The exponent of the binary64 numbers next to [x]. *)
Definition cexp (x : Q) : Z := fexp prec emax (mag x).

(** The integer nearest to [q], ties going to the even one. *)
Definition rne (q : Q) : Z :=
  let f := Qfloor q in
  match (q - inject_Z f ?= 1 # 2)%Q with
  | Lt => f
  | Eq => if Z.even f then f else f + 1
  | Gt => f + 1
  end.

Definition round (x : Q) : Q :=
  (inject_Z (rne (x / pow2 (cexp x))) * pow2 (cexp x))%Q.

(** [u] lies in [[m, m + 1)], at the place [l] tells: on [m], below,
    at or above the middle. *)
Definition inb (m : Z) (l : location) (u : Q) : Prop :=
  match l with
  | loc_Exact => (u == inject_Z m)%Q
  | loc_Inexact Lt => (inject_Z m < u < inject_Z m + (1 # 2))%Q
  | loc_Inexact Eq => (u == inject_Z m + (1 # 2))%Q
  | loc_Inexact Gt => (inject_Z m + (1 # 2) < u < inject_Z m + 1)%Q
  end.

End Double.

Abbreviation double := Double.double.

(** ** The geometric traits class

    [Kernel] collects what the two function templates use of their
    [Kernel] parameter: the field type [FT] with the operations applied
    to it, the point type, and [Compute_squared_distance_3].  The order
    [FT_ltb] is the [std::less<FT>] of the ranking multimap, for which
    the C++ standard requires a strict weak order.  A division by zero
    has no result: an exact number type fails on it, and a floating
    point type yields a NaN, which the order of the multimap does not
    accept as a key. *)
Class Kernel := {
  FT : Type;
  Point_3 : Type;
  (** [(FT)0.0] *)
  FT_zero : FT;
  (** [a += b] *)
  FT_add : FT -> FT -> FT;
  (** [a /= b]; [None] when the division is by zero. *)
  FT_div : FT -> FT -> option FT;
  (** [FT(n)] for a [std::size_t] value [n]. *)
  FT_of_size : nat -> FT;
  (** [a < b] *)
  FT_ltb : FT -> FT -> bool;
  (** [a < d] for a [double] [d]. *)
  FT_lt_double : FT -> double -> bool;
  (** [Kernel::Compute_squared_distance_3] *)
  squared_distance : Point_3 -> Point_3 -> FT;

  FT_ltb_irrefl : forall a, FT_ltb a a = false;
  FT_ltb_trans : forall a b c,
    FT_ltb a b = true -> FT_ltb b c = true -> FT_ltb a c = true;
  FT_ltb_neg_trans : forall a b c,
    FT_ltb a b = false -> FT_ltb b c = false -> FT_ltb a c = false;
  FT_div_by_zero : forall a, FT_div a (FT_of_size 0) = None;
  FT_div_by_size : forall a n, is_Some (FT_div a (FT_of_size (S n)))
}.

(** Two scores are equivalent when neither is below the other. *)
Definition FT_equivb `{Kernel} (a b : FT) : bool :=
  negb (FT_ltb a b) && negb (FT_ltb b a).

(** ** The ranking structure, [std::multimap<FT, Enriched_point>]

    The entries of a multimap are kept in ascending key order;
    [insert] places a new entry at the upper bound of the entries whose
    key is equivalent to its own, that is, before the first entry with a
    greater key. *)
Section Multimap.
Context `{Kernel} {V : Type}.

Definition multimap : Type := list (FT * V).

Fixpoint multimap_insert (e : FT * V) (m : multimap) : multimap :=
  match m with
  | [] => [e]
  | x :: m' =>
      if FT_ltb (fst e) (fst x) then e :: m
      else x :: multimap_insert e m'
  end.

(** Ascending key order: no entry is below an earlier one. *)
Definition key_le (a b : FT * V) : Prop := FT_ltb (fst b) (fst a) = false.
Definition ascending (m : multimap) : Prop := StronglySorted key_le m.

(** The entries of a sequence, inserted one by one. *)
Definition multimap_of (entries : list (FT * V)) (m : multimap) : multimap :=
  fold_left (fun m e => multimap_insert e m) entries m.

End Multimap.
Arguments multimap {_} V.

Section Remove_outliers.
Context `{Kernel}.

(** A [Neighbor_query] answers [get_points (query, k, neighbor_radius)]
    with the neighbors of [query]. *)
Definition Neighbor_query : Type := Point_3 -> N -> FT -> list Point_3.

(** [internal::compute_avg_knn_sq_distance_3] *)
Definition compute_avg_knn_sq_distance_3
    (query : Point_3) (neighbor_query : Neighbor_query)
    (k : N) (neighbor_radius : FT) : option FT :=
  let points := neighbor_query query k neighbor_radius in
  let sq_distance :=
    fold_left (fun sq_distance neighbor =>
                 FT_add sq_distance (squared_distance neighbor query))
              points FT_zero in
  FT_div sq_distance (FT_of_size (length points)).

(** The arithmetic mean of a list of scalars. *)
Definition FT_sum (l : list FT) : FT := fold_left FT_add l FT_zero.
Definition arithmetic_mean (l : list FT) : option FT :=
  FT_div (FT_sum l) (FT_of_size (length l)).

(** The value type of the point range, its point map, the state of the
    callback, and the construction of the neighbor query from the
    range and the point map. *)
Context {Enriched_point : Type} {cb_state : Type}.
Variable point_map : Enriched_point -> Point_3.
Variable make_neighbor_query :
  list Enriched_point -> (Enriched_point -> Point_3) -> Neighbor_query.

(** A [std::function<bool(double)>], which may carry state. *)
Definition Callback : Type := cb_state -> double -> bool * cb_state.

(** The named parameters, resolved. *)
Record Named_parameters := {
  neighbor_radius : FT;
  threshold_percent : double;
  threshold_distance : double;
  callback : option Callback
}.

(** What a call leaves behind: the point range, the returned iterator
    (as an offset from [points.begin()], [points.end()] being the
    length), the calls made to the callback (argument and answer, in
    order) and the callback's state. *)
Record Run := {
  run_points : list Enriched_point;
  run_result : nat;
  run_calls : list (double * bool);
  run_cb_state : cb_state
}.

Inductive Outcome :=
| Precondition_violation
| Undefined_behaviour
| Returned (r : Run).

(** The argument of the callback, [(nb+1) / double(nb_points)]. *)
Definition progress (nb nb_points : nat) : double :=
  Double.div (Double.of_size (nb + 1)) (Double.of_size nb_points).

Inductive Scoring :=
| Scoring_undefined
| Scoring_cancelled (calls : list (double * bool)) (st : cb_state)
| Scoring_done (sorted_points : multimap Enriched_point)
               (calls : list (double * bool)) (st : cb_state).

(** The scoring loop, from the iteration over [rest] on. *)
Fixpoint scoring_pass (neighbor_query : Neighbor_query) (k : N)
    (np : Named_parameters) (nb_points : nat)
    (rest : list Enriched_point)
    (sorted_points : multimap Enriched_point) (nb : nat)
    (calls : list (double * bool)) (st : cb_state) : Scoring :=
  match rest with
  | [] => Scoring_done sorted_points calls st
  | vt :: rest' =>
      match compute_avg_knn_sq_distance_3 (point_map vt) neighbor_query k
              (neighbor_radius np) with
      | None => Scoring_undefined
      | Some sq_distance =>
          let sorted_points := multimap_insert (sq_distance, vt) sorted_points in
          match callback np with
          | Some cb =>
              let arg := progress nb nb_points in
              let '(continue, st) := cb st arg in
              let calls := calls ++ [(arg, continue)] in
              if continue
              then scoring_pass neighbor_query k np nb_points rest'
                     sorted_points (S nb) calls st
              else Scoring_cancelled calls st
          | None =>
              scoring_pass neighbor_query k np nb_points rest'
                sorted_points (S nb) calls st
          end
      end
  end.

(** [int(double(sorted_points.size()) * ((100.0-threshold_percent)/100.0))] *)
Definition first_index_to_remove (size : nat) (threshold_percent : double)
    : option Z :=
  Double.to_int
    (Double.mul (Double.of_size size)
       (Double.div (Double.sub Double.d100 threshold_percent) Double.d100)).

(** The rewriting loop, from the entry [src] on. *)
Fixpoint rewrite_pass (first_index_to_remove : Z) (threshold_distance : double)
    (src : multimap Enriched_point) (index : Z)
    (points : list Enriched_point) (dst : nat)
    (first_point_to_remove : nat) : list Enriched_point * nat :=
  match src with
  | [] => (points, first_point_to_remove)
  | (sq_distance, vt) :: src' =>
      let points := <[dst := vt]> points in
      let dst := S dst in
      let first_point_to_remove :=
        if (index <=? first_index_to_remove)
           || FT_lt_double sq_distance
                (Double.mul threshold_distance threshold_distance)
        then dst else first_point_to_remove in
      rewrite_pass first_index_to_remove threshold_distance src' (index + 1)
        points dst first_point_to_remove
  end.

(** The three conditions handed to
    [CGAL_point_set_processing_precondition]; a run that violates one
    does not proceed. *)
Definition preconditions (points : list Enriched_point) (k : N)
    (np : Named_parameters) : bool :=
  negb (Nat.eqb (length points) 0)
  && (2 <=? k)%N
  && (Double.leb Double.zero (threshold_percent np)
      && Double.leb (threshold_percent np) Double.d100).

(** [remove_outliers (points, k, np)] *)
Definition remove_outliers (points : list Enriched_point) (k : N)
    (np : Named_parameters) (st : cb_state) : Outcome :=
  if negb (preconditions points k np) then Precondition_violation
  else
    let neighbor_query := make_neighbor_query points point_map in
    let nb_points := length points in
    match scoring_pass neighbor_query k np nb_points points [] 0%nat [] st with
    | Scoring_undefined => Undefined_behaviour
    | Scoring_cancelled calls st =>
        Returned {| run_points := points; run_result := length points;
                    run_calls := calls; run_cb_state := st |}
    | Scoring_done sorted_points calls st =>
        (* [int index] is incremented once per entry of [sorted_points]:
             their number has to fit an [int] *)
        if negb (Z.of_nat (length sorted_points) <=? Double.INT_MAX)
        then Undefined_behaviour
        else
          match first_index_to_remove (length sorted_points)
                  (threshold_percent np) with
          | None => Undefined_behaviour
          | Some first_index_to_remove =>
              let '(points, first_point_to_remove) :=
                rewrite_pass first_index_to_remove (threshold_distance np)
                  sorted_points 0 points 0%nat 0%nat in
              Returned {| run_points := points;
                          run_result := first_point_to_remove;
                          run_calls := calls; run_cb_state := st |}
          end
    end.

(** The defaults of the named parameters, and
    [remove_outliers (points, k)]. *)
Definition all_default : Named_parameters :=
  {| neighbor_radius := FT_zero;
     threshold_percent := Double.d10;
     threshold_distance := Double.zero;
     callback := None |}.

Definition remove_outliers_default (points : list Enriched_point) (k : N)
    (st : cb_state) : Outcome :=
  remove_outliers points k all_default st.

(** *** Vocabulary of the properties *)
Implicit Types (points : list Enriched_point) (np : Named_parameters).
Implicit Types (st : cb_state) (r : Run).

(** The score of an element of the range. *)
Definition score_of (neighbor_query : Neighbor_query) (k : N) np
    (vt : Enriched_point) : option FT :=
  compute_avg_knn_sq_distance_3 (point_map vt) neighbor_query k
    (neighbor_radius np).

(** [entries] are the elements of [points] with their scores, in the
    order of [points]. *)
Definition scored (neighbor_query : Neighbor_query) (k : N) np
    (points : list Enriched_point) (entries : list (FT * Enriched_point))
    : Prop :=
  Forall2 (fun vt e => score_of neighbor_query k np vt = Some e.1 /\ e.2 = vt)
    points entries.

(** The arguments the callback is polled with from the iteration [nb]
    on, [n] times. *)
Definition progress_from (nb n nb_points : nat) : list double :=
  map (fun i => progress i nb_points) (seq nb n).

(** The neighbor query answers the query of each element of [l] with
    at least one neighbor. *)
Definition answers_queries (neighbor_query : Neighbor_query) (k : N) np
    (l : list Enriched_point) : bool :=
  forallb (fun vt =>
             match neighbor_query (point_map vt) k (neighbor_radius np) with
             | [] => false
             | _ => true
             end) l.

(** The inputs of a run that proceeds and stays defined: the
    preconditions hold, [threshold_percent] is a canonical binary64
    value, the size of the range fits an [int], and the neighbor query
    built from the range answers each of its points. *)
Definition admissible points (k : N) np : Prop :=
  preconditions points k np = true
  /\ Double.valid (threshold_percent np) = true
  /\ Z.of_nat (length points) <= Double.INT_MAX
  /\ answers_queries (make_neighbor_query points point_map) k np points = true.

(** The calls a stateful callback receives when it is polled with
    [args] in turn, until it first answers [false]. *)
Fixpoint poll (cb : Callback) st (args : list double)
    : list (double * bool) * cb_state :=
  match args with
  | [] => ([], st)
  | arg :: args' =>
      let '(continue, st) := cb st arg in
      if continue
      then let '(calls, st) := poll cb st args' in ((arg, true) :: calls, st)
      else ([(arg, false)], st)
  end.

(** The number of points from the returned position to the end. *)
Definition nb_removed r : nat := (length (run_points r) - run_result r)%nat.

Definition with_threshold_percent (p : double) np : Named_parameters :=
  {| neighbor_radius := neighbor_radius np;
     threshold_percent := p;
     threshold_distance := threshold_distance np;
     callback := callback np |}.

Definition with_threshold_distance (d : double) np : Named_parameters :=
  {| neighbor_radius := neighbor_radius np;
     threshold_percent := threshold_percent np;
     threshold_distance := d;
     callback := callback np |}.

(** The test of the rewriting loop on the entry of index [index]. *)
Definition kept_by_test (first_index_to_remove : Z) (threshold_distance : double)
    (index : Z) (e : FT * Enriched_point) : bool :=
  (index <=? first_index_to_remove)
  || FT_lt_double e.1 (Double.mul threshold_distance threshold_distance).

(** Every score of an element of [l] passes [test]. *)
Definition scores_all (test : FT -> bool) (neighbor_query : Neighbor_query)
    (k : N) np (l : list Enriched_point) : bool :=
  forallb (fun vt =>
             match score_of neighbor_query k np vt with
             | Some sq_distance => test sq_distance
             | None => true
             end) l.

(** What a returned run is, cancelled or completed. *)
Inductive run_spec points (k : N) np r : Prop :=
| Run_cancelled pre arg :
    run_points r = points ->
    run_result r = length points ->
    run_calls r = pre ++ [(arg, false)] ->
    Forall (fun c => c.2 = true) pre ->
    map fst (run_calls r)
      = progress_from 0 (S (length pre)) (length points) ->
    (length pre < length points)%nat ->
    run_spec points k np r
| Run_completed entries fir :
    scored (make_neighbor_query points point_map) k np points entries ->
    first_index_to_remove (length points) (threshold_percent np) = Some fir ->
    0 <= fir <= Z.of_nat (length points) ->
    run_points r = map snd (multimap_of entries []) ->
    run_result r
      = (rewrite_pass fir (threshold_distance np) (multimap_of entries [])
           0 points 0 0).2 ->
    Forall (fun c => c.2 = true) (run_calls r) ->
    map fst (run_calls r)
      = match callback np with
        | Some _ => progress_from 0 (length points) (length points)
        | None => []
        end ->
    run_spec points k np r.

End Remove_outliers.

(** ** An exact kernel

    The kernel of Cartesian points with rational coordinates, with exact
    arithmetic on [FT]. *)
Module Exact.

Definition Point : Type := Q * Q * Q.

Definition sqd (p q : Point) : Q :=
  let '(px, py, pz) := p in
  let '(qx, qy, qz) := q in
  Qred ((px - qx) * (px - qx) + (py - qy) * (py - qy)
        + (pz - qz) * (pz - qz))%Q.

Definition ltb (a b : Q) : bool :=
  match (a ?= b)%Q with Lt => true | _ => false end.

Definition of_size (n : nat) : Q := inject_Z (Z.of_nat n).

Definition div (a b : Q) : option Q :=
  if Qeq_bool b 0 then None else Some (Qred (a / b)).

Definition lt_double (a : Q) (d : double) : bool :=
  match d with
  | S754_nan => false
  | S754_infinity s => negb s
  | _ => ltb a (Double.to_Q d)
  end.

(** The points of [l] with [p], in ascending distance from [query]. *)
Fixpoint insert_by_distance (query p : Point) (l : list Point) : list Point :=
  match l with
  | [] => [p]
  | x :: l' =>
      if ltb (sqd p query) (sqd x query) then p :: l
      else x :: insert_by_distance query p l'
  end.

Definition by_distance (query : Point) (l : list Point) : list Point :=
  fold_left (fun acc p => insert_by_distance query p acc) l [].

(** Modelled from the spec: the proximity index
    ([CGAL/Point_set_processing_3/internal/Neighbor_query.h]), as an
    exhaustive search: the points of the range in ascending distance
    from the query, restricted to the radius when it is positive, and
    capped at [k] entries unless [k = 0] in the radius mode. *)
Definition neighbor_query {Enriched_point : Type}
    (points : list Enriched_point) (point_map : Enriched_point -> Point)
    (query : Point) (k : N) (neighbor_radius : Q) : list Point :=
  let ranked := by_distance query (map point_map points) in
  if ltb 0 neighbor_radius then
    let inside :=
      List.filter (fun p => negb (ltb (neighbor_radius * neighbor_radius)%Q
                                    (sqd p query))) ranked in
    if (k =? 0)%N then inside else take (N.to_nat k) inside
  else take (N.to_nat k) ranked.

End Exact.

(** ** The exact kernel is a kernel *)
Module ExactFacts.
Import Exact.

Lemma ltb_lt (a b : Q) : ltb a b = true <-> (a < b)%Q.
Proof.
  unfold ltb. rewrite Qlt_alt.
  destruct (a ?= b)%Q; split; intros; congruence.
Qed.

Lemma ltb_ge (a b : Q) : ltb a b = false <-> (b <= a)%Q.
Proof.
  rewrite <- not_true_iff_false, ltb_lt. split; intros; lra.
Qed.

Lemma div_by_size (a : Q) (n : nat) : is_Some (div a (of_size (S n))).
Proof.
  unfold div.
  destruct (Qeq_bool (of_size (S n)) 0) eqn:E; [|eauto].
  apply Qeq_bool_iff in E. unfold of_size, Qeq in E. simpl in E. lia.
Qed.

End ExactFacts.

#[export] Instance exact_kernel : Kernel := {|
  FT := Q;
  Point_3 := Exact.Point;
  FT_zero := 0%Q;
  FT_add := fun a b => Qred (a + b);
  FT_div := Exact.div;
  FT_of_size := Exact.of_size;
  FT_ltb := Exact.ltb;
  FT_lt_double := Exact.lt_double;
  squared_distance := Exact.sqd;
  FT_ltb_irrefl := fun a =>
    proj2 (ExactFacts.ltb_ge a a) (Qle_refl a);
  FT_ltb_trans := fun a b c Hab Hbc =>
    proj2 (ExactFacts.ltb_lt a c)
      (Qlt_trans a b c (proj1 (ExactFacts.ltb_lt a b) Hab)
         (proj1 (ExactFacts.ltb_lt b c) Hbc));
  FT_ltb_neg_trans := fun a b c Hab Hbc =>
    proj2 (ExactFacts.ltb_ge a c)
      (Qle_trans c b a (proj1 (ExactFacts.ltb_ge b c) Hbc)
         (proj1 (ExactFacts.ltb_ge a b) Hab));
  FT_div_by_zero := fun a => eq_refl;
  FT_div_by_size := ExactFacts.div_by_size
|}.

(** ** A point cloud with one outlier

    Nine points of a grid of step 0.1 and one point at distance 100,
    in fourth position. *)
Module Scenario.

Definition far : Exact.Point := (100, 0, 0)%Q.

Definition cloud : list Exact.Point :=
  [ (0, 0, 0); (1 # 10, 0, 0); (2 # 10, 0, 0); far;
    (0, 1 # 10, 0); (1 # 10, 1 # 10, 0); (2 # 10, 1 # 10, 0);
    (0, 2 # 10, 0); (1 # 10, 2 # 10, 0); (2 # 10, 2 # 10, 0) ]%Q.

Definition cluster : list Exact.Point :=
  [ (0, 0, 0); (1 # 10, 0, 0); (2 # 10, 0, 0);
    (0, 1 # 10, 0); (1 # 10, 1 # 10, 0); (2 # 10, 1 # 10, 0);
    (0, 2 # 10, 0); (1 # 10, 2 # 10, 0); (2 # 10, 2 # 10, 0) ]%Q.

(** The parameters of a run without callback. *)
Definition params (threshold_percent threshold_distance : double)
    : @Named_parameters exact_kernel unit :=
  {| neighbor_radius := 0%Q;
     threshold_percent := threshold_percent;
     threshold_distance := threshold_distance;
     callback := None |}.

(** A callback that counts its calls and stops at the third. *)
Definition stop_at_third : @Callback nat :=
  fun count _ => (Nat.ltb (S count) 3, S count).

Definition params_with_callback (threshold_percent : double)
    : @Named_parameters exact_kernel nat :=
  {| neighbor_radius := 0%Q;
     threshold_percent := threshold_percent;
     threshold_distance := Double.zero;
     callback := Some stop_at_third |}.

(** A callback that always continues. *)
Definition go_on : @Callback unit := fun st _ => (true, st).

Definition params_go_on (threshold_percent : double)
    : @Named_parameters exact_kernel unit :=
  {| neighbor_radius := 0%Q;
     threshold_percent := threshold_percent;
     threshold_distance := Double.zero;
     callback := Some go_on |}.

Definition run {cb_state : Type} (np : @Named_parameters exact_kernel cb_state)
    (st : cb_state) : Outcome :=
  remove_outliers (fun p : Exact.Point => p) Exact.neighbor_query cloud 2 np st.

Definition d20 : double := Eval vm_compute in Double.of_Z 20.

(** The calls of the run of the scenario whose callback stops at the
    third poll. *)
Definition cancelled_calls : list (double * bool) :=
  Eval vm_compute in
    fst (poll stop_at_third 0%nat (progress_from 0 10 10)).

End Scenario.

(** ** More inputs

    An index that finds nothing, the index of the scenario with its
    answers reversed, and the cloud in ranking order. *)
Module MoreScenario.

(** An index that finds no neighbor. *)
Definition no_neighbor
    : list Exact.Point -> (Exact.Point -> Exact.Point)
      -> @Neighbor_query exact_kernel :=
  fun _ _ _ _ _ => [].

(** The neighbors of the index of the scenario, last first. *)
Definition reversed_neighbor_query : @Neighbor_query exact_kernel :=
  fun query k neighbor_radius =>
    reverse (Exact.neighbor_query Scenario.cloud (fun p => p) query k
               neighbor_radius).

(** The cloud of the scenario in ascending order of score, and its
    scored entries. *)
Definition ranked_cloud : list Exact.Point := Scenario.cluster ++ [Scenario.far].

Definition ranked_entries : list (Q * Exact.Point) :=
  Eval vm_compute in
    omap (fun p =>
            match compute_avg_knn_sq_distance_3 p
                    (Exact.neighbor_query ranked_cloud (fun p => p)) 2 0%Q with
            | Some sq_distance => Some (sq_distance, p)
            | None => None
            end) ranked_cloud.

Definition d50 : double := Eval vm_compute in Double.of_Z 50.

End MoreScenario.

(** * Properties *)

(** ** Facts on [double] arithmetic

    The operations of [SpecFloat] compute the rounding of the exact
    result; rounding is monotone and leaves small integers alone.  From
    there: the range of [first_index_to_remove], its monotonicity in
    [threshold_percent], and the range of the progress fraction. *)
Module DoubleFacts.
Import Double.

(** *** Powers of two and quotients *)
Lemma pow2_pos e : (0 < pow2 e)%Q.
Proof. apply Qpower_0_lt. reflexivity. Qed.

Lemma pow2_add a b : (pow2 (a + b) == pow2 a * pow2 b)%Q.
Proof. apply Qpower_plus. discriminate. Qed.

Lemma pow2_sub a b : (pow2 (a - b) == pow2 a / pow2 b)%Q.
Proof. apply Qpower_minus. discriminate. Qed.

Lemma pow2_Z e : 0 <= e -> (pow2 e == inject_Z (2 ^ e))%Q.
Proof. intros He. unfold pow2. rewrite Zpower_Qpower by exact He. reflexivity. Qed.

Lemma pow2_le a b : a <= b -> (pow2 a <= pow2 b)%Q.
Proof. intros. apply Qpower_le_compat_l; [assumption|discriminate]. Qed.

Lemma pow2_lt a b : a < b -> (pow2 a < pow2 b)%Q.
Proof. intros. apply Qpower_lt_compat_l; [assumption|reflexivity]. Qed.

Lemma pow2_lt_inv a b : (pow2 a < pow2 b)%Q -> a < b.
Proof. intros. eapply Qpower_lt_compat_l_inv; [eassumption|reflexivity]. Qed.

Lemma pow2_S e : (pow2 (e + 1) == 2 * pow2 e)%Q.
Proof. rewrite pow2_add. unfold pow2 at 2. rewrite Qpower_1_r. ring. Qed.

Lemma pow2_0 : (pow2 0 == 1)%Q.
Proof. reflexivity. Qed.

Lemma Qdiv_le_mono (x y c : Q) : (0 < c -> x <= y -> x / c <= y / c)%Q.
Proof.
  intros Hc Hxy. unfold Qdiv. apply Qmult_le_compat_r; [exact Hxy|].
  apply Qlt_le_weak, Qinv_lt_0_compat, Hc.
Qed.

Lemma Qpos_neq0 (c : Q) : (0 < c -> ~ c == 0)%Q.
Proof. intros Hc E. rewrite E in Hc. discriminate. Qed.

Lemma Qdiv_le_cross (a b c d : Q) :
  (0 < b -> 0 < d -> a * d <= c * b -> a / b <= c / d)%Q.
Proof.
  intros Hb Hd Hle.
  apply Qle_shift_div_l; [exact Hd|].
  assert (E : (a / b * d == a * d / b)%Q) by (field; apply Qpos_neq0, Hb).
  rewrite E. apply Qle_shift_div_r; assumption.
Qed.

Lemma Qdiv_lt_cross (a b c d : Q) :
  (0 < b -> 0 < d -> a * d < c * b -> a / b < c / d)%Q.
Proof.
  intros Hb Hd Hle.
  apply Qlt_shift_div_l; [exact Hd|].
  assert (E : (a / b * d == a * d / b)%Q) by (field; apply Qpos_neq0, Hb).
  rewrite E. apply Qlt_shift_div_r; assumption.
Qed.


(** *** The magnitude *)
Lemma mag_spec x : (0 < x)%Q -> (pow2 (mag x - 1) <= x < pow2 (mag x))%Q.
Proof.
  intros Hx. unfold mag.
  destruct x as [n d]. cbn [Qnum Qden].
  assert (Hn : 0 < n) by (unfold Qlt in Hx; simpl in Hx; lia).
  set (ln := Z.log2 n). set (ld := Z.log2 (Z.pos d)).
  pose proof (Z.log2_spec n Hn) as Hln. fold ln in Hln.
  pose proof (Z.log2_spec (Z.pos d) eq_refl) as Hld. fold ld in Hld.
  pose proof (Z.log2_nonneg n) as Hln0. fold ln in Hln0.
  pose proof (Z.log2_nonneg (Z.pos d)) as Hld0. fold ld in Hld0.
  assert (Hq : (n # d == inject_Z n / inject_Z (Z.pos d))%Q) by apply Qmake_Qdiv.
  assert (Hdpos : (0 < inject_Z (Z.pos d))%Q) by reflexivity.
  (* bounds on n/d *)
  assert (Hp1 : (0 < inject_Z (2 ^ (ld + 1)))%Q).
  { rewrite <- pow2_Z by lia. apply pow2_pos. }
  assert (Hp2 : (0 < inject_Z (2 ^ ld))%Q).
  { rewrite <- pow2_Z by lia. apply pow2_pos. }
  assert (Hlo : (pow2 (ln - ld - 1) <= n # d)%Q).
  { replace (ln - ld - 1) with (ln - (ld + 1)) by lia.
    rewrite pow2_sub, Hq, !pow2_Z by lia.
    apply Qdiv_le_cross; [exact Hp1|exact Hdpos|].
    rewrite <- !inject_Z_mult, <- Zle_Qle. nia. }
  assert (Hhi : (n # d < pow2 (ln - ld + 1))%Q).
  { replace (ln - ld + 1) with (ln + 1 - ld) by lia.
    rewrite pow2_sub, Hq, !pow2_Z by lia.
    apply Qdiv_lt_cross; [exact Hdpos|exact Hp2|].
    rewrite <- !inject_Z_mult, <- Zlt_Qlt. nia. }
  destruct (Qle_bool (pow2 (ln - ld)) (n # d)) eqn:E.
  - apply Qle_bool_iff in E.
    replace (ln - ld + 1 - 1) with (ln - ld) by lia. split; assumption.
  - split; [exact Hlo|].
    apply Qnot_le_lt. intros Hc. apply Qle_bool_iff in Hc. congruence.
Qed.

Lemma mag_unique x d : (pow2 (d - 1) <= x < pow2 d)%Q -> mag x = d.
Proof.
  intros [Hlo Hhi].
  assert (Hx : (0 < x)%Q) by (pose proof (pow2_pos (d - 1)); lra).
  destruct (mag_spec x Hx) as [Hlo' Hhi'].
  assert (mag x - 1 < d) by (apply pow2_lt_inv; lra).
  assert (d - 1 < mag x) by (apply pow2_lt_inv; lra).
  lia.
Qed.

Lemma mag_le x y : (0 < x)%Q -> (x <= y)%Q -> mag x <= mag y.
Proof.
  intros Hx Hxy.
  destruct (mag_spec x Hx) as [Hlo Hhi].
  destruct (mag_spec y) as [Hlo' Hhi']; [lra|].
  assert (mag x - 1 < mag y) by (apply pow2_lt_inv; lra). lia.
Qed.

(** *** The nearest integer *)
Lemma Qfloor_unique (m : Z) (u : Q) :
  (inject_Z m <= u < inject_Z m + 1)%Q -> Qfloor u = m.
Proof.
  intros [Hlo Hhi].
  pose proof (Qfloor_le u) as H1. pose proof (Qlt_floor u) as H2.
  rewrite inject_Z_plus in H2. change (inject_Z 1) with 1%Q in H2.
  assert (Qfloor u < m + 1).
  { rewrite Zlt_Qlt, inject_Z_plus. change (inject_Z 1) with 1%Q. lra. }
  assert (m < Qfloor u + 1).
  { rewrite Zlt_Qlt, inject_Z_plus. change (inject_Z 1) with 1%Q. lra. }
  lia.
Qed.

Lemma rne_inb m l u : inb m l u -> rne u = round_nearest_even m l.
Proof.
  intros Hu. unfold rne.
  assert (Hf : Qfloor u = m).
  { apply Qfloor_unique. destruct l as [|[]]; cbn [inb] in Hu; lra. }
  rewrite Hf.
  destruct l as [|[]]; cbn [inb round_nearest_even] in *.
  - assert (E : (u - inject_Z m ?= 1 # 2)%Q = Lt) by (rewrite <- Qlt_alt; lra).
    now rewrite E.
  - assert (E : (u - inject_Z m ?= 1 # 2)%Q = Eq) by (rewrite <- Qeq_alt; lra).
    now rewrite E.
  - assert (E : (u - inject_Z m ?= 1 # 2)%Q = Lt) by (rewrite <- Qlt_alt; lra).
    now rewrite E.
  - assert (E : (u - inject_Z m ?= 1 # 2)%Q = Gt) by (rewrite <- Qgt_alt; lra).
    now rewrite E.
Qed.

Lemma rne_Z n : rne (inject_Z n) = n.
Proof. apply (rne_inb n loc_Exact). simpl. reflexivity. Qed.

Lemma rne_bounds u : Qfloor u <= rne u <= Qfloor u + 1.
Proof.
  unfold rne. destruct (_ ?= _)%Q; [destruct (Z.even _)| |]; lia.
Qed.

Lemma rne_mono u v : (u <= v)%Q -> rne u <= rne v.
Proof.
  intros Huv.
  pose proof (Qfloor_resp_le _ _ Huv) as Hf.
  pose proof (rne_bounds u) as Bu. pose proof (rne_bounds v) as Bv.
  destruct (Z.eq_dec (Qfloor u) (Qfloor v)) as [E|NE]; [|lia].
  unfold rne in *. rewrite <- E in *.
  destruct (Qcompare_spec (u - inject_Z (Qfloor u)) (1 # 2)) as [Hu|Hu|Hu];
    destruct (Qcompare_spec (v - inject_Z (Qfloor u)) (1 # 2)) as [Hv|Hv|Hv];
    try destruct (Z.even (Qfloor u)); try lia; lra.
Qed.

Lemma rne_comp u v : (u == v)%Q -> rne u = rne v.
Proof.
  intros E. apply Z.le_antisymm; apply rne_mono; lra.
Qed.

Lemma rne_le_Z u n : (u <= inject_Z n)%Q -> rne u <= n.
Proof. intros Hu. rewrite <- (rne_Z n). now apply rne_mono. Qed.

Lemma rne_ge_Z u n : (inject_Z n <= u)%Q -> n <= rne u.
Proof. intros Hu. rewrite <- (rne_Z n). now apply rne_mono. Qed.

(** *** Rounding: zero, exact values, monotonicity *)
Lemma cexp_mono x y : (0 < x)%Q -> (x <= y)%Q -> cexp x <= cexp y.
Proof.
  intros Hx Hxy. pose proof (mag_le x y Hx Hxy). unfold cexp, fexp. lia.
Qed.

Lemma round_nonneg x : (0 <= x)%Q -> (0 <= round x)%Q.
Proof.
  intros Hx. unfold round.
  apply Qmult_le_0_compat; [|apply Qlt_le_weak, pow2_pos].
  change 0%Q with (inject_Z 0). rewrite <- Zle_Qle.
  apply rne_ge_Z. change (inject_Z 0) with 0%Q.
  apply Qle_shift_div_l; [apply pow2_pos|]. lra.
Qed.

Lemma round_zero x : (x == 0)%Q -> (round x == 0)%Q.
Proof.
  intros E. unfold round. generalize (cexp x). intros c.
  rewrite (rne_comp _ (inject_Z 0)).
  - rewrite rne_Z. change (inject_Z 0) with 0%Q. ring.
  - rewrite E. change (inject_Z 0) with 0%Q. field. apply Qpos_neq0, pow2_pos.
Qed.

(** [x] is a multiple of [pow2 c] *)
Lemma round_scaled x c (n : Z) :
  cexp x = c -> (x == inject_Z n * pow2 c)%Q -> (round x == x)%Q.
Proof.
  intros Hc E. unfold round. rewrite Hc. clear Hc.
  rewrite (rne_comp _ (inject_Z n)).
  - rewrite rne_Z. lra.
  - rewrite E. field. apply Qpos_neq0, pow2_pos.
Qed.

Lemma round_exact x (m e : Z) :
  (0 < x)%Q -> (x == inject_Z m * pow2 e)%Q -> cexp x <= e -> (round x == x)%Q.
Proof.
  intros Hx E Hc. remember (cexp x) as c eqn:Ec.
  apply (round_scaled x c (m * 2 ^ (e - c))); [now symmetry|].
  rewrite E, inject_Z_mult, <- pow2_Z by lia.
  rewrite <- Qmult_assoc, <- pow2_add.
  replace (e - c + c) with e by lia. reflexivity.
Qed.

Lemma round_le_pow2 x b :
  (0 < x)%Q -> (x <= pow2 b)%Q -> cexp x <= b -> (round x <= pow2 b)%Q.
Proof.
  intros Hx Hb Hc. unfold round.
  assert (E : (pow2 b == inject_Z (2 ^ (b - cexp x)) * pow2 (cexp x))%Q).
  { rewrite <- pow2_Z, <- pow2_add by lia. now replace (b - cexp x + cexp x) with b by lia. }
  rewrite E. apply Qmult_le_compat_r; [|apply Qlt_le_weak, pow2_pos].
  rewrite <- Zle_Qle. apply rne_le_Z.
  apply Qle_shift_div_r; [apply pow2_pos|]. lra.
Qed.

Lemma round_ge_pow2 x b :
  (pow2 b <= x)%Q -> cexp x <= b -> (pow2 b <= round x)%Q.
Proof.
  intros Hb Hc. unfold round.
  assert (E : (pow2 b == inject_Z (2 ^ (b - cexp x)) * pow2 (cexp x))%Q).
  { rewrite <- pow2_Z, <- pow2_add by lia. now replace (b - cexp x + cexp x) with b by lia. }
  rewrite E. apply Qmult_le_compat_r; [|apply Qlt_le_weak, pow2_pos].
  rewrite <- Zle_Qle. apply rne_ge_Z.
  apply Qle_shift_div_l; [apply pow2_pos|]. lra.
Qed.

Lemma round_mono_pos x y : (0 < x)%Q -> (x <= y)%Q -> (round x <= round y)%Q.
Proof.
  intros Hx Hxy.
  assert (Hy : (0 < y)%Q) by lra.
  pose proof (cexp_mono x y Hx Hxy) as Hc.
  destruct (Z.eq_dec (cexp x) (cexp y)) as [E|NE].
  - unfold round. rewrite E.
    apply Qmult_le_compat_r; [|apply Qlt_le_weak, pow2_pos].
    rewrite <- Zle_Qle. apply rne_mono.
    apply Qdiv_le_mono; [apply pow2_pos|exact Hxy].
  - destruct (mag_spec x Hx) as [_ Hxhi].
    destruct (mag_spec y Hy) as [Hylo _].
    pose proof (mag_le x y Hx Hxy) as Hm.
    assert (Hcy : cexp y = mag y - prec) by (unfold cexp, fexp in *; lia).
    assert (Hmxy : mag x < mag y) by (unfold cexp, fexp in *; lia).
    apply Qle_trans with (pow2 (Z.max (mag x) (cexp x))).
    + apply round_le_pow2; [exact Hx| |lia].
      apply Qle_trans with (pow2 (mag x)); [lra|]. apply pow2_le. lia.
    + apply Qle_trans with (pow2 (mag y - 1)).
      * apply pow2_le. unfold prec in *. lia.
      * apply round_ge_pow2; [exact Hylo|]. unfold prec in *. lia.
Qed.

Lemma round_mono x y : (0 <= x)%Q -> (x <= y)%Q -> (round x <= round y)%Q.
Proof.
  intros Hx Hxy.
  destruct (Qlt_le_dec 0 x) as [Hpos|Hneg].
  - now apply round_mono_pos.
  - rewrite (round_zero x) by lra. apply round_nonneg. lra.
Qed.

(** *** Mantissas: digits and shifts *)
Lemma inb_comp m l u v : (u == v)%Q -> inb m l u -> inb m l v.
Proof. intros E. destruct l as [|[]]; cbn [inb]; lra. Qed.

Lemma inb_bounds m l u : inb m l u -> (inject_Z m <= u < inject_Z m + 1)%Q.
Proof. destruct l as [|[]]; cbn [inb]; lra. Qed.

Lemma digits2_pos_spec (m : positive) :
  2 ^ (Z.pos (digits2_pos m) - 1) <= Z.pos m < 2 ^ Z.pos (digits2_pos m).
Proof.
  induction m as [m IH|m IH|]; cbn [digits2_pos].
  - rewrite Pos2Z.inj_succ.
    replace (Z.succ (Z.pos (digits2_pos m)) - 1) with (Z.succ (Z.pos (digits2_pos m) - 1)) by lia.
    rewrite !Z.pow_succ_r by lia. lia.
  - rewrite Pos2Z.inj_succ.
    replace (Z.succ (Z.pos (digits2_pos m)) - 1) with (Z.succ (Z.pos (digits2_pos m) - 1)) by lia.
    rewrite !Z.pow_succ_r by lia. lia.
  - simpl. lia.
Qed.

Lemma Zdigits2_spec (m : Z) :
  0 < m -> 2 ^ (Zdigits2 m - 1) <= m < 2 ^ Zdigits2 m.
Proof. destruct m as [|p|p]; try lia. intros _. apply digits2_pos_spec. Qed.

Lemma Zdigits2_pos (m : Z) : 0 < m -> 0 < Zdigits2 m.
Proof. destruct m; simpl; lia. Qed.

Lemma Zdigits2_le (m : Z) (d : Z) : 0 < m -> m < 2 ^ d -> Zdigits2 m <= d.
Proof.
  intros Hm Hd. destruct (Zdigits2_spec m Hm) as [Hlo _].
  pose proof (Zdigits2_pos m Hm).
  destruct (Z.le_gt_cases (Zdigits2 m) d) as [|Hgt]; [assumption|exfalso].
  assert (0 <= d).
  { destruct (Z.le_gt_cases 0 d); [assumption|]. rewrite Z.pow_neg_r in Hd by lia. lia. }
  assert (2 ^ d <= 2 ^ (Zdigits2 m - 1)) by (apply Z.pow_le_mono_r; lia).
  lia.
Qed.

Lemma Zdigits2_ge (m : Z) (d : Z) : 0 < m -> 2 ^ (d - 1) <= m -> d <= Zdigits2 m.
Proof.
  intros Hm Hd. destruct (Zdigits2_spec m Hm) as [_ Hhi].
  pose proof (Zdigits2_pos m Hm).
  destruct (Z.le_gt_cases d (Zdigits2 m)) as [|Hgt]; [assumption|exfalso].
  assert (2 ^ Zdigits2 m <= 2 ^ (d - 1)) by (apply Z.pow_le_mono_r; lia).
  lia.
Qed.

(** One shift to the right. *)
Lemma shr_1_spec mrs u :
  0 <= shr_m mrs ->
  inb (shr_m mrs) (loc_of_shr_record mrs) u ->
  0 <= shr_m (shr_1 mrs)
  /\ inb (shr_m (shr_1 mrs)) (loc_of_shr_record (shr_1 mrs)) (u * (1 # 2))
  /\ shr_m (shr_1 mrs) = shr_m mrs / 2.
Proof.
  destruct mrs as [m r s]. cbn [shr_m]. intros Hm Hu.
  destruct m as [|p|p]; [| |lia].
  - change (inject_Z 0) with 0%Q in *.
    destruct r, s; cbn [shr_1 shr_m loc_of_shr_record inb orb] in *;
      change (inject_Z 0) with 0%Q in *;
      repeat split; try lia; try lra; reflexivity.
  - assert (H2 : forall q, (inject_Z (Z.pos q~0) == 2 * inject_Z (Z.pos q))%Q).
    { intros q. rewrite Pos2Z.inj_xO, inject_Z_mult. reflexivity. }
    assert (H3 : forall q, (inject_Z (Z.pos q~1) == 2 * inject_Z (Z.pos q) + 1)%Q).
    { intros q. rewrite Pos2Z.inj_xI, inject_Z_plus, inject_Z_mult. reflexivity. }
    destruct p as [q|q|].
    + specialize (H3 q). 
      assert (Z.pos q~1 / 2 = Z.pos q) by (rewrite Pos2Z.inj_xI; symmetry; apply (Z.div_unique _ 2 _ 1); lia).
      destruct r, s; cbn [shr_1 shr_m loc_of_shr_record inb orb] in *;
        repeat split; try lia; try lra.
    + specialize (H2 q).
      assert (Z.pos q~0 / 2 = Z.pos q) by (rewrite Pos2Z.inj_xO; symmetry; apply (Z.div_unique _ 2 _ 0); lia).
      destruct r, s; cbn [shr_1 shr_m loc_of_shr_record inb orb] in *;
        repeat split; try lia; try lra.
    + destruct r, s; cbn [shr_1 shr_m loc_of_shr_record inb orb] in *;
        change (inject_Z 0) with 0%Q in *; change (inject_Z 1) with 1%Q in *;
        repeat split; try lia; try lra; reflexivity.
Qed.

Lemma iter_pos_inv {A} (f : A -> A) (P : Z -> A -> Prop) :
  (forall k a, P k a -> P (k + 1) (f a)) ->
  forall p k a, P k a -> P (k + Z.pos p) (SpecFloat.iter_pos f p a).
Proof.
  intros Hf. induction p as [p IH|p IH|]; intros k a Ha; cbn [SpecFloat.iter_pos].
  - replace (k + Z.pos p~1) with (k + 1 + Z.pos p + Z.pos p) by lia.
    apply IH, IH, Hf, Ha.
  - replace (k + Z.pos p~0) with (k + Z.pos p + Z.pos p) by lia.
    apply IH, IH, Ha.
  - apply Hf, Ha.
Qed.

Lemma shr_spec m l e n u :
  0 <= m -> inb m l u -> 0 <= n ->
  exists mrs',
    shr (shr_record_of_loc m l) e n = (mrs', e + n)
    /\ 0 <= shr_m mrs'
    /\ inb (shr_m mrs') (loc_of_shr_record mrs') (u / pow2 n)
    /\ shr_m mrs' = m / 2 ^ n.
Proof.
  intros Hm Hu Hn.
  assert (Hrec : shr_m (shr_record_of_loc m l) = m /\
                 loc_of_shr_record (shr_record_of_loc m l) = l).
  { destruct l as [|[]]; split; reflexivity. }
  destruct Hrec as [Hrm Hrl].
  destruct n as [|p|p]; [| |lia].
  - exists (shr_record_of_loc m l). cbn [shr]. rewrite Z.add_0_r, Hrm, Hrl.
    repeat split; try assumption.
    + eapply inb_comp; [|exact Hu]. rewrite pow2_0. field.
    + rewrite Z.pow_0_r, Z.div_1_r. reflexivity.
  - exists (SpecFloat.iter_pos shr_1 p (shr_record_of_loc m l)). cbn [shr].
    split; [reflexivity|].
    pose (P := fun (k : Z) (mrs : shr_record) =>
                 0 <= k /\ 0 <= shr_m mrs
                 /\ inb (shr_m mrs) (loc_of_shr_record mrs) (u / pow2 k)
                 /\ shr_m mrs = m / 2 ^ k).
    assert (HP : P (0 + Z.pos p) (SpecFloat.iter_pos shr_1 p (shr_record_of_loc m l))).
    { apply iter_pos_inv.
      - intros k a (Hk & Ha0 & Hau & Ham).
        destruct (shr_1_spec a _ Ha0 Hau) as (H0 & H1 & H2).
        repeat split; try lia; try assumption.
        + eapply inb_comp; [|exact H1]. rewrite pow2_S. field.
          apply Qpos_neq0, pow2_pos.
        + rewrite H2, Ham, Z.pow_add_r, Z.pow_1_r by lia.
          rewrite Z.div_div by (try apply Z.pow_pos_nonneg; lia). reflexivity.
      - unfold P. rewrite Hrm, Hrl. repeat split; try lia.
        + eapply inb_comp; [|exact Hu]. rewrite pow2_0. field.
        + rewrite Z.pow_0_r, Z.div_1_r. reflexivity. }
    destruct HP as (_ & H0 & H1 & H2). rewrite Z.add_0_l in *. auto.
Qed.

Lemma shr_nop mrs e n : n <= 0 -> shr mrs e n = (mrs, e).
Proof. destruct n; try reflexivity. lia. Qed.

(** *** [binary_round_aux] rounds to nearest even *)
Lemma fexp_eq e : fexp prec emax e = Z.max (e - 53) (-1074).
Proof. reflexivity. Qed.

Lemma cexp_eq x : cexp x = Z.max (mag x - 53) (-1074).
Proof. reflexivity. Qed.

Lemma inb_scale_bounds m l x e :
  inb m l (x / pow2 e) ->
  (inject_Z m * pow2 e <= x < (inject_Z m + 1) * pow2 e)%Q.
Proof.
  intros Hu. apply inb_bounds in Hu. destruct Hu as [Hlo Hhi].
  pose proof (pow2_pos e) as He.
  split.
  - apply (Qmult_le_r _ _ (/ pow2 e)); [apply Qinv_lt_0_compat, He|].
    assert (E : (inject_Z m * pow2 e * / pow2 e == inject_Z m)%Q)
      by (field; apply Qpos_neq0, He).
    rewrite E. exact Hlo.
  - apply (Qmult_lt_r _ _ (/ pow2 e)); [apply Qinv_lt_0_compat, He|].
    assert (E : ((inject_Z m + 1) * pow2 e * / pow2 e == inject_Z m + 1)%Q)
      by (field; apply Qpos_neq0, He).
    rewrite E. exact Hhi.
Qed.

Lemma inject_Z_pow2 k : 0 <= k -> (inject_Z (2 ^ k) == pow2 k)%Q.
Proof. intros. symmetry. now apply pow2_Z. Qed.

Lemma mag_of_inb mx ex lx x :
  0 < mx -> inb mx lx (x / pow2 ex) -> mag x = Zdigits2 mx + ex.
Proof.
  intros Hmx Hu. apply inb_scale_bounds in Hu. destruct Hu as [Hlo Hhi].
  destruct (Zdigits2_spec mx Hmx) as [Dlo Dhi].
  pose proof (Zdigits2_pos mx Hmx) as Dpos.
  pose proof (pow2_pos ex) as He.
  apply mag_unique. split.
  - replace (Zdigits2 mx + ex - 1) with ((Zdigits2 mx - 1) + ex) by lia.
    rewrite pow2_add, <- inject_Z_pow2 by lia.
    apply Qle_trans with (inject_Z mx * pow2 ex)%Q; [|exact Hlo].
    apply Qmult_le_compat_r; [|lra]. now rewrite <- Zle_Qle.
  - rewrite pow2_add, <- inject_Z_pow2 by lia.
    apply Qlt_le_trans with ((inject_Z mx + 1) * pow2 ex)%Q; [exact Hhi|].
    apply Qmult_le_compat_r; [|lra].
    change 1%Q with (inject_Z 1). rewrite <- inject_Z_plus, <- Zle_Qle. lia.
Qed.

Lemma cexp_of_inb mx ex lx x :
  0 <= mx -> (0 < x)%Q -> inb mx lx (x / pow2 ex) -> ex <= cexp x ->
  fexp prec emax (Zdigits2 mx + ex) = cexp x.
Proof.
  intros Hmx Hx Hu Hex.
  destruct (Z.eq_dec mx 0) as [->|Hne].
  - apply inb_scale_bounds in Hu. destruct Hu as [_ Hhi].
    change (inject_Z 0) with 0%Q in Hhi.
    destruct (mag_spec x Hx) as [Hlo _].
    assert (mag x - 1 < ex) by (apply pow2_lt_inv; lra).
    rewrite cexp_eq in *. rewrite fexp_eq. cbn [Zdigits2]. lia.
  - unfold cexp. rewrite (mag_of_inb mx ex lx x); [reflexivity|lia|assumption].
Qed.

Lemma round_nearest_even_bounds m l : m <= round_nearest_even m l <= m + 1.
Proof. destruct l as [|[]]; cbn [round_nearest_even]; try destruct (Z.even m); lia. Qed.

Lemma valid_finite m e :
  Z.pos (digits2_pos m) <= 53 ->
  (e = -1074 \/ Z.pos (digits2_pos m) = 53) ->
  -1074 <= e <= 971 ->
  Double.valid (S754_finite false m e) = true.
Proof.
  intros Hd Hc He. unfold Double.valid, valid_binary, bounded, canonical_mantissa.
  apply andb_true_iff. split.
  - apply Z.eqb_eq. change (fexp Double.prec Double.emax) with (fexp prec emax).
    rewrite fexp_eq. lia.
  - apply Z.leb_le. unfold Double.emax, Double.prec. lia.
Qed.

Lemma binary_round_aux_correct mx ex lx x :
  0 <= mx -> (0 < x)%Q -> inb mx lx (x / pow2 ex) -> ex <= cexp x ->
  (round x < pow2 emax)%Q ->
  let r := binary_round_aux prec emax false mx ex lx in
  nonneg_finite r = true /\ Double.valid r = true /\ (Double.to_Q r == round x)%Q.
Proof.
  intros Hmx Hx Hu Hex Hov r. subst r.
  unfold binary_round_aux, shr_fexp.
  rewrite (cexp_of_inb mx ex lx x) by assumption.
  assert (Hround : (round x == inject_Z (rne (x / pow2 (cexp x))) * pow2 (cexp x))%Q)
    by reflexivity.
  destruct (mag_spec x Hx) as [Mlo Mhi].
  pose proof (cexp_eq x) as Hc.
  remember (cexp x) as c eqn:Ec. clear Ec.
  destruct (shr_spec mx lx ex (c - ex) (x / pow2 ex) Hmx Hu ltac:(lia))
    as (mrs1 & -> & Hm1 & Hu1 & _).
  replace (ex + (c - ex)) with c by lia.
  assert (Hu1' : inb (shr_m mrs1) (loc_of_shr_record mrs1) (x / pow2 c)).
  { eapply inb_comp; [|exact Hu1].
    assert (E : (pow2 c == pow2 ex * pow2 (c - ex))%Q).
    { rewrite <- pow2_add. now replace (ex + (c - ex)) with c by lia. }
    rewrite E. field. split; apply Qpos_neq0, pow2_pos. }
  rewrite (rne_inb _ _ _ Hu1') in Hround.
  pose proof (round_nearest_even_bounds (shr_m mrs1) (loc_of_shr_record mrs1)) as Hm2.
  apply inb_scale_bounds in Hu1'. destruct Hu1' as [Ulo Uhi].
  set (m1 := shr_m mrs1) in *.
  set (m2 := round_nearest_even m1 (loc_of_shr_record mrs1)) in *.
  pose proof (pow2_pos c) as Hpc.
  (* the shifted mantissa has at most 53 digits *)
  assert (Hm1hi : m1 < 2 ^ 53).
  { rewrite Zlt_Qlt, inject_Z_pow2 by lia.
    apply (Qmult_lt_r _ _ (pow2 c)); [exact Hpc|].
    rewrite <- pow2_add.
    apply Qle_lt_trans with x; [exact Ulo|].
    apply Qlt_le_trans with (pow2 (mag x)); [exact Mhi|].
    apply pow2_le. lia. }
  (* and exactly 53 above the subnormal range *)
  assert (Hm1lo : -1074 < c -> 2 ^ 52 <= m1).
  { intros Hcn. apply Z.lt_succ_r. unfold Z.succ.
    rewrite Zlt_Qlt, inject_Z_plus, inject_Z_pow2 by lia.
    change (inject_Z 1) with 1%Q.
    apply (Qmult_lt_r _ _ (pow2 c)); [exact Hpc|].
    rewrite <- pow2_add.
    apply Qle_lt_trans with x; [|exact Uhi].
    apply Qle_trans with (pow2 (mag x - 1)); [|exact Mlo].
    apply pow2_le. lia. }
  (* no overflow *)
  assert (Hcmax : 0 < m2 -> (-1074 < c -> 2 ^ 52 <= m2) -> c <= 971).
  { intros Hpos Hn. destruct (Z.eq_dec c (-1074)) as [->|Hcn]; [lia|].
    assert (Hlt : (pow2 (52 + c) < pow2 emax)%Q).
    { apply Qle_lt_trans with (round x); [|exact Hov].
      rewrite Hround, pow2_add.
      apply Qmult_le_compat_r; [|lra].
      rewrite <- inject_Z_pow2, <- Zle_Qle by lia. apply Hn. lia. }
    apply pow2_lt_inv in Hlt. unfold emax in Hlt. lia. }
  destruct (Z.eq_dec m2 (2 ^ 53)) as [E53|N53].
  - (* the rounded mantissa overflows to 2^53: one more shift *)
    assert (Hlt : (pow2 (53 + c) < pow2 emax)%Q).
    { apply Qle_lt_trans with (round x); [|exact Hov].
      rewrite Hround, pow2_add, E53, inject_Z_pow2 by lia. lra. }
    apply pow2_lt_inv in Hlt. unfold emax in Hlt.
    rewrite E53. change (Zdigits2 (2 ^ 53)) with 54.
    rewrite fexp_eq. replace (Z.max (54 + c - 53) (-1074) - c) with 1 by lia.
    change (shr (shr_record_of_loc (2 ^ 53) loc_Exact) c 1)
      with ({| shr_m := Z.pos (2 ^ 52); shr_r := false; shr_s := false |}, c + 1).
    cbn [shr_m].
    change (Z.sub emax prec) with 971.
    rewrite (proj2 (Z.leb_le (c + 1) 971)) by lia.
    split; [reflexivity|]. split.
    + apply valid_finite; [vm_compute; discriminate|now right|lia].
    + rewrite Hround, E53. cbn [Double.to_Q cond_Zopp].
      change (2 ^ (c + 1))%Q with (pow2 (c + 1)). rewrite pow2_S.
      change (inject_Z (Z.pos (2 ^ 52))) with (inject_Z (2 ^ 52)).
      rewrite !inject_Z_pow2 by lia.
      change (pow2 53) with (2 * pow2 52)%Q. ring.
  - assert (Hd : Zdigits2 m2 <= 53 \/ m2 = 0).
    { destruct (Z.eq_dec m2 0); [now right|left].
      apply Zdigits2_le; lia. }
    rewrite fexp_eq.
    rewrite shr_nop by (destruct Hd as [Hd| ->]; cbn [Zdigits2]; lia).
    cbn [shr_record_of_loc shr_m].
    destruct m2 as [|p|p] eqn:Em2; [| |lia].
    + split; [reflexivity|]. split; [reflexivity|].
      rewrite Hround. cbn [Double.to_Q]. change (inject_Z 0) with 0%Q. ring.
    + assert (Hn : -1074 < c -> 2 ^ 52 <= Z.pos p) by (intros; specialize (Hm1lo ltac:(assumption)); lia).
      specialize (Hcmax ltac:(lia) Hn).
      change (Z.sub emax prec) with 971.
      rewrite (proj2 (Z.leb_le c 971)) by lia.
      split; [reflexivity|]. split.
      * destruct Hd as [Hd|Hd]; [|discriminate]. cbn [Zdigits2] in Hd.
        apply valid_finite; [exact Hd| |lia].
        destruct (Z.eq_dec c (-1074)); [now left|right].
        apply Z.le_antisymm; [exact Hd|].
        apply (Zdigits2_ge (Z.pos p)); [lia|]. apply Hn. lia.
      * rewrite Hround. cbn [Double.to_Q cond_Zopp]. reflexivity.
Qed.

(** *** [binary_round] and the conversion of integers *)
Lemma Pos_iter_xO (m d : positive) :
  Z.pos (Pos.iter xO m d) = Z.pos m * 2 ^ Z.pos d.
Proof.
  induction d as [|d IH] using Pos.peano_ind.
  - cbn [Pos.iter]. lia.
  - rewrite Pos.iter_succ, Pos2Z.inj_xO, IH, Pos2Z.inj_succ, Z.pow_succ_r by lia.
    ring.
Qed.

Lemma shl_align_spec mx ex ex' :
  let mz := fst (shl_align mx ex ex') in
  let ez := snd (shl_align mx ex ex') in
  ez = Z.min ex ex'
  /\ (inject_Z (Z.pos mz) * pow2 ez == inject_Z (Z.pos mx) * pow2 ex)%Q.
Proof.
  unfold shl_align.
  destruct (ex' - ex) as [|d|d] eqn:E; cbn [fst snd].
  - split; [lia|reflexivity].
  - split; [lia|reflexivity].
  - split; [lia|].
    rewrite Pos_iter_xO, inject_Z_mult, inject_Z_pow2 by lia.
    rewrite <- Qmult_assoc, <- pow2_add.
    replace (Z.pos d + ex') with ex by lia. reflexivity.
Qed.

Lemma Z_pos_value_pos (m : positive) e : (0 < inject_Z (Z.pos m) * pow2 e)%Q.
Proof.
  apply Qmult_lt_0_compat; [reflexivity|apply pow2_pos].
Qed.

Lemma inb_exact (m : Z) e (x : Q) :
  (x == inject_Z m * pow2 e)%Q -> inb m loc_Exact (x / pow2 e).
Proof.
  intros E. cbn [inb]. rewrite E. field. apply Qpos_neq0, pow2_pos.
Qed.

Lemma binary_round_correct m e x :
  (x == inject_Z (Z.pos m) * pow2 e)%Q ->
  (round x < pow2 emax)%Q ->
  let r := binary_round prec emax false m e in
  nonneg_finite r = true /\ Double.valid r = true /\ (Double.to_Q r == round x)%Q.
Proof.
  intros Ex Hov. unfold binary_round.
  pose proof (shl_align_spec m e (fexp prec emax (Z.pos (digits2_pos m) + e)))
    as [Hez Hval].
  destruct (shl_align m e _) as [mz ez]. cbn [fst snd] in *.
  assert (Hx : (0 < x)%Q) by (rewrite Ex; apply Z_pos_value_pos).
  assert (Hmag : mag x = Z.pos (digits2_pos m) + e).
  { apply (mag_of_inb (Z.pos m) e loc_Exact); [lia|now apply inb_exact]. }
  apply binary_round_aux_correct; try assumption; try lia.
  - apply inb_exact. rewrite Hval. exact Ex.
  - unfold cexp. rewrite Hmag. lia.
Qed.

Lemma of_Z_correct n :
  0 < n -> (round (inject_Z n) < pow2 emax)%Q ->
  nonneg_finite (Double.of_Z n) = true /\ Double.valid (Double.of_Z n) = true
  /\ (Double.to_Q (Double.of_Z n) == round (inject_Z n))%Q.
Proof.
  intros Hn Hov. destruct n as [|p|p]; try lia.
  unfold Double.of_Z. cbn [binary_normalize].
  apply (binary_round_correct p 0 (inject_Z (Z.pos p))); [|exact Hov].
  rewrite pow2_0. ring.
Qed.

Lemma mag_Z_le n k : 0 < n -> n < 2 ^ k -> 0 <= k -> mag (inject_Z n) <= k.
Proof.
  intros Hn Hk Hk0.
  destruct (mag_spec (inject_Z n)) as [Hlo _].
  { change 0%Q with (inject_Z 0). now rewrite <- Zlt_Qlt. }
  assert (mag (inject_Z n) - 1 < k); [|lia].
  apply pow2_lt_inv. apply Qle_lt_trans with (inject_Z n); [exact Hlo|].
  rewrite <- inject_Z_pow2, <- Zlt_Qlt by lia. exact Hk.
Qed.

Lemma round_Z n : 0 <= n -> n <= 2 ^ 53 -> (round (inject_Z n) == inject_Z n)%Q.
Proof.
  intros Hn Hk.
  destruct (Z.eq_dec n 0) as [->|Hne]; [now apply round_zero|].
  destruct (Z.eq_dec n (2 ^ 53)) as [->|Hne2].
  - apply (round_exact _ 1 53).
    + reflexivity.
    + rewrite <- inject_Z_pow2 by lia. ring.
    + rewrite cexp_eq. 
      assert (mag (inject_Z (2 ^ 53)) <= 54) by (apply mag_Z_le; lia). lia.
  - apply (round_exact _ n 0).
    + change 0%Q with (inject_Z 0). rewrite <- Zlt_Qlt. lia.
    + rewrite pow2_0. ring.
    + rewrite cexp_eq.
      assert (mag (inject_Z n) <= 53) by (apply mag_Z_le; lia). lia.
Qed.

Lemma round_pow2 k : -1074 <= k -> (round (pow2 k) == pow2 k)%Q.
Proof.
  intros Hk. apply (round_exact _ 1 k).
  - apply pow2_pos.
  - ring.
  - rewrite cexp_eq.
    assert (mag (pow2 k) = k + 1).
    { apply mag_unique. replace (k + 1 - 1) with k by lia.
      split; [apply Qle_refl|apply pow2_lt; lia]. }
    lia.
Qed.

Lemma valid_finite_inv s m e :
  Double.valid (S754_finite s m e) = true ->
  Z.pos (digits2_pos m) <= 53 /\ -1074 <= e <= 971
  /\ (e = -1074 \/ Z.pos (digits2_pos m) = 53).
Proof.
  unfold Double.valid, valid_binary, bounded, canonical_mantissa.
  intros H. apply andb_true_iff in H as [H1 H2].
  apply Z.eqb_eq in H1. apply Z.leb_le in H2.
  change (fexp Double.prec Double.emax) with (fexp prec emax) in H1.
  rewrite fexp_eq in H1. unfold Double.emax, Double.prec in H2. lia.
Qed.

(** *** Multiplication *)
Lemma mul_correct m1 e1 y :
  2 ^ 52 <= Z.pos m1 ->
  nonneg_finite y = true ->
  let x := S754_finite false m1 e1 in
  (round (Double.to_Q x * Double.to_Q y) < pow2 emax)%Q ->
  nonneg_finite (Double.mul x y) = true
  /\ Double.valid (Double.mul x y) = true
  /\ (Double.to_Q (Double.mul x y) == round (Double.to_Q x * Double.to_Q y))%Q.
Proof.
  intros Hm1 Hy x Hov. subst x.
  destruct y as [sy| | |sy m2 e2]; try discriminate.
  - cbn [Double.mul SFmul]. split; [reflexivity|]. split; [reflexivity|].
    cbn [Double.to_Q]. symmetry. apply round_zero. ring.
  - destruct sy; [discriminate|].
    unfold Double.mul. cbn [SFmul xorb].
    cbn [Double.to_Q cond_Zopp] in *.
    change (fun e => (2 ^ e)%Q) with pow2 in *.
    set (xv := (inject_Z (Z.pos m1) * 2 ^ e1 * (inject_Z (Z.pos m2) * 2 ^ e2))%Q) in *.
    assert (Ex : (xv == inject_Z (Z.pos (m1 * m2)) * pow2 (e1 + e2))%Q).
    { unfold xv. rewrite Pos2Z.inj_mul, inject_Z_mult, pow2_add. unfold pow2. ring. }
    assert (Hx : (0 < xv)%Q) by (rewrite Ex; apply Z_pos_value_pos).
    apply binary_round_aux_correct; try assumption; try lia.
    + now apply inb_exact.
    + assert (Hmag : mag xv = Zdigits2 (Z.pos (m1 * m2)) + (e1 + e2)).
      { apply (mag_of_inb _ _ loc_Exact); [lia|now apply inb_exact]. }
      rewrite cexp_eq, Hmag.
      assert (53 <= Zdigits2 (Z.pos (m1 * m2))); [|lia].
      apply Zdigits2_ge; [lia|]. rewrite Pos2Z.inj_mul. change (2 ^ (53 - 1)) with (2 ^ 52). nia.
Qed.

(** *** Division *)
Lemma new_location_inb (m2 q r : Z) (u : Q) :
  0 < m2 -> 0 <= r < m2 ->
  (u == inject_Z q + inject_Z r / inject_Z m2)%Q ->
  inb q (new_location m2 r) u.
Proof.
  intros Hm2 Hr Eu.
  assert (Hm2' : (0 < inject_Z m2)%Q).
  { change 0%Q with (inject_Z 0). now rewrite <- Zlt_Qlt. }
  set (t := (inject_Z r / inject_Z m2)%Q) in *.
  assert (Hlt : 2 * r < m2 -> (t < 1 # 2)%Q).
  { intros H. unfold t. apply Qlt_shift_div_r; [exact Hm2'|].
    assert (E : ((1 # 2) * inject_Z m2 == inject_Z m2 / 2)%Q) by field.
    rewrite E. apply Qlt_shift_div_l; [reflexivity|].
    change 2%Q with (inject_Z 2). rewrite <- inject_Z_mult, <- Zlt_Qlt. lia. }
  assert (Hgt : m2 < 2 * r -> (1 # 2 < t)%Q).
  { intros H. unfold t. apply Qlt_shift_div_l; [exact Hm2'|].
    assert (E : ((1 # 2) * inject_Z m2 == inject_Z m2 / 2)%Q) by field.
    rewrite E. apply Qlt_shift_div_r; [reflexivity|].
    change 2%Q with (inject_Z 2). rewrite <- inject_Z_mult, <- Zlt_Qlt. lia. }
  assert (Heq : 2 * r = m2 -> (t == 1 # 2)%Q).
  { intros H. unfold t. rewrite <- H, inject_Z_mult. change (inject_Z 2) with 2%Q.
    field. intros E0. rewrite <- H, inject_Z_mult in Hm2'.
    change (inject_Z 2) with 2%Q in Hm2'. lra. }
  assert (Hpos : 0 < r -> (0 < t)%Q).
  { intros H. unfold t. apply Qlt_shift_div_l; [exact Hm2'|].
    rewrite Qmult_0_l. change 0%Q with (inject_Z 0). now rewrite <- Zlt_Qlt. }
  assert (Hlt1 : (t < 1)%Q).
  { unfold t. apply Qlt_shift_div_r; [exact Hm2'|].
    rewrite Qmult_1_l, <- Zlt_Qlt. lia. }
  assert (Hzero : r = 0 -> (t == 0)%Q).
  { intros ->. unfold t. change (inject_Z 0) with 0%Q. field.
    now apply Qpos_neq0. }
  unfold new_location, new_location_even, new_location_odd.
  destruct (Z.even m2) eqn:Ev.
  - destruct (Z.eqb_spec r 0) as [E0|N0].
    + cbn [inb]. rewrite Eu, (Hzero E0). ring.
    + destruct (Z.compare_spec (2 * r) m2) as [E|L|G]; cbn [inb].
      * rewrite Eu, (Heq E). reflexivity.
      * specialize (Hlt L). specialize (Hpos ltac:(lia)). lra.
      * specialize (Hgt G). lra.
  - destruct (Z.eqb_spec r 0) as [E0|N0].
    + cbn [inb]. rewrite Eu, (Hzero E0). ring.
    + assert (Hodd : 2 * r <> m2).
      { intros E. rewrite <- E, Z.even_mul in Ev. discriminate. }
      destruct (Z.compare_spec (2 * r + 1) m2) as [E|L|G]; cbn [inb].
      * specialize (Hlt ltac:(lia)). specialize (Hpos ltac:(lia)). lra.
      * specialize (Hlt ltac:(lia)). specialize (Hpos ltac:(lia)). lra.
      * specialize (Hgt ltac:(lia)). lra.
Qed.

Lemma div_correct x m2 e2 :
  nonneg_finite x = true ->
  let y := S754_finite false m2 e2 in
  (round (Double.to_Q x / Double.to_Q y) < pow2 emax)%Q ->
  nonneg_finite (Double.div x y) = true
  /\ Double.valid (Double.div x y) = true
  /\ (Double.to_Q (Double.div x y) == round (Double.to_Q x / Double.to_Q y))%Q.
Proof.
  intros Hx y Hov. subst y.
  destruct x as [sx| | |sx m1 e1]; try discriminate.
  - cbn [Double.div SFdiv]. split; [reflexivity|]. split; [reflexivity|].
    cbn [Double.to_Q]. symmetry. apply round_zero.
    unfold Qdiv. ring.
  - destruct sx; [discriminate|].
    unfold Double.div. cbn [SFdiv xorb].
    cbn [Double.to_Q cond_Zopp] in *.
    change (2 ^ e1)%Q with (pow2 e1) in *. change (2 ^ e2)%Q with (pow2 e2) in *.
    set (xv := (inject_Z (Z.pos m1) * pow2 e1 / (inject_Z (Z.pos m2) * pow2 e2))%Q) in *.
    pose proof (pow2_pos e1) as P1. pose proof (pow2_pos e2) as P2.
    assert (A1 : (0 < inject_Z (Z.pos m1))%Q) by reflexivity.
    assert (A2 : (0 < inject_Z (Z.pos m2))%Q) by reflexivity.
    assert (Hxv : (0 < xv)%Q).
    { unfold xv. apply Qlt_shift_div_l; [apply Z_pos_value_pos|].
      rewrite Qmult_0_l. apply Z_pos_value_pos. }
    unfold SFdiv_core_binary.
    set (d1 := Zdigits2 (Z.pos m1)). set (d2 := Zdigits2 (Z.pos m2)).
    set (e' := Z.min (fexp prec emax (d1 + e1 - (d2 + e2))) (e1 - e2)).
    set (s := e1 - e2 - e').
    assert (Hs : 0 <= s) by (unfold s, e'; lia).
    set (m' := match s with Z.pos _ => Z.shiftl (Z.pos m1) s | 0 => Z.pos m1 | Z.neg _ => 0 end).
    assert (Hm' : m' = Z.pos m1 * 2 ^ s).
    { unfold m'. destruct s as [|p|p] eqn:Es; [lia| |lia].
      now rewrite Z.shiftl_mul_pow2 by lia. }
    pose proof (Z_div_mod m' (Z.pos m2) eq_refl) as Hdiv.
    destruct (Z.div_eucl m' (Z.pos m2)) as [q r]. destruct Hdiv as [Hqr Hr].
    assert (Hq : 0 <= q).
    { assert (0 <= m') by (rewrite Hm'; apply Z.mul_nonneg_nonneg; [lia|apply Z.pow_nonneg; lia]).
      nia. }
    (* the magnitude of the quotient *)
    assert (Hmag : d1 + e1 - (d2 + e2) <= mag xv).
    { destruct (mag_spec xv Hxv) as [_ Mhi].
      destruct (Zdigits2_spec (Z.pos m1) eq_refl) as [D1 _].
      destruct (Zdigits2_spec (Z.pos m2) eq_refl) as [_ D2].
      fold d1 in D1. fold d2 in D2.
      assert (0 < d1) by (apply Zdigits2_pos; lia).
      assert (0 < d2) by (apply Zdigits2_pos; lia).
      assert (Hlow : (pow2 (d1 - 1 + e1 - (d2 + e2)) < xv)%Q).
      { rewrite pow2_sub, !pow2_add. unfold xv.
        apply Qdiv_lt_cross.
        - apply Qmult_lt_0_compat; apply pow2_pos.
        - now apply Qmult_lt_0_compat.
        - rewrite <- (inject_Z_pow2 (d1 - 1)), <- (inject_Z_pow2 d2) by lia.
          assert (E1 : (inject_Z (2 ^ (d1 - 1)) * pow2 e1 * (inject_Z (Z.pos m2) * pow2 e2)
                        == (inject_Z (2 ^ (d1 - 1)) * inject_Z (Z.pos m2)) * (pow2 e1 * pow2 e2))%Q) by ring.
          assert (E2 : (inject_Z (Z.pos m1) * pow2 e1 * (inject_Z (2 ^ d2) * pow2 e2)
                        == (inject_Z (Z.pos m1) * inject_Z (2 ^ d2)) * (pow2 e1 * pow2 e2))%Q) by ring.
          rewrite E1, E2.
          apply Qmult_lt_compat_r; [now apply Qmult_lt_0_compat|].
          rewrite <- !inject_Z_mult, <- Zlt_Qlt. nia. }
      assert (d1 - 1 + e1 - (d2 + e2) < mag xv) by (apply pow2_lt_inv; lra).
      lia. }
    apply binary_round_aux_correct; try assumption.
    + apply new_location_inb; [lia|lia|].
      assert (Ep : (pow2 e1 == pow2 s * pow2 e2 * pow2 e')%Q).
      { rewrite <- !pow2_add. unfold s. now replace (e1 - e2 - e' + e2 + e') with e1 by lia. }
      assert (Em : (inject_Z q + inject_Z r / inject_Z (Z.pos m2)
                    == inject_Z m' / inject_Z (Z.pos m2))%Q).
      { rewrite Hqr, inject_Z_plus, inject_Z_mult. field. now apply Qpos_neq0. }
      rewrite Em, Hm', inject_Z_mult, inject_Z_pow2 by lia.
      unfold xv. rewrite Ep. field.
      repeat split; apply Qpos_neq0; try apply pow2_pos; assumption.
    + unfold e'. rewrite cexp_eq, fexp_eq. lia.
Qed.

(** *** Comparison *)
Lemma to_Q_nonneg x : nonneg_finite x = true -> (0 <= to_Q x)%Q.
Proof.
  destruct x as [s| | |[] m e]; try (intros; discriminate); intros _;
    cbn [to_Q cond_Zopp].
  apply Qlt_le_weak, Z_pos_value_pos.
Qed.

Lemma finite_lt_exp (m1 m2 : positive) e1 e2 :
  valid (S754_finite false m1 e1) = true ->
  valid (S754_finite false m2 e2) = true ->
  e1 < e2 ->
  (inject_Z (Z.pos m1) * pow2 e1 < inject_Z (Z.pos m2) * pow2 e2)%Q.
Proof.
  intros V1 V2 He.
  apply valid_finite_inv in V1 as (D1 & E1 & _).
  apply valid_finite_inv in V2 as (D2 & E2 & N2).
  assert (Hd2 : Z.pos (digits2_pos m2) = 53) by lia.
  pose proof (digits2_pos_spec m1) as [_ H1].
  pose proof (digits2_pos_spec m2) as [H2 _]. rewrite Hd2 in H2.
  assert (H1' : Z.pos m1 < 2 ^ 53).
  { eapply Z.lt_le_trans; [exact H1|]. apply Z.pow_le_mono_r; lia. }
  apply Qlt_le_trans with (pow2 (53 + e1)).
  - rewrite pow2_add, <- (inject_Z_pow2 53) by lia.
    apply Qmult_lt_compat_r; [apply pow2_pos|]. now rewrite <- Zlt_Qlt.
  - apply Qle_trans with (pow2 (52 + e2)); [apply pow2_le; lia|].
    rewrite pow2_add, <- (inject_Z_pow2 52) by lia.
    apply Qmult_le_compat_r; [|apply Qlt_le_weak, pow2_pos].
    rewrite <- Zle_Qle. exact H2.
Qed.

Lemma leb_to_Q x y :
  valid x = true -> valid y = true ->
  nonneg_finite x = true -> nonneg_finite y = true ->
  leb x y = true -> (to_Q x <= to_Q y)%Q.
Proof.
  intros Vx Vy Nx Ny.
  destruct x as [sx| | |[] m1 e1]; try discriminate;
    destruct y as [sy| | |[] m2 e2]; try discriminate;
    unfold leb, SFleb; cbn [SFcompare to_Q cond_Zopp]; intros H; try discriminate.
  - apply Qlt_le_weak, Z_pos_value_pos.
  - change (2 ^ e1)%Q with (pow2 e1). change (2 ^ e2)%Q with (pow2 e2).
    destruct (Z.compare_spec e1 e2) as [E|L|G]; try discriminate.
    + subst e2. apply Qmult_le_compat_r; [|apply Qlt_le_weak, pow2_pos].
      rewrite <- Zle_Qle.
      change (Pos.compare_cont Eq m1 m2) with (Pos.compare m1 m2) in H.
      destruct (Pos.compare_spec m1 m2); try discriminate; lia.
    + apply Qlt_le_weak. now apply finite_lt_exp.
Qed.

Lemma to_Q_leb x y :
  valid x = true -> valid y = true ->
  nonneg_finite x = true -> nonneg_finite y = true ->
  (to_Q x <= to_Q y)%Q -> (0 < to_Q x)%Q -> leb x y = true.
Proof.
  intros Vx Vy Nx Ny Hle Hpos.
  destruct x as [sx| | |sx m1 e1]; try discriminate.
  destruct sx; [discriminate|].
  destruct y as [sy| | |sy m2 e2]; try discriminate.
  { exfalso. change (to_Q (S754_zero sy)) with 0%Q in Hle. lra. }
  destruct sy; [discriminate|].
  cbn [to_Q cond_Zopp] in *.
  unfold leb, SFleb. cbn [SFcompare].
  change (2 ^ e1)%Q with (pow2 e1) in *. change (2 ^ e2)%Q with (pow2 e2) in *.
  destruct (Z.compare_spec e1 e2) as [E|L|G]; try reflexivity.
  - subst e2.
    assert (Z.pos m1 <= Z.pos m2).
    { rewrite Zle_Qle. apply (Qmult_le_r _ _ (pow2 e1)); [apply pow2_pos|exact Hle]. }
    change (Pos.compare_cont Eq m1 m2) with (Pos.compare m1 m2).
    destruct (Pos.compare_spec m1 m2); try reflexivity. lia.
  - exfalso. pose proof (finite_lt_exp m2 m1 e2 e1 Vy Vx G). lra.
Qed.

Lemma ltb_zero_pos x :
  nonneg_finite x = true -> (0 < to_Q x)%Q -> ltb zero x = true.
Proof.
  destruct x as [sx| | |sx m e]; cbn [nonneg_finite to_Q]; intros N H;
    try discriminate.
  destruct sx; [discriminate|reflexivity].
Qed.

(** A threshold within the preconditions is zero or positive and finite. *)
Lemma percent_nonneg_finite p :
  leb zero p = true -> leb p d100 = true -> nonneg_finite p = true.
Proof.
  destruct p as [s|[]| |[] m e]; try reflexivity; intros H0 H100;
    try discriminate H0; try discriminate H100.
Qed.

(** *** Subtraction from [100.0] *)
Lemma valid_d100 : valid d100 = true.
Proof. reflexivity. Qed.

Lemma to_Q_d100 : (to_Q d100 == 100)%Q.
Proof. reflexivity. Qed.

Lemma to_Q_one : (to_Q one == 1)%Q.
Proof. reflexivity. Qed.

Lemma pow2_emax_big : (inject_Z (2 ^ 64) < pow2 emax)%Q.
Proof. rewrite inject_Z_pow2 by lia. apply pow2_lt. unfold emax. lia. Qed.

Lemma round_lt_emax x n :
  (0 <= x)%Q -> (x <= inject_Z n)%Q -> 0 <= n <= 2 ^ 53 -> (round x < pow2 emax)%Q.
Proof.
  intros H0 Hx Hn.
  apply Qle_lt_trans with (round (inject_Z n)); [now apply round_mono|].
  rewrite round_Z by lia.
  apply Qle_lt_trans with (inject_Z (2 ^ 64)); [|apply pow2_emax_big].
  rewrite <- Zle_Qle. lia.
Qed.

Lemma sub100_correct p :
  valid p = true -> leb zero p = true -> leb p d100 = true ->
  nonneg_finite (sub d100 p) = true
  /\ valid (sub d100 p) = true
  /\ (to_Q (sub d100 p) == round (100 - to_Q p))%Q
  /\ (0 <= to_Q p <= 100)%Q.
Proof.
  intros Vp H0 H100.
  pose proof (percent_nonneg_finite p H0 H100) as Np.
  pose proof (to_Q_nonneg p Np) as Hp0.
  pose proof (leb_to_Q p d100 Vp valid_d100 Np eq_refl H100) as Hp100.
  rewrite to_Q_d100 in Hp100.
  assert (R100 : (round 100 == 100)%Q) by (apply (round_Z 100); lia).
  destruct p as [s| | |[] my ey]; try discriminate.
  - (* p is a zero *)
    cbn [sub SFsub d100 to_Q] in *.
    split; [reflexivity|]. split; [reflexivity|]. split; [|lra].
    change (100 - 0)%Q with 100%Q. rewrite R100. reflexivity.
  - (* p is positive *)
    unfold sub, d100. cbn [SFsub cond_Zopp].
    set (mx := 7036874417766400%positive).
    set (ez := Z.min (-46) ey).
    pose proof (shl_align_spec mx (-46) ez) as [_ Ex].
    pose proof (shl_align_spec my ey ez) as [_ Ey].
    assert (Hsx : snd (shl_align mx (-46) ez) = ez).
    { pose proof (shl_align_spec mx (-46) ez) as [H _]. cbn zeta in H. rewrite H. unfold ez. lia. }
    assert (Hsy : snd (shl_align my ey ez) = ez).
    { pose proof (shl_align_spec my ey ez) as [H _]. cbn zeta in H. rewrite H. unfold ez. lia. }
    cbn zeta in Ex, Ey. rewrite Hsx in Ex. rewrite Hsy in Ey.
    set (ax := fst (shl_align mx (-46) ez)) in *.
    set (ay := fst (shl_align my ey ez)) in *.
    cbn [to_Q cond_Zopp] in *.
    change (2 ^ ey)%Q with (pow2 ey) in *.
    assert (Ex' : (inject_Z (Z.pos ax) * pow2 ez == 100)%Q).
    { rewrite Ex. reflexivity. }
    assert (Ed : (inject_Z (Z.pos ax - Z.pos ay) * pow2 ez
                  == 100 - inject_Z (Z.pos my) * pow2 ey)%Q).
    { unfold Z.sub. rewrite inject_Z_plus, inject_Z_opp, <- Ey, <- Ex'. ring. }
    assert (Hge : Z.pos ay <= Z.pos ax).
    { rewrite Zle_Qle. apply (Qmult_le_r _ _ (pow2 ez)); [apply pow2_pos|].
      rewrite Ex', Ey. exact Hp100. }
    destruct (Z.pos ax - Z.pos ay) as [|d|d] eqn:Ediff; [| |lia].
    + cbn [binary_normalize nonneg_finite to_Q].
      split; [reflexivity|]. split; [reflexivity|]. split; [|lra].
      symmetry. apply round_zero. rewrite <- Ed. change (inject_Z 0) with 0%Q. ring.
    + cbn [binary_normalize].
      destruct (binary_round_correct d ez (100 - inject_Z (Z.pos my) * pow2 ey))
        as (H1 & H2 & H3).
      * rewrite <- Ed. reflexivity.
      * apply (round_lt_emax _ 100); [lra| |lia].
        change (inject_Z 100) with 100%Q. lra.
      * split; [exact H1|]. split; [exact H2|]. split; [exact H3|lra].
Qed.

Lemma round_comp x y : (0 <= x)%Q -> (x == y)%Q -> (round x == round y)%Q.
Proof.
  intros Hx E. apply Qle_antisym; apply round_mono; lra.
Qed.

(** *** Conversion to [int] *)
Lemma shiftl_floor (m : positive) e :
  Z.shiftl (Z.pos m) e = Qfloor (inject_Z (Z.pos m) * pow2 e).
Proof.
  symmetry. apply Qfloor_unique.
  destruct (Z.le_gt_cases 0 e) as [He|He].
  - rewrite Z.shiftl_mul_pow2, inject_Z_mult, inject_Z_pow2 by lia. lra.
  - set (k := - e). assert (Hk : 0 < k) by (unfold k; lia).
    assert (Et : Z.shiftl (Z.pos m) e = Z.pos m / 2 ^ k).
    { replace e with (- k) by (unfold k; lia).
      rewrite Z.shiftl_opp_r, Z.shiftr_div_pow2 by lia. reflexivity. }
    rewrite Et.
    assert (Hp : 0 < 2 ^ k) by (apply Z.pow_pos_nonneg; lia).
    pose proof (Z.mul_div_le (Z.pos m) (2 ^ k) Hp) as Hlo.
    pose proof (Z.mul_succ_div_gt (Z.pos m) (2 ^ k) Hp) as Hhi.
    set (t := Z.pos m / 2 ^ k) in *.
    assert (Ev : (inject_Z (Z.pos m) * pow2 e * inject_Z (2 ^ k) == inject_Z (Z.pos m))%Q).
    { rewrite inject_Z_pow2, <- Qmult_assoc, <- pow2_add by lia.
      replace (e + k) with 0 by (unfold k; lia). rewrite pow2_0. ring. }
    assert (Pk : (0 < inject_Z (2 ^ k))%Q).
    { rewrite inject_Z_pow2 by lia. apply pow2_pos. }
    split.
    + apply (Qmult_le_r _ _ (inject_Z (2 ^ k))); [exact Pk|].
      rewrite Ev, <- inject_Z_mult, <- Zle_Qle. lia.
    + apply (Qmult_lt_r _ _ (inject_Z (2 ^ k))); [exact Pk|].
      rewrite Ev. change 1%Q with (inject_Z 1).
      rewrite <- inject_Z_plus, <- inject_Z_mult, <- Zlt_Qlt. lia.
Qed.

Lemma to_int_floor x :
  nonneg_finite x = true -> Qfloor (to_Q x) <= INT_MAX ->
  to_int x = Some (Qfloor (to_Q x)).
Proof.
  destruct x as [s| | |s m e]; cbn [nonneg_finite]; intros N H; try discriminate.
  - reflexivity.
  - destruct s; [discriminate|].
    cbn [to_int to_Q cond_Zopp] in *. change (2 ^ e)%Q with (pow2 e) in *.
    rewrite <- shiftl_floor in *.
    assert (0 <= Z.shiftl (Z.pos m) e) by (apply Z.shiftl_nonneg; lia).
    rewrite (proj2 (Z.leb_le INT_MIN _)) by (unfold INT_MIN; lia).
    rewrite (proj2 (Z.leb_le _ INT_MAX)) by exact H.
    reflexivity.
Qed.

(** *** The operations of [first_index_to_remove], in turn *)
Lemma normal_of_ge_one s m e :
  valid (S754_finite s m e) = true ->
  (1 <= inject_Z (Z.pos m) * pow2 e)%Q -> 2 ^ 52 <= Z.pos m.
Proof.
  intros V H1. apply valid_finite_inv in V as (D & E & C).
  pose proof (digits2_pos_spec m) as [Hlo Hhi].
  destruct C as [->|C]; [exfalso|now rewrite C in Hlo].
  assert (Z.pos m < 2 ^ 53).
  { eapply Z.lt_le_trans; [exact Hhi|]. apply Z.pow_le_mono_r; lia. }
  assert (Hlt : (inject_Z (Z.pos m) * pow2 (-1074) < pow2 (53 + -1074))%Q).
  { rewrite pow2_add, <- (inject_Z_pow2 53) by lia.
    apply Qmult_lt_compat_r; [apply pow2_pos|]. now rewrite <- Zlt_Qlt. }
  assert (Hle : (pow2 (53 + -1074) <= pow2 0)%Q) by (apply pow2_le; lia).
  rewrite pow2_0 in Hle. lra.
Qed.

Lemma of_size_correct (n : nat) :
  (0 < n)%nat -> Z.of_nat n <= 2 ^ 64 ->
  exists m e,
    of_size n = S754_finite false m e
    /\ valid (of_size n) = true
    /\ 2 ^ 52 <= Z.pos m
    /\ (to_Q (of_size n) == round (inject_Z (Z.of_nat n)))%Q
    /\ (1 <= to_Q (of_size n) <= inject_Z (2 ^ 64))%Q.
Proof.
  intros Hn Hmax. unfold of_size.
  assert (Hr : (1 <= round (inject_Z (Z.of_nat n)) <= inject_Z (2 ^ 64))%Q).
  { split.
    - rewrite <- (round_Z 1) by lia. apply round_mono; [discriminate|].
      rewrite <- Zle_Qle. lia.
    - rewrite inject_Z_pow2, <- (round_pow2 64) by lia.
      apply round_mono.
      + change 0%Q with (inject_Z 0). rewrite <- Zle_Qle. lia.
      + rewrite <- inject_Z_pow2, <- Zle_Qle by lia. exact Hmax. }
  destruct (of_Z_correct (Z.of_nat n)) as (N & V & E); [lia| |].
  { apply Qle_lt_trans with (inject_Z (2 ^ 64)); [apply Hr|apply pow2_emax_big]. }
  rewrite <- E in Hr.
  destruct (of_Z (Z.of_nat n)) as [s| | |s m e] eqn:Eq; try discriminate.
  - exfalso. cbn [to_Q] in Hr. lra.
  - destruct s; [discriminate|]. exists m, e.
    split; [reflexivity|]. split; [exact V|]. split; [|split; [exact E|exact Hr]].
    apply (normal_of_ge_one false m e V). apply Hr.
Qed.

Lemma round_one : (round 1 == 1)%Q.
Proof. apply (round_Z 1); lia. Qed.

Lemma percent_chain (size : nat) (p : double) :
  valid p = true -> leb zero p = true -> leb p d100 = true ->
  (0 < size)%nat -> Z.of_nat size <= INT_MAX ->
  let a := sub d100 p in
  let b := div a d100 in
  let c := mul (of_size size) b in
  (to_Q a == round (100 - to_Q p))%Q
  /\ (to_Q b == round (to_Q a / 100))%Q
  /\ (to_Q c == round (inject_Z (Z.of_nat size) * to_Q b))%Q
  /\ (0 <= to_Q p <= 100)%Q /\ (0 <= to_Q a <= 100)%Q /\ (0 <= to_Q b <= 1)%Q
  /\ (0 <= to_Q c <= inject_Z (Z.of_nat size))%Q
  /\ nonneg_finite c = true.
Proof.
  intros Vp H0 H100 Hsize Hint a b c.
  destruct (sub100_correct p Vp H0 H100) as (Na & Va & Ea & Hp). fold a in Na, Va, Ea.
  assert (R100 : (round 100 == 100)%Q) by (apply (round_Z 100); lia).
  assert (Ha : (0 <= to_Q a <= 100)%Q).
  { split; [now apply to_Q_nonneg|].
    rewrite Ea. apply Qle_trans with (round 100); [apply round_mono; lra|lra]. }
  (* the division *)
  assert (Hq : (0 <= to_Q a / 100 <= 1)%Q).
  { split; [apply Qle_shift_div_l; [reflexivity|lra]|].
    apply Qle_shift_div_r; [reflexivity|lra]. }
  destruct (div_correct a 7036874417766400 (-46) Na) as (Nb & Vb & Eb).
  { change (to_Q (S754_finite false 7036874417766400 (-46))) with (to_Q d100).
    apply (round_lt_emax _ 1); [| |lia].
    - apply Qle_shift_div_l; [reflexivity|lra].
    - change (inject_Z 1) with 1%Q. apply Qle_shift_div_r; [reflexivity|].
      rewrite to_Q_d100. lra. }
  change (div a (S754_finite false 7036874417766400 (-46))) with b in Nb, Vb, Eb.
  change (to_Q (S754_finite false 7036874417766400 (-46))) with (to_Q d100) in Eb.
  assert (Eb' : (to_Q b == round (to_Q a / 100))%Q).
  { rewrite Eb. apply round_comp.
    - apply Qle_shift_div_l; [reflexivity|lra].
    - rewrite to_Q_d100. reflexivity. }
  assert (Hb : (0 <= to_Q b <= 1)%Q).
  { split; [now apply to_Q_nonneg|].
    rewrite Eb'. apply Qle_trans with (round 1); [apply round_mono; lra|].
    rewrite round_one. apply Qle_refl. }
  (* the product *)
  unfold INT_MAX in Hint.
  destruct (of_size_correct size Hsize ltac:(lia)) as (m & e & Es & Vs & Hm & Eq & Hs).
  assert (Esz : (to_Q (of_size size) == inject_Z (Z.of_nat size))%Q).
  { rewrite Eq. apply round_Z; lia. }
  assert (Hprod : (0 <= to_Q (of_size size) * to_Q b <= inject_Z (Z.of_nat size))%Q).
  { rewrite Esz. 
    assert (0 <= inject_Z (Z.of_nat size))%Q.
    { change 0%Q with (inject_Z 0). rewrite <- Zle_Qle. lia. }
    split; [apply Qmult_le_0_compat; lra|].
    nra. }
  unfold c. rewrite Es in *.
  destruct (mul_correct m e b Hm Nb) as (Nc & Vc & Ec).
  { apply (round_lt_emax _ (Z.of_nat size)); [apply Hprod|apply Hprod|lia]. }
  cbn zeta in Nc, Vc, Ec.
  assert (Ec' : (to_Q (mul (S754_finite false m e) b)
                 == round (inject_Z (Z.of_nat size) * to_Q b))%Q).
  { rewrite Ec. apply round_comp; [apply Hprod|]. rewrite Esz. reflexivity. }
  repeat split; try assumption; try apply Hp; try apply Ha; try apply Hb.
  - now apply to_Q_nonneg.
  - rewrite Ec, <- (round_Z (Z.of_nat size)) by lia.
    apply round_mono; apply Hprod.
Qed.

Lemma first_index_floor (size : nat) (p : double) :
  valid p = true -> leb zero p = true -> leb p d100 = true ->
  (0 < size)%nat -> Z.of_nat size <= INT_MAX ->
  let c := mul (of_size size) (div (sub d100 p) d100) in
  first_index_to_remove size p = Some (Qfloor (to_Q c))
  /\ 0 <= Qfloor (to_Q c) <= Z.of_nat size.
Proof.
  intros Vp H0 H100 Hsize Hint c.
  destruct (percent_chain size p Vp H0 H100 Hsize Hint)
    as (_ & _ & _ & _ & _ & _ & Hc & Nc).
  fold c in Hc, Nc.
  assert (Hf : 0 <= Qfloor (to_Q c) <= Z.of_nat size).
  { split.
    - change 0 with (Qfloor 0). apply Qfloor_resp_le, Hc.
    - rewrite <- (Qfloor_Z (Z.of_nat size)). apply Qfloor_resp_le, Hc. }
  split; [|exact Hf].
  unfold first_index_to_remove. fold c. apply to_int_floor; [exact Nc|lia].
Qed.

Lemma first_index_range (size : nat) (p : double) :
  valid p = true -> leb zero p = true -> leb p d100 = true ->
  (0 < size)%nat -> Z.of_nat size <= INT_MAX ->
  exists z, first_index_to_remove size p = Some z /\ 0 <= z <= Z.of_nat size.
Proof.
  intros Vp H0 H100 Hsize Hint.
  destruct (first_index_floor size p Vp H0 H100 Hsize Hint) as [E B].
  eexists. split; [exact E|exact B].
Qed.

Lemma first_index_antitone (size : nat) (p1 p2 : double) z1 z2 :
  valid p1 = true -> leb zero p1 = true -> leb p1 d100 = true ->
  valid p2 = true -> leb zero p2 = true -> leb p2 d100 = true ->
  leb p1 p2 = true ->
  (0 < size)%nat -> Z.of_nat size <= INT_MAX ->
  first_index_to_remove size p1 = Some z1 ->
  first_index_to_remove size p2 = Some z2 ->
  z2 <= z1.
Proof.
  intros V1 L1 U1 V2 L2 U2 Hle Hsize Hint E1 E2.
  destruct (first_index_floor size p1 V1 L1 U1 Hsize Hint) as [F1 _].
  destruct (first_index_floor size p2 V2 L2 U2 Hsize Hint) as [F2 _].
  rewrite F1 in E1. rewrite F2 in E2.
  injection E1 as <-. injection E2 as <-.
  destruct (percent_chain size p1 V1 L1 U1 Hsize Hint)
    as (Ea1 & Eb1 & Ec1 & Hp1 & Ha1 & Hb1 & Hc1 & _).
  destruct (percent_chain size p2 V2 L2 U2 Hsize Hint)
    as (Ea2 & Eb2 & Ec2 & Hp2 & Ha2 & Hb2 & Hc2 & _).
  cbn zeta in *.
  pose proof (leb_to_Q p1 p2 V1 V2 (percent_nonneg_finite p1 L1 U1)
                (percent_nonneg_finite p2 L2 U2) Hle) as Hp.
  apply Qfloor_resp_le.
  assert (Hs : (0 <= inject_Z (Z.of_nat size))%Q).
  { change 0%Q with (inject_Z 0). rewrite <- Zle_Qle. lia. }
  assert (Ha : (to_Q (sub d100 p2) <= to_Q (sub d100 p1))%Q).
  { rewrite Ea1, Ea2. apply round_mono; lra. }
  assert (Hb : (to_Q (div (sub d100 p2) d100) <= to_Q (div (sub d100 p1) d100))%Q).
  { rewrite Eb1, Eb2. apply round_mono.
    - apply Qle_shift_div_l; [reflexivity|lra].
    - apply Qdiv_le_mono; [reflexivity|exact Ha]. }
  rewrite Ec1, Ec2. apply round_mono.
  - apply Qmult_le_0_compat; lra.
  - nra.
Qed.

(** *** The progress fraction *)
Lemma progress_range (nb nb_points : nat) :
  (nb < nb_points)%nat -> Z.of_nat nb_points <= 2 ^ 64 ->
  ltb zero (progress nb nb_points) = true
  /\ leb (progress nb nb_points) one = true.
Proof.
  intros Hnb Hmax. unfold progress.
  destruct (of_size_correct (nb + 1)) as (m1 & e1 & E1 & V1 & _ & Q1 & H1); [lia|lia|].
  destruct (of_size_correct nb_points) as (m2 & e2 & E2 & V2 & _ & Q2 & H2); [lia|lia|].
  set (x := of_size (nb + 1)) in *. set (y := of_size nb_points) in *.
  assert (Hxy : (to_Q x <= to_Q y)%Q).
  { rewrite Q1, Q2. apply round_mono.
    - change 0%Q with (inject_Z 0). rewrite <- Zle_Qle. lia.
    - rewrite <- Zle_Qle. lia. }
  assert (Hq : (pow2 (-64) <= to_Q x / to_Q y <= 1)%Q).
  { split.
    - apply Qle_shift_div_l; [lra|].
      apply Qle_trans with (pow2 (-64) * inject_Z (2 ^ 64))%Q.
      + apply Qmult_le_l; [apply pow2_pos|apply H2].
      + rewrite inject_Z_pow2, <- pow2_add by lia.
        change (-64 + 64) with 0. rewrite pow2_0. apply H1.
    - apply Qle_shift_div_r; lra. }
  assert (Nx : nonneg_finite x = true) by (rewrite E1; reflexivity).
  rewrite E2.
  destruct (div_correct x m2 e2 Nx) as (Nr & Vr & Er).
  { rewrite <- E2. apply (round_lt_emax _ 1); [| |lia].
    - pose proof (pow2_pos (-64)). lra.
    - change (inject_Z 1) with 1%Q. apply Hq. }
  cbn zeta in *. rewrite <- E2 in *.
  assert (Hr : (pow2 (-64) <= to_Q (div x y) <= 1)%Q).
  { rewrite Er. split.
    - rewrite <- (round_pow2 (-64)) by lia. apply round_mono; [|apply Hq].
      apply Qlt_le_weak, pow2_pos.
    - apply Qle_trans with (round 1); [|rewrite round_one; apply Qle_refl].
      apply round_mono; [|apply Hq]. pose proof (pow2_pos (-64)). lra. }
  pose proof (pow2_pos (-64)) as P.
  split.
  - apply ltb_zero_pos; [exact Nr|lra].
  - apply to_Q_leb; try assumption; try reflexivity.
    + rewrite to_Q_one. apply Hr.
    + lra.
Qed.

End DoubleFacts.

(** ** The ranking structure *)
Section Multimap_facts.
Context `{Kernel} {V : Type}.
Implicit Types (e x : FT * V) (m : multimap V).

Lemma FT_ltb_asym (a b : FT) : FT_ltb a b = true -> FT_ltb b a = false.
Proof.
  intros Hab. destruct (FT_ltb b a) eqn:Hba; [|done].
  pose proof (FT_ltb_trans _ _ _ Hab Hba) as Haa.
  rewrite FT_ltb_irrefl in Haa. done.
Qed.

Lemma multimap_insert_perm e m : multimap_insert e m ≡ₚ e :: m.
Proof.
  induction m as [|x m IH]; simpl; [done|].
  destruct (FT_ltb e.1 x.1); [done|].
  rewrite IH. apply Permutation_swap.
Qed.

Lemma multimap_insert_ascending e m :
  ascending m -> ascending (multimap_insert e m).
Proof.
  unfold ascending. induction 1 as [|x m Hm IH Hx]; simpl.
  - repeat constructor.
  - destruct (FT_ltb e.1 x.1) eqn:Hlt.
    + constructor; [by constructor|].
      pose proof (FT_ltb_asym _ _ Hlt) as Hxe.
      constructor; [exact Hxe|].
      eapply Forall_impl; [exact Hx|].
      intros y Hy. unfold key_le in *.
      by eapply FT_ltb_neg_trans.
    + constructor; [exact IH|].
      rewrite multimap_insert_perm. by constructor.
Qed.

Lemma filter_none {A} (f : A -> bool) (l : list A) :
  (forall y, In y l -> f y = false) -> List.filter f l = [].
Proof.
  induction l as [|x l IH]; intros Hl; simpl; [done|].
  rewrite (Hl x) by (by left). apply IH. intros y Hy. apply Hl. by right.
Qed.

(** Stability of one insertion: among the entries whose key is
    equivalent to [s], the new entry comes last. *)
Lemma multimap_insert_filter s e m :
  ascending m ->
  List.filter (fun x => FT_equivb s x.1) (multimap_insert e m)
  = List.filter (fun x => FT_equivb s x.1) m
    ++ (if FT_equivb s e.1 then [e] else []).
Proof.
  unfold ascending. induction 1 as [|x m Hm IH Hx]; simpl.
  - by destruct (FT_equivb _ _).
  - destruct (FT_ltb e.1 x.1) eqn:Hlt; simpl.
    + destruct (FT_equivb s e.1) eqn:He; [|by rewrite app_nil_r].
      assert (Hnone : List.filter (fun y => FT_equivb s y.1) (x :: m) = []).
      { apply filter_none. intros y Hy.
        assert (Hey : FT_ltb e.1 y.1 = true).
        { destruct Hy as [->|Hy]; [done|].
          rewrite List.Forall_forall in Hx. specialize (Hx y Hy).
          unfold key_le in Hx.
          destruct (FT_ltb e.1 y.1) eqn:Hey; [done|].
          rewrite (FT_ltb_neg_trans _ _ _ Hey Hx) in Hlt. done. }
        unfold FT_equivb in *.
        apply andb_true_iff in He as [He1 He2].
        apply negb_true_iff in He1, He2.
        destruct (FT_ltb s y.1) eqn:Hsy; [done|].
        rewrite (FT_ltb_neg_trans _ _ _ He2 Hsy) in Hey. done. }
      simpl in Hnone. rewrite Hnone. done.
    + rewrite IH. by destruct (FT_equivb s x.1).
Qed.

Lemma multimap_of_perm entries m : multimap_of entries m ≡ₚ m ++ entries.
Proof.
  revert m. induction entries as [|e entries IH]; intros m; simpl.
  - by rewrite app_nil_r.
  - rewrite IH, multimap_insert_perm. simpl. apply Permutation_middle.
Qed.

Lemma multimap_of_ascending entries m :
  ascending m -> ascending (multimap_of entries m).
Proof.
  revert m. induction entries as [|e entries IH]; intros m Hm; simpl; [done|].
  by apply IH, multimap_insert_ascending.
Qed.

Lemma multimap_of_filter s entries m :
  ascending m ->
  List.filter (fun x => FT_equivb s x.1) (multimap_of entries m)
  = List.filter (fun x => FT_equivb s x.1) m
    ++ List.filter (fun x => FT_equivb s x.1) entries.
Proof.
  revert m. induction entries as [|e entries IH]; intros m Hm; simpl.
  - by rewrite app_nil_r.
  - rewrite IH by (by apply multimap_insert_ascending).
    rewrite multimap_insert_filter by done.
    rewrite <- app_assoc. f_equal.
    by destruct (FT_equivb s e.1).
Qed.

End Multimap_facts.

(** ** The scoring pass and the rewriting pass *)
Section Passes_facts.
Context `{Kernel} {Enriched_point cb_state : Type}.
Variable point_map : Enriched_point -> Point_3.

Abbreviation Params := (@Named_parameters _ cb_state).
Implicit Types (np : Params).

Lemma progress_from_S nb n nb_points :
  progress_from nb (S n) nb_points
  = progress nb nb_points :: progress_from (S nb) n nb_points.
Proof. done. Qed.

Lemma scored_length nq k np points entries :
  scored point_map nq k np points entries -> length entries = length points.
Proof. intros Hs. symmetry. by eapply Forall2_length. Qed.

Lemma scored_points nq k np points entries :
  scored point_map nq k np points entries -> map snd entries = points.
Proof.
  induction 1 as [|vt e points entries [_ He] _ IH]; simpl; [done|].
  by rewrite He, IH.
Qed.

Lemma scored_exists nq k np points :
  Forall (fun vt => is_Some (score_of point_map nq k np vt)) points ->
  exists entries, scored point_map nq k np points entries.
Proof.
  induction 1 as [|vt l [sq Hsq] _ [entries IH]].
  - exists []. constructor.
  - exists ((sq, vt) :: entries). constructor; [by split|done].
Qed.

Lemma scored_Forall (P : FT -> Prop) nq k np points entries :
  scored point_map nq k np points entries ->
  Forall (fun vt => forall sq, score_of point_map nq k np vt = Some sq -> P sq)
    points ->
  Forall (fun e => P e.1) entries.
Proof.
  induction 1 as [|vt e l entries [Hsq He] _ IH]; intros Hl; [constructor|].
  apply Forall_cons in Hl as [Hvt Hl].
  constructor; [by apply Hvt|by apply IH].
Qed.

Lemma scoring_pass_done nq k (np : Params) nb_points rest sorted nb calls st
    sorted' calls' st' :
  scoring_pass point_map nq k np nb_points rest sorted nb calls st
    = Scoring_done sorted' calls' st' ->
  exists entries more,
    scored point_map nq k np rest entries
    /\ sorted' = multimap_of entries sorted
    /\ calls' = calls ++ more
    /\ Forall (fun c => c.2 = true) more
    /\ map fst more
       = match callback np with
         | Some _ => progress_from nb (length rest) nb_points
         | None => []
         end.
Proof.
  revert sorted nb calls st.
  induction rest as [|vt rest IH]; intros sorted nb calls st; simpl.
  - intros [= <- <- <-]. exists [], []. rewrite app_nil_r.
    split_and!; try constructor. by destruct (callback np).
  - destruct (compute_avg_knn_sq_distance_3 _ _ _ _) as [sq|] eqn:Hsq; [|done].
    destruct (callback np) as [cb|] eqn:Hcb.
    + destruct (cb st (progress nb nb_points)) as [continue st1] eqn:Hcall.
      destruct continue; [|done].
      intros Hrun. apply IH in Hrun as (entries & more & Hs & -> & -> & Hm & Ha).
      exists ((sq, vt) :: entries), ((progress nb nb_points, true) :: more).
      rewrite <- app_assoc. split_and!; try done.
      * by constructor.
      * by constructor.
      * simpl. by rewrite Ha.
    + intros Hrun. apply IH in Hrun as (entries & more & Hs & -> & -> & Hm & Ha).
      exists ((sq, vt) :: entries), more.
      split_and!; try done. by constructor.
Qed.

(** Without a callback, no call is made. *)
Lemma scoring_pass_no_callback nq k (np : Params) nb_points rest sorted nb
    calls st :
  callback np = None ->
  match scoring_pass point_map nq k np nb_points rest sorted nb calls st with
  | Scoring_undefined => True
  | Scoring_cancelled _ _ => False
  | Scoring_done _ calls' st' => calls' = calls /\ st' = st
  end.
Proof.
  intros Hcb. revert sorted nb calls st.
  induction rest as [|vt rest IH]; intros sorted nb calls st; simpl; [done|].
  destruct (compute_avg_knn_sq_distance_3 _ _ _ _); [|done].
  rewrite Hcb. apply IH.
Qed.

Lemma scoring_pass_cancelled nq k (np : Params) nb_points rest sorted nb
    calls st calls' st' :
  scoring_pass point_map nq k np nb_points rest sorted nb calls st
    = Scoring_cancelled calls' st' ->
  exists pre arg,
    calls' = calls ++ pre ++ [(arg, false)]
    /\ Forall (fun c => c.2 = true) pre
    /\ map fst (pre ++ [(arg, false)])
       = progress_from nb (S (length pre)) nb_points
    /\ (length pre < length rest)%nat.
Proof.
  revert sorted nb calls st.
  induction rest as [|vt rest IH]; intros sorted nb calls st; simpl; [done|].
  destruct (compute_avg_knn_sq_distance_3 _ _ _ _) as [sq|] eqn:Hsq; [|done].
  destruct (callback np) as [cb|] eqn:Hcb.
  - destruct (cb st (progress nb nb_points)) as [continue st1] eqn:Hcall.
    destruct continue.
    + intros Hrun. apply IH in Hrun as (pre & arg & -> & Hp & Ha & Hl).
      exists ((progress nb nb_points, true) :: pre), arg.
      rewrite <- app_assoc. split_and!; try done.
      * by constructor.
      * simpl in *. by rewrite Ha.
      * simpl. lia.
    + intros [= <- <-]. exists [], (progress nb nb_points).
      split_and!; try done. simpl. lia.
  - intros Hrun.
    pose proof (scoring_pass_no_callback nq k np nb_points rest
                  (multimap_insert (sq, vt) sorted) (S nb) calls st Hcb) as Hno.
    by rewrite Hrun in Hno.
Qed.

Lemma scoring_pass_defined nq k (np : Params) nb_points rest sorted nb calls st :
  Forall (fun vt => is_Some (score_of point_map nq k np vt)) rest ->
  scoring_pass point_map nq k np nb_points rest sorted nb calls st
    <> Scoring_undefined.
Proof.
  intros Hrest. revert sorted nb calls st.
  induction Hrest as [|vt rest [sq Hsq] _ IH]; intros sorted nb calls st; simpl;
    [done|].
  unfold score_of in Hsq. rewrite Hsq.
  destruct (callback np) as [cb|]; [|apply IH].
  destruct (cb st (progress nb nb_points)) as [[] st1]; [apply IH|done].
Qed.

(** *** The rewriting pass *)
Implicit Types (src : multimap Enriched_point) (points : list Enriched_point).
Implicit Types (e : FT * Enriched_point).

Lemma rewrite_pass_points fir td src index points dst fptr :
  (dst + length src <= length points)%nat ->
  (rewrite_pass fir td src index points dst fptr).1
  = take dst points ++ map snd src ++ drop (dst + length src) points.
Proof.
  revert index points dst fptr.
  induction src as [|[sq vt] src IH]; intros index points dst fptr Hlen; simpl.
  - by rewrite Nat.add_0_r, take_drop.
  - simpl in Hlen. rewrite IH by (rewrite length_insert; lia).
    rewrite insert_take_drop by lia.
    rewrite take_app_ge by (rewrite length_take; lia).
    rewrite length_take, Nat.min_l by lia.
    replace (S dst - dst)%nat with 1%nat by lia. simpl. rewrite take_0.
    rewrite drop_app_ge by (rewrite length_take; lia).
    rewrite length_take, Nat.min_l by lia.
    replace (S (dst + length src) - dst)%nat with (S (length src)) by lia.
    simpl. rewrite drop_drop.
    rewrite <- app_assoc. simpl. do 4 f_equal. lia.
Qed.

Lemma rewrite_pass_result_bounds fir td src index points dst fptr :
  (fptr <= dst)%nat ->
  (fptr <= (rewrite_pass fir td src index points dst fptr).2
   <= dst + length src)%nat.
Proof.
  revert index points dst fptr.
  induction src as [|[sq vt] src IH]; intros index points dst fptr Hle; simpl.
  - lia.
  - match goal with |- context [rewrite_pass _ _ _ _ _ _ ?f] =>
      specialize (IH (index + 1) (<[dst:=vt]> points) (S dst) f) end.
    destruct (_ || _); lia.
Qed.

(** An entry whose index is at most [first_index_to_remove] is kept. *)
Lemma rewrite_pass_keeps_first fir td e src index points dst fptr :
  index <= fir -> (fptr <= dst)%nat ->
  (dst < (rewrite_pass fir td (e :: src) index points dst fptr).2)%nat.
Proof.
  intros Hi Hle. destruct e as [sq vt]. simpl.
  rewrite (proj2 (Z.leb_le _ _) Hi). simpl.
  pose proof (rewrite_pass_result_bounds fir td src (index + 1)
                (<[dst:=vt]> points) (S dst) (S dst)).
  lia.
Qed.

(** When every index is at most [first_index_to_remove], the marker
    ends at the end of what was written. *)
Lemma rewrite_pass_keeps_all fir td src index points dst fptr :
  src <> [] -> index + Z.of_nat (length src) - 1 <= fir ->
  (rewrite_pass fir td src index points dst fptr).2 = (dst + length src)%nat.
Proof.
  revert index points dst fptr.
  induction src as [|[sq vt] src IH]; intros index points dst fptr Hne Hi;
    [done|].
  simpl in *. rewrite (proj2 (Z.leb_le index fir)) by lia. simpl.
  destruct src as [|e src]; [simpl; lia|].
  rewrite IH; [simpl; lia|done|simpl in *; lia].
Qed.

(** The marker grows with [first_index_to_remove]. *)
Lemma rewrite_pass_mono fir1 fir2 td src index points1 points2 dst fptr1 fptr2 :
  fir2 <= fir1 -> (fptr2 <= fptr1 <= dst)%nat ->
  ((rewrite_pass fir2 td src index points2 dst fptr2).2
   <= (rewrite_pass fir1 td src index points1 dst fptr1).2)%nat.
Proof.
  intros Hfir. revert index points1 points2 dst fptr1 fptr2.
  induction src as [|[sq vt] src IH];
    intros index points1 points2 dst fptr1 fptr2 Hle; simpl; [lia|].
  apply IH.
  destruct (index <=? fir2) eqn:H2; simpl.
  - rewrite (proj2 (Z.leb_le index fir1)) by (apply Z.leb_le in H2; lia).
    simpl. lia.
  - destruct (FT_lt_double _ _); rewrite ?orb_true_r, ?orb_false_r; [lia|].
    destruct (index <=? fir1); lia.
Qed.

(** Past [first_index_to_remove], entries whose score is not below the
    squared distance threshold leave the marker where it is. *)
Lemma rewrite_pass_keeps_no_more fir td src index points dst fptr :
  fir < index ->
  Forall (fun e => FT_lt_double e.1 (Double.mul td td) = false) src ->
  (rewrite_pass fir td src index points dst fptr).2 = fptr.
Proof.
  intros Hi Hsrc. revert index points dst Hi.
  induction Hsrc as [|[sq vt] src Hsq _ IH]; intros index points dst Hi; simpl;
    [done|].
  simpl in Hsq. rewrite Hsq, orb_false_r.
  rewrite (proj2 (Z.leb_gt index fir)) by lia.
  apply IH. lia.
Qed.

End Passes_facts.

(** ** Runs of [remove_outliers] *)
Section Remove_outliers_facts.
Context `{Kernel} {Enriched_point cb_state : Type}.
Variable point_map : Enriched_point -> Point_3.
Variable make_neighbor_query :
  list Enriched_point -> (Enriched_point -> Point_3) -> Neighbor_query.
Implicit Types (points : list Enriched_point) (np : @Named_parameters _ cb_state).
Implicit Types (st : cb_state) (r : @Run Enriched_point cb_state).

Lemma answers_queries_scores nq k np l :
  answers_queries point_map nq k np l = true ->
  Forall (fun vt => is_Some (score_of point_map nq k np vt)) l.
Proof.
  unfold answers_queries. rewrite forallb_forall, List.Forall_forall.
  intros Hl vt Hvt. specialize (Hl vt Hvt).
  unfold score_of, compute_avg_knn_sq_distance_3.
  destruct (nq (point_map vt) k (neighbor_radius np)) as [|n l']; [done|].
  apply FT_div_by_size.
Qed.

Lemma multimap_of_length {V} (entries : list (FT * V)) m :
  length (multimap_of entries m) = (length m + length entries)%nat.
Proof. by rewrite multimap_of_perm, length_app. Qed.

Lemma remove_outliers_returns points k np st :
  admissible point_map make_neighbor_query points k np ->
  exists r, remove_outliers point_map make_neighbor_query points k np st
            = Returned r
            /\ run_spec point_map make_neighbor_query points k np r.
Proof.
  intros (Hpre & Hvalid & Hint & Hnq).
  unfold remove_outliers. rewrite Hpre. simpl.
  pose proof Hpre as Hpre'. unfold preconditions in Hpre'.
  apply andb_true_iff in Hpre' as [Hne Hp].
  apply andb_true_iff in Hne as [Hne _].
  apply negb_true_iff, Nat.eqb_neq in Hne.
  apply andb_true_iff in Hp as [Hp0 Hp100].
  destruct (scoring_pass _ _ _ _ _ _ _ _ _ _) as [|calls st'|sorted calls st']
    eqn:Hscore.
  - exfalso. revert Hscore. apply scoring_pass_defined.
    by apply answers_queries_scores.
  - apply scoring_pass_cancelled in Hscore as (pre & arg & -> & Hall & Hargs & Hlen).
    eexists. split; [done|]. by eapply Run_cancelled.
  - apply scoring_pass_done in Hscore as (entries & more & Hs & -> & -> & Hall & Hargs).
    rewrite multimap_of_length, (scored_length _ _ _ _ _ _ Hs). simpl.
    rewrite (proj2 (Z.leb_le _ _) Hint). simpl.
    destruct (DoubleFacts.first_index_range (length points)
                (threshold_percent np) Hvalid Hp0 Hp100 ltac:(lia) Hint)
      as (fir & Hfir_eq & Hfir).
    rewrite Hfir_eq.
    assert (Hlen : length (multimap_of entries ([] : multimap Enriched_point))
                   = length points).
    { by rewrite multimap_of_length, (scored_length _ _ _ _ _ _ Hs). }
    pose proof (rewrite_pass_points fir (threshold_distance np)
                  (multimap_of entries []) 0 points 0 0) as Hpts.
    destruct (rewrite_pass _ _ _ _ _ _ _) as [points' fptr] eqn:Hrw.
    eexists. split; [done|].
    apply (Run_completed _ _ _ _ _ _ entries fir); simpl; try done.
    + simpl in Hpts. rewrite Hpts by (rewrite Hlen; lia).
      rewrite Hlen, drop_ge by lia.
      by rewrite app_nil_r.
    + by rewrite Hrw.
Qed.

(** The scoring pass reads only [neighbor_radius] and [callback]. *)
Lemma scoring_pass_ext nq k np np' nb_points rest sorted nb calls st :
  neighbor_radius np = neighbor_radius np' -> callback np = callback np' ->
  scoring_pass point_map nq k np nb_points rest sorted nb calls st
  = scoring_pass point_map nq k np' nb_points rest sorted nb calls st.
Proof.
  intros Hr Hcb. revert sorted nb calls st.
  induction rest as [|vt rest IH]; intros sorted nb calls st; simpl; [done|].
  rewrite <- Hr, <- Hcb.
  destruct (compute_avg_knn_sq_distance_3 _ _ _ _); [|done].
  destruct (callback np) as [cb|]; [|apply IH].
  destruct (cb st (progress nb nb_points)) as [[] st1]; [apply IH|done].
Qed.

(** A poll that meets a [false] answer ends on it. *)
Lemma poll_cancelled cb st args calls st' :
  poll cb st args = (calls, st') ->
  Exists (fun c => c.2 = false) calls ->
  exists pre arg,
    calls = pre ++ [(arg, false)] /\ Forall (fun c => c.2 = true) pre.
Proof.
  revert st calls. induction args as [|arg args IH]; intros st calls; simpl.
  - intros [= <- <-] Hex. by apply Exists_nil in Hex.
  - destruct (cb st arg) as [[] st1].
    + destruct (poll cb st1 args) as [calls1 st2] eqn:Hpoll.
      intros [= <- <-] Hex. apply Exists_cons in Hex as [Hex|Hex]; [done|].
      destruct (IH _ _ Hpoll Hex) as (pre & arg' & -> & Hpre).
      exists ((arg, true) :: pre), arg'. split; [done|]. by constructor.
    + intros [= <- <-] _. exists [], arg. by split.
Qed.

(** The scoring pass of a run whose callback answers [false]. *)
Lemma scoring_pass_poll nq k np cb nb_points rest sorted nb calls0 st calls st' :
  callback np = Some cb ->
  poll cb st (progress_from nb (length rest) nb_points) = (calls, st') ->
  Exists (fun c => c.2 = false) calls ->
  answers_queries point_map nq k np (take (length calls) rest) = true ->
  scoring_pass point_map nq k np nb_points rest sorted nb calls0 st
  = Scoring_cancelled (calls0 ++ calls) st'.
Proof.
  intros Hcb. revert sorted nb calls0 st calls.
  induction rest as [|vt rest IH]; intros sorted nb calls0 st calls.
  - intros [= <- <-] Hex. by apply Exists_nil in Hex.
  - cbn [length scoring_pass]. rewrite progress_from_S. cbn [poll]. rewrite Hcb.
    destruct (cb st (progress nb nb_points)) as [[] st1] eqn:Hcall.
    + destruct (poll cb st1 _) as [calls1 st2] eqn:Hpoll.
      intros [= <- <-] Hex Hans.
      apply Exists_cons in Hex as [Hex|Hex]; [done|].
      simpl in Hans. apply andb_true_iff in Hans as [Hvt Hans].
      unfold compute_avg_knn_sq_distance_3.
      destruct (nq (point_map vt) k (neighbor_radius np)) as [|n l]; [done|].
      destruct (FT_div_by_size
                  (fold_left (fun sq_distance neighbor =>
                                FT_add sq_distance
                                  (squared_distance neighbor (point_map vt)))
                     (n :: l) FT_zero) (length l)) as [sq Hsq].
      simpl in Hsq |- *. rewrite Hsq.
      rewrite (IH _ _ _ _ _ Hpoll Hex Hans).
      by rewrite <- app_assoc.
    + intros [= <- <-] _ Hans.
      simpl in Hans. apply andb_true_iff in Hans as [Hvt _].
      unfold compute_avg_knn_sq_distance_3.
      destruct (nq (point_map vt) k (neighbor_radius np)) as [|n l]; [done|].
      destruct (FT_div_by_size
                  (fold_left (fun sq_distance neighbor =>
                                FT_add sq_distance
                                  (squared_distance neighbor (point_map vt)))
                     (n :: l) FT_zero) (length l)) as [sq Hsq].
      simpl in Hsq |- *. by rewrite Hsq.
Qed.

Lemma progress_from_seq n nb_points :
  progress_from 0 n nb_points
  = map (fun i => Double.div (Double.of_size i) (Double.of_size nb_points))
      (seq 1 n).
Proof.
  unfold progress_from. rewrite <- seq_shift, map_map.
  apply map_ext. intros i. unfold progress. by rewrite Nat.add_1_r.
Qed.

End Remove_outliers_facts.

(** * The claims *)
Section Estimator_claims.
Context `{Kernel}.

Lemma fold_left_sq_distance (query : Point_3) (l : list Point_3) (acc : FT) :
  fold_left (fun sq_distance neighbor =>
               FT_add sq_distance (squared_distance neighbor query)) l acc
  = fold_left FT_add (map (fun neighbor => squared_distance neighbor query) l) acc.
Proof.
  revert acc. induction l as [|n l IH]; intros acc; simpl; [done|]. apply IH.
Qed.

(** C6. When the neighbor query returns at least one neighbor,
    [compute_avg_knn_sq_distance_3] returns the arithmetic mean of the
    squared distances from the query point to the neighbors returned:
    their sum divided by their number, whatever [k] is. *)
Theorem compute_avg_knn_sq_distance_3_mean
    (query : Point_3) (neighbor_query : Neighbor_query) (k : N)
    (neighbor_radius : FT) :
  neighbor_query query k neighbor_radius <> [] ->
  exists mean,
    compute_avg_knn_sq_distance_3 query neighbor_query k neighbor_radius
      = Some mean
    /\ arithmetic_mean
         (map (fun neighbor => squared_distance neighbor query)
            (neighbor_query query k neighbor_radius)) = Some mean
    /\ FT_div
         (FT_sum (map (fun neighbor => squared_distance neighbor query)
                    (neighbor_query query k neighbor_radius)))
         (FT_of_size (length (neighbor_query query k neighbor_radius)))
       = Some mean.
Proof.
  intros Hne. unfold compute_avg_knn_sq_distance_3, arithmetic_mean, FT_sum.
  rewrite fold_left_sq_distance, length_map.
  destruct (neighbor_query query k neighbor_radius) as [|n l]; [done|].
  destruct (FT_div_by_size
              (fold_left FT_add
                 (map (fun neighbor => squared_distance neighbor query) (n :: l))
                 FT_zero) (length l)) as [mean Hmean].
  exists mean. simpl in *. by rewrite Hmean.
Qed.

(** C7. [compute_avg_knn_sq_distance_3] has no guard: its result is
    the division by the number of neighbors returned, which is a
    division by zero exactly when the query returns no neighbor. *)
Theorem compute_avg_knn_sq_distance_3_division_by_zero
    (query : Point_3) (neighbor_query : Neighbor_query) (k : N)
    (neighbor_radius : FT) :
  (compute_avg_knn_sq_distance_3 query neighbor_query k neighbor_radius
   = FT_div
       (fold_left (fun sq_distance neighbor =>
                     FT_add sq_distance (squared_distance neighbor query))
          (neighbor_query query k neighbor_radius) FT_zero)
       (FT_of_size (length (neighbor_query query k neighbor_radius))))
  /\ (compute_avg_knn_sq_distance_3 query neighbor_query k neighbor_radius = None
      <-> neighbor_query query k neighbor_radius = []).
Proof.
  split; [done|].
  unfold compute_avg_knn_sq_distance_3.
  destruct (neighbor_query query k neighbor_radius) as [|n l]; simpl.
  - split; [done|]. intros _. apply FT_div_by_zero.
  - split; [|done]. intros Hdiv.
    destruct (FT_div_by_size
                (fold_left (fun sq_distance neighbor =>
                              FT_add sq_distance (squared_distance neighbor query))
                   l (FT_add FT_zero (squared_distance n query))) (length l))
      as [mean Hmean].
    by rewrite Hmean in Hdiv.
Qed.

End Estimator_claims.

Lemma compute_avg_knn_sq_distance_3_mean_witness :
  Exact.neighbor_query Scenario.cloud (fun p => p) Scenario.far 2 0%Q <> []
  /\ exists mean,
      compute_avg_knn_sq_distance_3 Scenario.far
        (Exact.neighbor_query Scenario.cloud (fun p => p)) 2 0%Q = Some mean
      /\ arithmetic_mean
           (map (fun neighbor => squared_distance neighbor Scenario.far)
              (Exact.neighbor_query Scenario.cloud (fun p => p) Scenario.far 2 0%Q))
         = Some mean
      /\ FT_div
           (FT_sum (map (fun neighbor => squared_distance neighbor Scenario.far)
                      (Exact.neighbor_query Scenario.cloud (fun p => p)
                         Scenario.far 2 0%Q)))
           (FT_of_size
              (length (Exact.neighbor_query Scenario.cloud (fun p => p)
                         Scenario.far 2 0%Q)))
         = Some mean.
Proof.
  assert (Hne : Exact.neighbor_query Scenario.cloud (fun p => p) Scenario.far 2 0%Q
                <> []) by (vm_compute; discriminate).
  split; [exact Hne|].
  exact (compute_avg_knn_sq_distance_3_mean Scenario.far
           (Exact.neighbor_query Scenario.cloud (fun p => p)) 2 0%Q Hne).
Defined.

(** With [k = 20] on the ten points of the scenario the query returns
    ten neighbors, and the sum of the squared distances, 10000.3, is
    divided by 10. *)
Example compute_avg_knn_sq_distance_3_fewer_than_k :
  length (Exact.neighbor_query Scenario.cloud (fun p => p) (0, 0, 0)%Q 20 0%Q)
  = 10%nat
  /\ FT_sum (map (fun neighbor => squared_distance neighbor (0, 0, 0)%Q)
               (Exact.neighbor_query Scenario.cloud (fun p => p)
                  (0, 0, 0)%Q 20 0%Q))
     = (100003 # 10)%Q
  /\ compute_avg_knn_sq_distance_3 (0, 0, 0)%Q
       (Exact.neighbor_query Scenario.cloud (fun p => p)) 20 0%Q
     = Some (100003 # 100)%Q.
Proof. repeat split; vm_compute; reflexivity. Qed.

Section Engine_claims.
Context `{Kernel} {Enriched_point cb_state : Type}.
Variable point_map : Enriched_point -> Point_3.
Variable make_neighbor_query :
  list Enriched_point -> (Enriched_point -> Point_3) -> Neighbor_query.
Implicit Types (points : list Enriched_point) (np : @Named_parameters _ cb_state).
Implicit Types (st : cb_state) (r : @Run Enriched_point cb_state).

Lemma preconditions_nonempty points k np :
  preconditions points k np = true -> (0 < length points)%nat.
Proof.
  unfold preconditions. intros Hpre.
  apply andb_true_iff in Hpre as [Hne _].
  apply andb_true_iff in Hne as [Hne _].
  apply negb_true_iff, Nat.eqb_neq in Hne. lia.
Qed.

Lemma run_completed_length points k np r entries :
  scored point_map (make_neighbor_query points point_map) k np points entries ->
  run_points r = map snd (multimap_of entries []) ->
  run_points r ≡ₚ points /\ length (run_points r) = length points.
Proof.
  intros Hs ->.
  assert (Hperm : map snd (multimap_of entries []) ≡ₚ points).
  { rewrite multimap_of_perm. simpl. by rewrite (scored_points _ _ _ _ _ _ Hs). }
  split; [done|]. by rewrite Hperm.
Qed.

(** C3. A run on admissible inputs returns; the returned position lies
    between the beginning and the end of the range, and the range
    holds the points it held before, in some order: none is deleted. *)
Theorem remove_outliers_partitions points (k : N) np st :
  admissible point_map make_neighbor_query points k np ->
  exists r,
    remove_outliers point_map make_neighbor_query points k np st = Returned r
    /\ (0 <= run_result r <= length (run_points r))%nat
    /\ run_points r ≡ₚ points
    /\ length (run_points r) = length points.
Proof.
  intros Hadm.
  destruct (remove_outliers_returns _ _ points k np st Hadm) as (r & Hrun & Hspec).
  exists r. split; [done|].
  destruct Hspec as [pre arg Hpts Hres _ _ _ _|entries fir Hs _ _ Hpts Hres _ _].
  - rewrite Hpts, Hres. split_and!; try done; lia.
  - destruct (run_completed_length _ _ _ _ _ Hs Hpts) as [Hperm Hlen].
    split_and!; try done; [lia|].
    rewrite Hres, Hlen.
    pose proof (rewrite_pass_result_bounds fir (threshold_distance np)
                  (multimap_of entries []) 0 points 0 0 (le_n 0)) as Hb.
    rewrite multimap_of_length, (scored_length _ _ _ _ _ _ Hs) in Hb.
    simpl in Hb. lia.
Qed.

(** C4. When the callback answers [false] at some poll of the scoring
    pass, the run stops there: that call is the last one, the range is
    left as it was, and the returned position is [points.end()]. *)
Theorem remove_outliers_cancelled points (k : N) np st cb calls st' :
  preconditions points k np = true ->
  callback np = Some cb ->
  poll cb st (progress_from 0 (length points) (length points)) = (calls, st') ->
  Exists (fun c => c.2 = false) calls ->
  answers_queries point_map (make_neighbor_query points point_map) k np
    (take (length calls) points) = true ->
  remove_outliers point_map make_neighbor_query points k np st
  = Returned {| run_points := points; run_result := length points;
                run_calls := calls; run_cb_state := st' |}
  /\ exists pre arg,
       calls = pre ++ [(arg, false)] /\ Forall (fun c => c.2 = true) pre.
Proof.
  intros Hpre Hcb Hpoll Hex Hans.
  split; [|by eapply poll_cancelled].
  unfold remove_outliers. rewrite Hpre. simpl.
  by rewrite (scoring_pass_poll point_map _ k np cb _ _ _ _ _ _ _ _ Hcb Hpoll Hex Hans).
Qed.

(** C5. With everything else fixed, a larger [threshold_percent] never
    marks fewer points for removal. *)
Theorem remove_outliers_percent_monotone points (k : N) np st (p2 : double) :
  admissible point_map make_neighbor_query points k np ->
  admissible point_map make_neighbor_query points k (with_threshold_percent p2 np) ->
  Double.leb (threshold_percent np) p2 = true ->
  exists r1 r2,
    remove_outliers point_map make_neighbor_query points k np st = Returned r1
    /\ remove_outliers point_map make_neighbor_query points k
         (with_threshold_percent p2 np) st = Returned r2
    /\ (nb_removed r1 <= nb_removed r2)%nat.
Proof.
  intros Hadm1 Hadm2 Hle.
  destruct (remove_outliers_returns _ _ points k np st Hadm1)
    as (r1 & Hrun1 & Hspec1).
  destruct (remove_outliers_returns _ _ points k _ st Hadm2)
    as (r2 & Hrun2 & Hspec2).
  exists r1, r2. split; [done|]. split; [done|].
  destruct Hadm1 as (Hpre1 & Hv1 & Hint & _).
  destruct Hadm2 as (Hpre2 & Hv2 & _ & _).
  pose proof (preconditions_nonempty _ _ _ Hpre1) as Hne.
  (* the two runs share their scoring pass *)
  unfold remove_outliers in Hrun1, Hrun2. rewrite Hpre1 in Hrun1.
  rewrite Hpre2 in Hrun2. simpl in Hrun1, Hrun2.
  rewrite (scoring_pass_ext point_map _ k (with_threshold_percent p2 np) np)
    in Hrun2 by done.
  unfold nb_removed.
  destruct (scoring_pass _ _ _ _ _ _ _ _ _ _) as [|calls st1|sorted calls st1]
    eqn:Hscore; [done| |].
  - injection Hrun1 as <-. injection Hrun2 as <-. simpl. lia.
  - destruct (negb _); [done|].
    destruct (first_index_to_remove _ (threshold_percent np)) as [fir1|] eqn:Hf1;
      [|done].
    destruct (first_index_to_remove _ p2) as [fir2|] eqn:Hf2; [|done].
    apply scoring_pass_done in Hscore as (entries & more & Hs & -> & _).
    assert (Hlen : length (multimap_of entries ([] : multimap Enriched_point))
                   = length points).
    { by rewrite multimap_of_length, (scored_length _ _ _ _ _ _ Hs). }
    rewrite Hlen in Hf1, Hf2.
    unfold preconditions in Hpre1, Hpre2.
    apply andb_true_iff in Hpre1 as [_ Hp1]. apply andb_true_iff in Hp1 as [L1 U1].
    apply andb_true_iff in Hpre2 as [_ Hp2]. apply andb_true_iff in Hp2 as [L2 U2].
    simpl in Hv2, L2, U2.
    pose proof (DoubleFacts.first_index_antitone (length points)
                  (threshold_percent np) p2 fir1 fir2 Hv1 L1 U1 Hv2 L2 U2 Hle
                  Hne Hint Hf1 Hf2) as Hfir.
    pose proof (rewrite_pass_mono fir1 fir2 (threshold_distance np)
                  (multimap_of entries []) 0 points points 0 0 0 Hfir
                  (conj (le_n 0) (le_n 0))) as Hmono.
    pose proof (rewrite_pass_points fir1 (threshold_distance np)
                  (multimap_of entries []) 0 points 0 0) as Hpts1.
    pose proof (rewrite_pass_points fir2 (threshold_distance np)
                  (multimap_of entries []) 0 points 0 0) as Hpts2.
    simpl in Hrun2.
    destruct (rewrite_pass fir1 _ _ _ _ _ _) as [points1 res1].
    destruct (rewrite_pass fir2 _ _ _ _ _ _) as [points2 res2].
    injection Hrun1 as <-. injection Hrun2 as <-. simpl in *.
    rewrite Hpts1, Hpts2 by lia. lia.
Qed.

(** C8. The ranking is stable.  After a completed run the range holds
    the points in ascending order of score, and the points whose score
    is equivalent to a given one come in the order in which they were
    scored, which is their order in the input. *)
Theorem remove_outliers_stable points (k : N) np st :
  admissible point_map make_neighbor_query points k np ->
  exists r entries,
    remove_outliers point_map make_neighbor_query points k np st = Returned r
    /\ scored point_map (make_neighbor_query points point_map) k np points entries
    /\ (Forall (fun c => c.2 = true) (run_calls r) ->
        exists sorted_points : multimap Enriched_point,
          run_points r = map snd sorted_points
          /\ ascending sorted_points
          /\ sorted_points ≡ₚ entries
          /\ forall s : FT,
               List.filter (fun e => FT_equivb s e.1) sorted_points
               = List.filter (fun e => FT_equivb s e.1) entries).
Proof.
  intros Hadm.
  destruct (remove_outliers_returns _ _ points k np st Hadm) as (r & Hrun & Hspec).
  destruct Hspec as [pre arg _ _ Hcalls _ _ _|entries fir Hs _ _ Hpts _ _ _].
  - destruct Hadm as (_ & _ & _ & Hans).
    apply answers_queries_scores in Hans.
    pose proof (scored_exists point_map _ _ _ _ Hans) as Hex.
    destruct Hex as [entries Hs]. exists r, entries.
    split; [done|]. split; [done|].
    rewrite Hcalls. intros Hall. apply Forall_app in Hall as [_ Hall].
    by apply Forall_cons in Hall as [Hfalse _].
  - exists r, entries. split; [done|]. split; [done|]. intros _.
    exists (multimap_of entries []). split; [done|]. split_and!.
    + apply multimap_of_ascending. constructor.
    + by rewrite multimap_of_perm.
    + intros s. by rewrite multimap_of_filter by constructor.
Qed.

(** C9. The callback is polled once per scored point, right after the
    point is scored, with the number of points scored so far divided
    by the number of points: the arguments are 1/N, 2/N, ... in this
    order, up to N/N unless the callback cancels the run, and each is
    a [double] above 0 and at most 1. *)
Theorem remove_outliers_progress points (k : N) np st cb :
  admissible point_map make_neighbor_query points k np ->
  callback np = Some cb ->
  exists r,
    remove_outliers point_map make_neighbor_query points k np st = Returned r
    /\ (length (run_calls r) <= length points)%nat
    /\ map fst (run_calls r)
       = map (fun i => Double.div (Double.of_size i)
                         (Double.of_size (length points)))
           (seq 1 (length (run_calls r)))
    /\ (Forall (fun c => c.2 = true) (run_calls r) ->
        length (run_calls r) = length points)
    /\ Forall (fun c => Double.ltb Double.zero c.1 = true
                        /\ Double.leb c.1 Double.one = true) (run_calls r).
Proof.
  intros Hadm Hcb.
  destruct (remove_outliers_returns _ _ points k np st Hadm) as (r & Hrun & Hspec).
  exists r. split; [done|].
  destruct Hadm as (_ & _ & Hint & _).
  assert (Hargs : exists n,
             (n <= length points)%nat
             /\ map fst (run_calls r) = progress_from 0 n (length points)
             /\ (Forall (fun c => c.2 = true) (run_calls r) -> n = length points)).
  { destruct Hspec as [pre arg _ _ Hcalls _ Hargs Hlen|entries fir _ _ _ _ _ _ Hargs].
    - exists (S (length pre)). split; [lia|]. split; [done|].
      rewrite Hcalls. intros Hall. apply Forall_app in Hall as [_ Hall].
      by apply Forall_cons in Hall as [Hfalse _].
    - rewrite Hcb in Hargs. by exists (length points). }
  destruct Hargs as (n & Hn & Hargs & Hall).
  assert (Hlen : length (run_calls r) = n).
  { rewrite <- (length_map fst), Hargs. unfold progress_from.
    by rewrite length_map, length_seq. }
  rewrite Hlen. split; [done|]. split; [by rewrite Hargs, progress_from_seq|].
  split; [done|].
  apply Forall_forall. intros c Hc.
  assert (Hin : c.1 ∈ progress_from 0 n (length points)).
  { rewrite <- Hargs. by apply list_elem_of_fmap_2. }
  unfold progress_from in Hin. apply list_elem_of_fmap in Hin as (i & -> & Hi).
  apply elem_of_seq in Hi.
  apply DoubleFacts.progress_range; [lia|].
  unfold Double.INT_MAX in Hint. lia.
Qed.

(** C10. A completed run keeps at least one point: the returned
    position is after the beginning of the range, for the entry of
    index 0 passes the test [index <= first_index_to_remove].  (A
    cancelled run returns the end of the range, which is not the
    beginning either.) *)
Theorem remove_outliers_keeps_one points (k : N) np st :
  admissible point_map make_neighbor_query points k np ->
  exists r,
    remove_outliers point_map make_neighbor_query points k np st = Returned r
    /\ (0 < run_result r)%nat.
Proof.
  intros Hadm.
  destruct (remove_outliers_returns _ _ points k np st Hadm) as (r & Hrun & Hspec).
  exists r. split; [done|].
  destruct Hadm as (Hpre & _).
  pose proof (preconditions_nonempty _ _ _ Hpre) as Hne.
  destruct Hspec as [pre arg _ Hres _ _ _ _|entries fir Hs _ Hfir _ Hres _ _].
  - by rewrite Hres.
  - rewrite Hres.
    destruct (multimap_of entries ([] : multimap Enriched_point))
      as [|e sorted] eqn:Hsorted.
    + apply (f_equal length) in Hsorted.
      rewrite multimap_of_length, (scored_length _ _ _ _ _ _ Hs) in Hsorted.
      simpl in Hsorted. lia.
    + apply rewrite_pass_keeps_first; [lia|done].
Qed.

(** The test [index <= first_index_to_remove] at work.  With ten
    points and [threshold_percent = 10], [first_index_to_remove] is 9
    and the run returns the end of the range, whatever the scores. *)
Lemma remove_outliers_ten_percent_of_ten points (k : N) np st :
  admissible point_map make_neighbor_query points k np ->
  length points = 10%nat -> threshold_percent np = Double.d10 ->
  exists r,
    remove_outliers point_map make_neighbor_query points k np st = Returned r
    /\ run_result r = length points.
Proof.
  intros Hadm Hlen Hp.
  destruct (remove_outliers_returns _ _ points k np st Hadm) as (r & Hrun & Hspec).
  exists r. split; [done|].
  destruct Hspec as [pre arg _ Hres _ _ _ _|entries fir Hs Hfir _ _ Hres _ _];
    [done|].
  rewrite Hlen, Hp in Hfir.
  assert (fir = 9) as -> by (vm_compute in Hfir; congruence).
  assert (Hsorted : length (multimap_of entries ([] : multimap Enriched_point))
                    = 10%nat).
  { by rewrite multimap_of_length, (scored_length _ _ _ _ _ _ Hs), Hlen. }
  rewrite Hres, rewrite_pass_keeps_all.
  - rewrite Hsorted, Hlen. done.
  - intros Hnil. by rewrite Hnil in Hsorted.
  - rewrite Hsorted. lia.
Qed.

(** With [threshold_percent = 100], [first_index_to_remove] is 0 and a
    completed run keeps the first entry even when no score is below the
    squared distance threshold. *)
Lemma remove_outliers_hundred_percent points (k : N) np st :
  admissible point_map make_neighbor_query points k np ->
  threshold_percent np = Double.d100 ->
  Forall (fun vt =>
            forall sq,
              score_of point_map (make_neighbor_query points point_map) k np vt
                = Some sq ->
              FT_lt_double sq (Double.mul (threshold_distance np)
                                 (threshold_distance np)) = false) points ->
  exists r,
    remove_outliers point_map make_neighbor_query points k np st = Returned r
    /\ (Forall (fun c => c.2 = true) (run_calls r) -> run_result r = 1%nat).
Proof.
  intros Hadm Hp Hscores.
  destruct (remove_outliers_returns _ _ points k np st Hadm) as (r & Hrun & Hspec).
  exists r. split; [done|].
  destruct Hspec as [pre arg _ _ Hcalls _ _ _|entries fir Hs Hfir _ _ Hres _ _].
  - rewrite Hcalls. intros Hall. apply Forall_app in Hall as [_ Hall].
    by apply Forall_cons in Hall as [Hfalse _].
  - intros _.
    destruct Hadm as (Hpre & _ & Hint & _).
    pose proof (preconditions_nonempty _ _ _ Hpre) as Hne.
    rewrite Hp in Hfir.
    assert (fir = 0) as ->.
    { destruct (DoubleFacts.first_index_floor (length points) Double.d100
                  eq_refl eq_refl eq_refl Hne Hint) as [Hf _].
      rewrite Hf in Hfir. injection Hfir as <-.
      destruct (DoubleFacts.percent_chain (length points) Double.d100
                  eq_refl eq_refl eq_refl Hne Hint)
        as (_ & _ & Ec & _ & _ & _ & _ & _).
      cbn zeta in Ec.
      change (Double.div (Double.sub Double.d100 Double.d100) Double.d100)
        with (S754_zero false) in *.
      rewrite (Qfloor_comp _ 0%Q); [done|].
      rewrite Ec. apply DoubleFacts.round_zero.
      change (Double.to_Q (S754_zero false)) with 0%Q. ring. }
    assert (Hentries : Forall (fun e => FT_lt_double e.1
                                          (Double.mul (threshold_distance np)
                                             (threshold_distance np)) = false)
                         entries).
    { exact (scored_Forall point_map
               (fun sq => FT_lt_double sq (Double.mul (threshold_distance np)
                                             (threshold_distance np)) = false)
               _ _ _ _ _ Hs Hscores). }
    assert (Hsorted : Forall (fun e => FT_lt_double e.1
                                         (Double.mul (threshold_distance np)
                                            (threshold_distance np)) = false)
                        (multimap_of entries [])).
    { by rewrite multimap_of_perm. }
    rewrite Hres.
    destruct (multimap_of entries ([] : multimap Enriched_point))
      as [|[sq vt] sorted] eqn:Esorted.
    + apply (f_equal length) in Esorted.
      rewrite multimap_of_length, (scored_length _ _ _ _ _ _ Hs) in Esorted.
      simpl in Esorted. lia.
    + apply Forall_cons in Hsorted as [_ Hsorted]. simpl.
      by apply rewrite_pass_keeps_no_more.
Qed.

End Engine_claims.

(** ** The claims on the point cloud with one outlier *)

(** C1. On the ten points of [Scenario.cloud], with [k = 2],
    [threshold_percent = 10] and [threshold_distance = 0], the run puts
    the far point last, and returns the end of the range: the far point
    is not marked for removal, whereas the claim has the returned
    position one before the end.  ([first_index_to_remove] is 9, and the
    test [index <= first_index_to_remove] keeps the entry of index 9.) *)
Theorem scenario_ten_percent :
  first_index_to_remove 10 Double.d10 = Some 9
  /\ Scenario.run (Scenario.params Double.d10 Double.zero) tt
     = Returned {| run_points := Scenario.cluster ++ [Scenario.far];
                   run_result := 10;
                   run_calls := [];
                   run_cb_state := tt |}.
Proof. split; vm_compute; reflexivity. Qed.

(** C2. On the same points with [threshold_percent = 100] and
    [threshold_distance = 0], no score is below the squared distance
    threshold, and yet the returned position is 1: the point of lowest
    score is kept by the percent test [index <= first_index_to_remove]
    (with [first_index_to_remove = 0]), whereas the claim has the
    distance threshold alone decide. *)
Theorem scenario_hundred_percent :
  first_index_to_remove 10 Double.d100 = Some 0
  /\ forallb
       (fun p =>
          match compute_avg_knn_sq_distance_3 p
                  (Exact.neighbor_query Scenario.cloud (fun p => p)) 2 0%Q with
          | Some sq_distance =>
              negb (FT_lt_double sq_distance (Double.mul Double.zero Double.zero))
          | None => false
          end) Scenario.cloud = true
  /\ Scenario.run (Scenario.params Double.d100 Double.zero) tt
     = Returned {| run_points := Scenario.cluster ++ [Scenario.far];
                   run_result := 1;
                   run_calls := [];
                   run_cb_state := tt |}.
Proof. repeat split; vm_compute; reflexivity. Qed.

Lemma remove_outliers_partitions_witness :
  admissible (fun p => p) Exact.neighbor_query Scenario.cloud 2
    (Scenario.params Double.d10 Double.zero)
  /\ exists r,
      remove_outliers (fun p => p) Exact.neighbor_query Scenario.cloud 2
        (Scenario.params Double.d10 Double.zero) tt = Returned r
      /\ (0 <= run_result r <= length (run_points r))%nat
      /\ run_points r ≡ₚ Scenario.cloud
      /\ length (run_points r) = length Scenario.cloud.
Proof.
  assert (Hadm : admissible (fun p => p) Exact.neighbor_query Scenario.cloud 2
                   (Scenario.params Double.d10 Double.zero)).
  { unfold admissible. repeat split; vm_compute; reflexivity || discriminate. }
  split; [exact Hadm|].
  exact (remove_outliers_partitions (fun p => p) Exact.neighbor_query
           Scenario.cloud 2 (Scenario.params Double.d10 Double.zero) tt Hadm).
Defined.

Lemma remove_outliers_cancelled_witness :
  preconditions Scenario.cloud 2 (Scenario.params_with_callback Double.d10) = true
  /\ callback (Scenario.params_with_callback Double.d10)
     = Some Scenario.stop_at_third
  /\ poll Scenario.stop_at_third 0%nat
       (progress_from 0 (length Scenario.cloud) (length Scenario.cloud))
     = (Scenario.cancelled_calls, 3%nat)
  /\ Exists (fun c => c.2 = false) Scenario.cancelled_calls
  /\ answers_queries (fun p => p)
       (Exact.neighbor_query Scenario.cloud (fun p => p)) 2
       (Scenario.params_with_callback Double.d10)
       (take (length Scenario.cancelled_calls) Scenario.cloud) = true
  /\ remove_outliers (fun p => p) Exact.neighbor_query Scenario.cloud 2
       (Scenario.params_with_callback Double.d10) 0%nat
     = Returned {| run_points := Scenario.cloud;
                   run_result := length Scenario.cloud;
                   run_calls := Scenario.cancelled_calls;
                   run_cb_state := 3%nat |}
  /\ exists pre arg,
       Scenario.cancelled_calls = pre ++ [(arg, false)]
       /\ Forall (fun c => c.2 = true) pre.
Proof.
  assert (Hpre : preconditions Scenario.cloud 2
                   (Scenario.params_with_callback Double.d10) = true)
    by (vm_compute; reflexivity).
  assert (Hpoll : poll Scenario.stop_at_third 0%nat
                    (progress_from 0 (length Scenario.cloud) (length Scenario.cloud))
                  = (Scenario.cancelled_calls, 3%nat)) by (vm_compute; reflexivity).
  assert (Hex : Exists (fun c : double * bool => c.2 = false) Scenario.cancelled_calls).
  { unfold Scenario.cancelled_calls. do 2 apply Exists_cons_tl. apply Exists_cons_hd.
    reflexivity. }
  assert (Hans : answers_queries (fun p => p)
                   (Exact.neighbor_query Scenario.cloud (fun p => p)) 2
                   (Scenario.params_with_callback Double.d10)
                   (take (length Scenario.cancelled_calls) Scenario.cloud) = true)
    by (vm_compute; reflexivity).
  split; [exact Hpre|]. split; [reflexivity|]. split; [exact Hpoll|].
  split; [exact Hex|]. split; [exact Hans|].
  exact (remove_outliers_cancelled (fun p => p) Exact.neighbor_query
           Scenario.cloud 2 (Scenario.params_with_callback Double.d10)
           0%nat Scenario.stop_at_third Scenario.cancelled_calls 3%nat
           Hpre eq_refl Hpoll Hex Hans).
Defined.

Lemma remove_outliers_percent_monotone_witness :
  admissible (fun p => p) Exact.neighbor_query Scenario.cloud 2
    (Scenario.params Double.d10 Double.zero)
  /\ admissible (fun p => p) Exact.neighbor_query Scenario.cloud 2
       (with_threshold_percent Scenario.d20
          (Scenario.params Double.d10 Double.zero))
  /\ Double.leb
       (threshold_percent (Scenario.params Double.d10 Double.zero))
       Scenario.d20 = true
  /\ exists r1 r2,
      remove_outliers (fun p => p) Exact.neighbor_query Scenario.cloud 2
        (Scenario.params Double.d10 Double.zero) tt = Returned r1
      /\ remove_outliers (fun p => p) Exact.neighbor_query Scenario.cloud 2
           (with_threshold_percent Scenario.d20
              (Scenario.params Double.d10 Double.zero)) tt = Returned r2
      /\ (nb_removed r1 <= nb_removed r2)%nat.
Proof.
  assert (Hadm1 : admissible (fun p => p) Exact.neighbor_query Scenario.cloud 2
                    (Scenario.params Double.d10 Double.zero)).
  { unfold admissible. repeat split; vm_compute; reflexivity || discriminate. }
  assert (Hadm2 : admissible (fun p => p) Exact.neighbor_query Scenario.cloud 2
                    (with_threshold_percent Scenario.d20
                       (Scenario.params Double.d10 Double.zero))).
  { unfold admissible. repeat split; vm_compute; reflexivity || discriminate. }
  split; [exact Hadm1|]. split; [exact Hadm2|]. split; [reflexivity|].
  exact (remove_outliers_percent_monotone (fun p => p) Exact.neighbor_query
           Scenario.cloud 2 (Scenario.params Double.d10 Double.zero) tt
           Scenario.d20 Hadm1 Hadm2 eq_refl).
Defined.

Lemma remove_outliers_stable_witness :
  admissible (fun p => p) Exact.neighbor_query Scenario.cloud 2
    (Scenario.params Double.d10 Double.zero)
  /\ exists r entries,
      remove_outliers (fun p => p) Exact.neighbor_query Scenario.cloud 2
        (Scenario.params Double.d10 Double.zero) tt = Returned r
      /\ scored (fun p => p) (Exact.neighbor_query Scenario.cloud (fun p => p)) 2
           (Scenario.params Double.d10 Double.zero) Scenario.cloud entries
      /\ (Forall (fun c => c.2 = true) (run_calls r) ->
          exists sorted_points : multimap Exact.Point,
            run_points r = map snd sorted_points
            /\ ascending sorted_points
            /\ sorted_points ≡ₚ entries
            /\ forall s : FT,
                 List.filter (fun e => FT_equivb s e.1) sorted_points
                 = List.filter (fun e => FT_equivb s e.1) entries).
Proof.
  assert (Hadm : admissible (fun p => p) Exact.neighbor_query Scenario.cloud 2
                   (Scenario.params Double.d10 Double.zero)).
  { unfold admissible. repeat split; vm_compute; reflexivity || discriminate. }
  split; [exact Hadm|].
  exact (remove_outliers_stable (fun p => p) Exact.neighbor_query
           Scenario.cloud 2 (Scenario.params Double.d10 Double.zero) tt Hadm).
Defined.

Lemma remove_outliers_progress_witness :
  admissible (fun p => p) Exact.neighbor_query Scenario.cloud 2
    (Scenario.params_go_on Double.d10)
  /\ callback (Scenario.params_go_on Double.d10) = Some Scenario.go_on
  /\ exists r,
      remove_outliers (fun p => p) Exact.neighbor_query Scenario.cloud 2
        (Scenario.params_go_on Double.d10) tt = Returned r
      /\ (length (run_calls r) <= length Scenario.cloud)%nat
      /\ map fst (run_calls r)
         = map (fun i => Double.div (Double.of_size i)
                           (Double.of_size (length Scenario.cloud)))
             (seq 1 (length (run_calls r)))
      /\ (Forall (fun c => c.2 = true) (run_calls r) ->
          length (run_calls r) = length Scenario.cloud)
      /\ Forall (fun c => Double.ltb Double.zero c.1 = true
                          /\ Double.leb c.1 Double.one = true) (run_calls r).
Proof.
  assert (Hadm : admissible (fun p => p) Exact.neighbor_query Scenario.cloud 2
                   (Scenario.params_go_on Double.d10)).
  { unfold admissible. repeat split; vm_compute; reflexivity || discriminate. }
  split; [exact Hadm|]. split; [reflexivity|].
  exact (remove_outliers_progress (fun p => p) Exact.neighbor_query
           Scenario.cloud 2 (Scenario.params_go_on Double.d10) tt
           Scenario.go_on Hadm eq_refl).
Defined.

Lemma remove_outliers_keeps_one_witness :
  admissible (fun p => p) Exact.neighbor_query Scenario.cloud 2
    (Scenario.params Double.d100 Double.zero)
  /\ exists r,
      remove_outliers (fun p => p) Exact.neighbor_query Scenario.cloud 2
        (Scenario.params Double.d100 Double.zero) tt = Returned r
      /\ (0 < run_result r)%nat.
Proof.
  assert (Hadm : admissible (fun p => p) Exact.neighbor_query Scenario.cloud 2
                   (Scenario.params Double.d100 Double.zero)).
  { unfold admissible. repeat split; vm_compute; reflexivity || discriminate. }
  split; [exact Hadm|].
  exact (remove_outliers_keeps_one (fun p => p) Exact.neighbor_query
           Scenario.cloud 2 (Scenario.params Double.d100 Double.zero) tt Hadm).
Defined.

(** * More lemmas *)

(** ** The ends of the percent scale *)
Module PercentFacts.
Import Double DoubleFacts.

Lemma percent_le_zero (p : double) :
  leb zero p = true -> leb p zero = true -> exists s, p = S754_zero s.
Proof.
  destruct p as [s|[]| |[] m e]; intros H0 H1; try discriminate H0;
    try discriminate H1.
  now exists s.
Qed.

Lemma first_index_of_zero (size : nat) (p : double) :
  leb zero p = true -> leb p zero = true ->
  (0 < size)%nat -> Z.of_nat size <= INT_MAX ->
  first_index_to_remove size p = Some (Z.of_nat size).
Proof.
  intros H0 H1 Hsize Hint.
  destruct (percent_le_zero p H0 H1) as [s ->].
  assert (V : valid (S754_zero s) = true) by reflexivity.
  assert (U : leb (S754_zero s) d100 = true) by (destruct s; reflexivity).
  destruct (first_index_floor size (S754_zero s) V H0 U Hsize Hint) as [Hf _].
  rewrite Hf. f_equal.
  destruct (percent_chain size (S754_zero s) V H0 U Hsize Hint)
    as (_ & _ & Ec & _).
  cbn zeta in Ec.
  assert (Eb : div (sub d100 (S754_zero s)) d100 = one)
    by (destruct s; vm_compute; reflexivity).
  rewrite Eb in *.
  rewrite <- (Qfloor_Z (Z.of_nat size)). apply Qfloor_comp.
  assert (Hs : (0 <= inject_Z (Z.of_nat size))%Q).
  { change 0%Q with (inject_Z 0). rewrite <- Zle_Qle. lia. }
  eapply Qeq_trans; [exact Ec|].
  eapply Qeq_trans; [|apply (round_Z (Z.of_nat size)); unfold INT_MAX in Hint; lia].
  apply round_comp; rewrite to_Q_one; [lra|ring].
Qed.

Lemma first_index_of_hundred (size : nat) :
  (0 < size)%nat -> Z.of_nat size <= INT_MAX ->
  first_index_to_remove size d100 = Some 0.
Proof.
  intros Hsize Hint.
  destruct (first_index_floor size d100 eq_refl eq_refl eq_refl Hsize Hint)
    as [Hf _].
  rewrite Hf. f_equal.
  destruct (percent_chain size d100 eq_refl eq_refl eq_refl Hsize Hint)
    as (_ & _ & Ec & _).
  cbn zeta in Ec.
  change (div (sub d100 d100) d100) with (S754_zero false) in *.
  rewrite (Qfloor_comp _ 0%Q); [reflexivity|].
  rewrite Ec. apply round_zero.
  change (to_Q (S754_zero false)) with 0%Q. ring.
Qed.

End PercentFacts.

(** ** More on the two passes *)
Section More_passes_facts.
Context `{Kernel} {Enriched_point cb_state : Type}.
Variable point_map : Enriched_point -> Point_3.
Implicit Types (np : @Named_parameters _ cb_state).
Implicit Types (src : multimap Enriched_point) (points : list Enriched_point).
Implicit Types (e : FT * Enriched_point).

(** An entry that passes the test is before the marker in the end. *)
Lemma rewrite_pass_kept fir td src index points dst fptr i e :
  src !! i = Some e ->
  kept_by_test fir td (index + Z.of_nat i) e = true ->
  (fptr <= dst)%nat ->
  (dst + i < (rewrite_pass fir td src index points dst fptr).2)%nat.
Proof.
  revert index points dst fptr i.
  induction src as [|[sq vt] src IH]; intros index points dst fptr i Hi Hk Hle;
    [done|].
  destruct i as [|i]; simpl in Hi.
  - injection Hi as <-. unfold kept_by_test in Hk.
    rewrite Z.add_0_r in Hk. simpl in Hk |- *. rewrite Hk.
    pose proof (rewrite_pass_result_bounds fir td src (index + 1)
                  (<[dst:=vt]> points) (S dst) (S dst) (le_n _)).
    lia.
  - simpl.
    match goal with |- context [rewrite_pass _ _ _ _ _ _ ?f] =>
      specialize (IH (index + 1) (<[dst:=vt]> points) (S dst) f i Hi) end.
    replace (index + 1 + Z.of_nat i) with (index + Z.of_nat (S i)) in IH by lia.
    specialize (IH Hk).
    destruct (_ || _); lia.
Qed.

(** The marker ends where it was, or just past an entry that passes the
    test. *)
Lemma rewrite_pass_tight fir td src index points dst fptr :
  (rewrite_pass fir td src index points dst fptr).2 = fptr
  \/ exists i e,
       (rewrite_pass fir td src index points dst fptr).2 = S (dst + i)
       /\ src !! i = Some e
       /\ kept_by_test fir td (index + Z.of_nat i) e = true.
Proof.
  revert index points dst fptr.
  induction src as [|[sq vt] src IH]; intros index points dst fptr; simpl;
    [by left|].
  match goal with |- context [rewrite_pass _ _ _ _ _ _ ?f] =>
    destruct (IH (index + 1) (<[dst:=vt]> points) (S dst) f)
      as [Hres|(i & e & Hres & Hi & Hk)] end.
  - destruct (_ || _) eqn:Htest; [|by left].
    right. exists 0%nat, (sq, vt). rewrite Hres.
    split; [f_equal; lia|]. split; [done|].
    unfold kept_by_test. by rewrite Z.add_0_r.
  - right. exists (S i), e. rewrite Hres.
    split; [f_equal; lia|]. split; [done|].
    by replace (index + Z.of_nat (S i)) with (index + 1 + Z.of_nat i) by lia.
Qed.

(** When no score is below the squared distance threshold, the marker
    ends after the entries of index up to [first_index_to_remove]. *)
Lemma rewrite_pass_percent_only fir td src index points dst :
  index <= fir + 1 ->
  Forall (fun e => FT_lt_double e.1 (Double.mul td td) = false) src ->
  (rewrite_pass fir td src index points dst dst).2
  = (dst + Nat.min (length src) (Z.to_nat (fir + 1 - index)))%nat.
Proof.
  intros Hi Hsrc. revert index points dst Hi.
  induction Hsrc as [|[sq vt] src Hsq Hsrc IH]; intros index points dst Hi; simpl.
  - lia.
  - simpl in Hsq. rewrite Hsq, orb_false_r.
    destruct (index <=? fir) eqn:Hle.
    + apply Z.leb_le in Hle. rewrite IH by lia.
      replace (Z.to_nat (fir + 1 - index))
        with (S (Z.to_nat (fir + 1 - (index + 1)))) by lia.
      simpl. lia.
    + apply Z.leb_gt in Hle.
      rewrite rewrite_pass_keeps_no_more by (done || lia).
      replace (Z.to_nat (fir + 1 - index)) with 0%nat by lia. lia.
Qed.

(** The marker grows with the set of scores that pass the distance
    test. *)
Lemma rewrite_pass_mono_distance fir td1 td2 src index points1 points2 dst
    fptr1 fptr2 :
  Forall (fun e => FT_lt_double e.1 (Double.mul td1 td1) = true ->
                   FT_lt_double e.1 (Double.mul td2 td2) = true) src ->
  (fptr1 <= fptr2 <= dst)%nat ->
  ((rewrite_pass fir td1 src index points1 dst fptr1).2
   <= (rewrite_pass fir td2 src index points2 dst fptr2).2)%nat.
Proof.
  intros Hsrc. revert index points1 points2 dst fptr1 fptr2.
  induction Hsrc as [|[sq vt] src Hsq _ IH];
    intros index points1 points2 dst fptr1 fptr2 Hle; simpl; [lia|].
  apply IH. simpl in Hsq.
  destruct (index <=? fir); simpl; [lia|].
  destruct (FT_lt_double sq (Double.mul td1 td1)).
  - rewrite Hsq by done. lia.
  - destruct (FT_lt_double sq (Double.mul td2 td2)); lia.
Qed.

(** The scoring pass stops on the first query left unanswered, unless
    the callback stops it before. *)
Lemma scoring_pass_unanswered nq k np nb_points pre vt post sorted nb calls st :
  answers_queries point_map nq k np pre = true ->
  nq (point_map vt) k (neighbor_radius np) = [] ->
  match callback np with
  | Some cb =>
      Forall (fun c => c.2 = true)
        (poll cb st (progress_from nb (length pre) nb_points)).1
  | None => True
  end ->
  scoring_pass point_map nq k np nb_points (pre ++ vt :: post) sorted nb calls st
  = Scoring_undefined.
Proof.
  intros Hpre Hvt. revert sorted nb calls st Hpre.
  induction pre as [|x pre IH]; intros sorted nb calls st Hpre Hcb; simpl.
  - unfold compute_avg_knn_sq_distance_3. rewrite Hvt. simpl.
    by rewrite FT_div_by_zero.
  - simpl in Hpre. apply andb_true_iff in Hpre as [Hx Hpre].
    unfold compute_avg_knn_sq_distance_3.
    destruct (nq (point_map x) k (neighbor_radius np)) as [|n l]; [done|].
    destruct (FT_div_by_size
                (fold_left (fun sq_distance neighbor =>
                              FT_add sq_distance
                                (squared_distance neighbor (point_map x)))
                   (n :: l) FT_zero) (length l)) as [sq Hsq].
    simpl in Hsq |- *. rewrite Hsq.
    destruct (callback np) as [cb|] eqn:Ecb.
    + cbn [length] in Hcb. rewrite progress_from_S in Hcb. cbn [poll] in Hcb.
      destruct (cb st (progress nb nb_points)) as [[] st1].
      * apply IH; [done|].
        destruct (poll cb st1 _) as [calls1 st2]. simpl in Hcb.
        by apply Forall_cons in Hcb as [_ Hcb].
      * simpl in Hcb. by apply Forall_cons in Hcb as [Hfalse _].
    + by apply IH.
Qed.

(** The calls of the scoring pass are those of [poll]. *)
Lemma scoring_pass_calls nq k np cb nb_points rest sorted nb calls0 st :
  callback np = Some cb ->
  match scoring_pass point_map nq k np nb_points rest sorted nb calls0 st with
  | Scoring_undefined => True
  | Scoring_cancelled calls st' | Scoring_done _ calls st' =>
      exists more,
        poll cb st (progress_from nb (length rest) nb_points) = (more, st')
        /\ calls = calls0 ++ more
  end.
Proof.
  intros Hcb. revert sorted nb calls0 st.
  induction rest as [|vt rest IH]; intros sorted nb calls0 st;
    cbn [scoring_pass length].
  - exists []. by rewrite app_nil_r.
  - destruct (compute_avg_knn_sq_distance_3 _ _ _ _) as [sq|]; [|done].
    rewrite Hcb, progress_from_S. cbn [poll].
    destruct (cb st (progress nb nb_points)) as [[] st1].
    + specialize (IH (multimap_insert (sq, vt) sorted) (S nb)
                    (calls0 ++ [(progress nb nb_points, true)]) st1).
      destruct (scoring_pass _ _ _ _ _ _ _ _ _ _) as [|calls st'|s calls st'];
        [done| |].
      * destruct IH as (more & -> & ->).
        eexists. split; [done|]. by rewrite <- app_assoc.
      * destruct IH as (more & -> & ->).
        eexists. split; [done|]. by rewrite <- app_assoc.
    + by eexists.
Qed.

(** The scored entries of a range are determined by the range. *)
Lemma scored_inj nq k np points entries1 entries2 :
  scored point_map nq k np points entries1 ->
  scored point_map nq k np points entries2 ->
  entries1 = entries2.
Proof.
  intros H1. revert entries2.
  induction H1 as [|vt e1 points entries1 [Hs1 Hv1] _ IH]; intros entries2 H2.
  - by apply Forall2_nil_inv_l in H2.
  - apply Forall2_cons_inv_l in H2 as (e2 & entries2' & [Hs2 Hv2] & H2 & ->).
    f_equal; [|by apply IH].
    destruct e1, e2. simpl in *. congruence.
Qed.

Lemma scores_all_entries (test : FT -> bool) nq k np points entries :
  scores_all point_map test nq k np points = true ->
  scored point_map nq k np points entries ->
  Forall (fun e => test e.1 = true) entries.
Proof.
  intros Hall Hs. induction Hs as [|vt e points entries [Hsq _] _ IH];
    [constructor|].
  simpl in Hall. apply andb_true_iff in Hall as [Hvt Hall].
  rewrite Hsq in Hvt. constructor; [done|by apply IH].
Qed.

End More_passes_facts.

(** ** More on the ranking structure *)
Section More_multimap_facts.
Context `{Kernel} {V : Type}.
Implicit Types (e x : FT * V) (m : multimap V).

(** An entry that is below no entry of the multimap goes last. *)
Lemma multimap_insert_last e m :
  Forall (fun x => key_le x e) m -> multimap_insert e m = m ++ [e].
Proof.
  induction 1 as [|x m Hx _ IH]; simpl; [done|].
  unfold key_le in Hx. by rewrite Hx, IH.
Qed.

Lemma ascending_app_inv m1 m2 :
  ascending (m1 ++ m2) ->
  ascending m2 /\ Forall (fun x => Forall (key_le x) m2) m1.
Proof.
  unfold ascending. induction m1 as [|x m1 IH]; simpl; intros Hs.
  - by split.
  - apply StronglySorted_inv in Hs as [Hs Hx].
    destruct (IH Hs) as [H2 H1]. split; [done|].
    constructor; [|done]. by apply Forall_app in Hx as [_ Hx].
Qed.

(** Entries that come in ascending order stay in this order. *)
Lemma multimap_of_ascending_input entries m :
  ascending (m ++ entries) -> multimap_of entries m = m ++ entries.
Proof.
  revert m. induction entries as [|e entries IH]; intros m Hs; simpl.
  - by rewrite app_nil_r.
  - rewrite multimap_insert_last.
    + rewrite IH; rewrite <- app_assoc; done.
    + apply ascending_app_inv in Hs as [_ Hm].
      eapply Forall_impl; [exact Hm|].
      intros x Hx. by apply Forall_cons in Hx as [Hx _].
Qed.

End More_multimap_facts.

(** ** More on the runs *)
Section More_runs_facts.
Context `{Kernel} {Enriched_point cb_state : Type}.
Variable point_map : Enriched_point -> Point_3.
Variable make_neighbor_query :
  list Enriched_point -> (Enriched_point -> Point_3) -> Neighbor_query.
Implicit Types (points : list Enriched_point) (np : @Named_parameters _ cb_state).
Implicit Types (st : cb_state) (r : @Run Enriched_point cb_state).

Lemma preconditions_iff points k np :
  preconditions points k np = false
  <-> points = [] \/ (k < 2)%N
      \/ Double.leb Double.zero (threshold_percent np) = false
      \/ Double.leb (threshold_percent np) Double.d100 = false.
Proof.
  unfold preconditions.
  rewrite !andb_false_iff, negb_false_iff, Nat.eqb_eq, N.leb_gt.
  rewrite length_zero_iff_nil. clear point_map make_neighbor_query. tauto.
Qed.

(** What the scoring pass of a returned run was. *)
Lemma remove_outliers_scoring points k np st r :
  remove_outliers point_map make_neighbor_query points k np st = Returned r ->
  preconditions points k np = true
  /\ match scoring_pass point_map (make_neighbor_query points point_map) k np
             (length points) points [] 0%nat [] st with
     | Scoring_undefined => False
     | Scoring_cancelled calls st' =>
         r = {| run_points := points; run_result := length points;
                run_calls := calls; run_cb_state := st' |}
     | Scoring_done sorted_points calls st' =>
         run_calls r = calls /\ run_cb_state r = st'
     end.
Proof.
  unfold remove_outliers.
  destruct (preconditions points k np); [simpl|done].
  destruct (scoring_pass _ _ _ _ _ _ _ _ _ _) as [|calls st'|sorted calls st'];
    [done| |].
  - intros [= <-]. done.
  - destruct (negb _); [done|].
    destruct (first_index_to_remove _ _); [|done].
    destruct (rewrite_pass _ _ _ _ _ _ _). intros [= <-]. done.
Qed.

(** The runs on admissible inputs, with the scored entries and
    [first_index_to_remove] at hand in both cases. *)
Lemma remove_outliers_run points k np st :
  admissible point_map make_neighbor_query points k np ->
  exists r entries fir,
    remove_outliers point_map make_neighbor_query points k np st = Returned r
    /\ scored point_map (make_neighbor_query points point_map) k np points entries
    /\ first_index_to_remove (length points) (threshold_percent np) = Some fir
    /\ 0 <= fir <= Z.of_nat (length points)
    /\ ((run_points r = points /\ run_result r = length points
         /\ Exists (fun c => c.2 = false) (run_calls r))
        \/ (run_points r = map snd (multimap_of entries [])
            /\ run_result r
               = (rewrite_pass fir (threshold_distance np)
                    (multimap_of entries []) 0 points 0 0).2
            /\ Forall (fun c => c.2 = true) (run_calls r))).
Proof.
  intros Hadm.
  destruct (remove_outliers_returns _ _ points k np st Hadm) as (r & Hrun & Hspec).
  exists r.
  destruct Hspec as [pre arg Hpts Hres Hcalls _ _ _|entries fir Hs Hfir Hb Hpts Hres Hall _].
  - destruct Hadm as (Hpre & Hv & Hint & Hans).
    apply answers_queries_scores in Hans.
    destruct (scored_exists point_map _ _ _ _ Hans) as [entries Hs].
    unfold preconditions in Hpre.
    apply andb_true_iff in Hpre as [Hne Hp].
    apply andb_true_iff in Hne as [Hne _].
    apply negb_true_iff, Nat.eqb_neq in Hne.
    apply andb_true_iff in Hp as [Hp0 Hp100].
    destruct (DoubleFacts.first_index_range (length points)
                (threshold_percent np) Hv Hp0 Hp100 ltac:(lia) Hint)
      as (fir & Hfir & Hb).
    exists entries, fir. do 4 (split; [done|]).
    left. do 2 (split; [done|]).
    rewrite Hcalls. apply Exists_app. right. by apply Exists_cons_hd.
  - exists entries, fir. do 4 (split; [done|]). by right.
Qed.

Lemma not_all_true (calls : list (double * bool)) :
  Exists (fun c => c.2 = false) calls ->
  Forall (fun c => c.2 = true) calls -> False.
Proof.
  intros Hex Hall. apply Exists_exists in Hex as (c & Hc & Hf).
  rewrite Forall_forall in Hall. specialize (Hall c Hc). congruence.
Qed.

Lemma sorted_entries_length points k np entries :
  scored point_map (make_neighbor_query points point_map) k np points entries ->
  length (multimap_of entries ([] : multimap Enriched_point)) = length points.
Proof.
  intros Hs. by rewrite multimap_of_length, (scored_length _ _ _ _ _ _ Hs).
Qed.

Lemma admissible_nonempty points k np :
  admissible point_map make_neighbor_query points k np ->
  (0 < length points)%nat.
Proof.
  intros (Hpre & _). unfold preconditions in Hpre.
  apply andb_true_iff in Hpre as [Hne _].
  apply andb_true_iff in Hne as [Hne _].
  apply negb_true_iff, Nat.eqb_neq in Hne. lia.
Qed.

(** With no score below the squared distance threshold, the percent
    test alone places the returned position. *)
Lemma run_percent_only points k np st :
  admissible point_map make_neighbor_query points k np ->
  scores_all point_map
    (fun sq_distance =>
       negb (FT_lt_double sq_distance
               (Double.mul (threshold_distance np) (threshold_distance np))))
    (make_neighbor_query points point_map) k np points = true ->
  exists r entries fir,
    remove_outliers point_map make_neighbor_query points k np st = Returned r
    /\ scored point_map (make_neighbor_query points point_map) k np points entries
    /\ first_index_to_remove (length points) (threshold_percent np) = Some fir
    /\ (Forall (fun c => c.2 = true) (run_calls r) ->
        run_points r = map snd (multimap_of entries [])
        /\ run_result r = Nat.min (length points) (Z.to_nat (fir + 1))).
Proof.
  intros Hadm Hscores.
  destruct (remove_outliers_run points k np st Hadm)
    as (r & entries & fir & Hrun & Hs & Hfir & Hb & Hcase).
  exists r, entries, fir. do 3 (split; [done|]). intros Hall.
  destruct Hcase as [(_ & _ & Hex)|(Hpts & Hres & _)];
    [by destruct (not_all_true _ Hex Hall)|].
  split; [done|].
  rewrite Hres, rewrite_pass_percent_only.
  - rewrite (sorted_entries_length _ _ _ _ Hs). simpl. f_equal. lia.
  - lia.
  - rewrite multimap_of_perm. simpl.
    eapply Forall_impl;
      [exact (scores_all_entries point_map _ _ _ _ _ _ Hscores Hs)|].
    intros e He. simpl in He. by apply negb_true_iff in He.
Qed.

End More_runs_facts.

(** ** More on the exact kernel *)
Module MoreExactFacts.
Import Exact ExactFacts.

Lemma Qsquare_nonneg (a : Q) : (0 <= a * a)%Q.
Proof.
  unfold Qle. simpl. rewrite Z.mul_1_r. apply Z.square_nonneg.
Qed.

Lemma sqd_nonneg (p q : Point) : (0 <= sqd p q)%Q.
Proof.
  destruct p as [[px py] pz], q as [[qx qy] qz]. unfold sqd.
  rewrite Qred_correct.
  pose proof (Qsquare_nonneg (px - qx)). pose proof (Qsquare_nonneg (py - qy)).
  pose proof (Qsquare_nonneg (pz - qz)). lra.
Qed.

Lemma sum_nonneg (query : Point) (l : list Point) (acc : Q) :
  (0 <= acc)%Q ->
  (0 <= fold_left (fun sq_distance neighbor =>
                     Qred (sq_distance + sqd neighbor query)) l acc)%Q.
Proof.
  revert acc. induction l as [|n l IH]; intros acc Hacc; simpl; [done|].
  apply IH. rewrite Qred_correct. pose proof (sqd_nonneg n query). lra.
Qed.

Lemma of_size_pos (n : nat) : (0 < of_size (S n))%Q.
Proof.
  unfold of_size. change 0%Q with (inject_Z 0). rewrite <- Zlt_Qlt. lia.
Qed.

Lemma div_nonneg (a b c : Q) :
  (0 <= a)%Q -> (0 <= b)%Q -> div a b = Some c -> (0 <= c)%Q.
Proof.
  unfold div. intros Ha Hb.
  destruct (Qeq_bool b 0) eqn:Eb; [done|]. intros [= <-].
  rewrite Qred_correct.
  apply Qeq_bool_neq in Eb.
  apply Qle_shift_div_l; [|lra].
  destruct (Qlt_le_dec 0 b) as [Hlt|Hle]; [done|].
  exfalso. apply Eb. lra.
Qed.

Lemma fold_Qred_Qsum (l : list Q) (acc : Q) :
  (fold_left (fun a b => Qred (a + b)) l acc == acc + fold_right Qplus 0%Q l)%Q.
Proof.
  revert acc. induction l as [|x l IH]; intros acc; simpl.
  - ring.
  - rewrite IH, Qred_correct. ring.
Qed.

Lemma Qsum_perm (l1 l2 : list Q) : l1 ≡ₚ l2 -> (fold_right Qplus 0%Q l1 == fold_right Qplus 0%Q l2)%Q.
Proof.
  induction 1 as [|x l1 l2 _ IH|x y l|l1 l2 l3 _ IH1 _ IH2]; simpl.
  - reflexivity.
  - by rewrite IH.
  - ring.
  - by rewrite IH1.
Qed.

End MoreExactFacts.

(** ** Runs that stop on a precondition, runs without callback *)
Section More_runs_lemmas.
Context `{Kernel} {Enriched_point cb_state : Type}.
Variable point_map : Enriched_point -> Point_3.
Variable make_neighbor_query :
  list Enriched_point -> (Enriched_point -> Point_3) -> Neighbor_query.
Implicit Types (points : list Enriched_point) (np : @Named_parameters _ cb_state).
Implicit Types (st : cb_state) (r : @Run Enriched_point cb_state).

Lemma violation_iff points k np st :
  remove_outliers point_map make_neighbor_query points k np st
    = Precondition_violation
  <-> preconditions points k np = false.
Proof.
  unfold remove_outliers.
  destruct (preconditions points k np); simpl; [|done].
  split; [|done].
  destruct (scoring_pass _ _ _ _ _ _ _ _ _ _); [done|done|].
  destruct (negb _); [done|].
  destruct (first_index_to_remove _ _); [|done].
  by destruct (rewrite_pass _ _ _ _ _ _ _).
Qed.

(** A run without callback completes, calls nothing and leaves the
    state of the caller as it is. *)
Lemma run_no_callback points k np st :
  admissible point_map make_neighbor_query points k np ->
  callback np = None ->
  exists r entries,
    remove_outliers point_map make_neighbor_query points k np st = Returned r
    /\ scored point_map (make_neighbor_query points point_map) k np points entries
    /\ run_points r = map snd (multimap_of entries [])
    /\ run_calls r = []
    /\ run_cb_state r = st.
Proof.
  intros Hadm Hcb.
  destruct (remove_outliers_run _ _ points k np st Hadm)
    as (r & entries & fir & Hrun & Hs & _ & _ & Hcase).
  exists r, entries. do 2 (split; [done|]).
  destruct (remove_outliers_scoring _ _ _ _ _ _ _ Hrun) as [_ Hscore].
  pose proof (scoring_pass_no_callback point_map
                (make_neighbor_query points point_map) k np (length points)
                points [] 0%nat [] st Hcb) as Hno.
  destruct (scoring_pass _ _ _ _ _ _ _ _ _ _) as [|calls st'|sorted calls st'];
    [done|done|].
  destruct Hscore as [Hcalls Hst], Hno as [-> ->].
  split; [|done].
  destruct Hcase as [(_ & _ & Hex)|(Hpts & _ & _)]; [|done].
  rewrite Hcalls in Hex. by apply Exists_nil in Hex.
Qed.

End More_runs_lemmas.

(** * Further properties *)

(** ** [first_index_to_remove] *)

(** X1. For a [threshold_percent] that meets the precondition and a
    size that fits an [int], the conversion to [int] is defined and
    [first_index_to_remove] lies between 0 and the size. *)
Theorem first_index_to_remove_in_range (size : nat) (threshold_percent : double) :
  Double.valid threshold_percent = true ->
  Double.leb Double.zero threshold_percent = true ->
  Double.leb threshold_percent Double.d100 = true ->
  (0 < size)%nat -> Z.of_nat size <= Double.INT_MAX ->
  exists fir,
    first_index_to_remove size threshold_percent = Some fir
    /\ 0 <= fir <= Z.of_nat size.
Proof. apply DoubleFacts.first_index_range. Qed.

Lemma first_index_to_remove_in_range_witness :
  Double.valid Double.d10 = true
  /\ Double.leb Double.zero Double.d10 = true
  /\ Double.leb Double.d10 Double.d100 = true
  /\ (0 < 10)%nat /\ Z.of_nat 10 <= Double.INT_MAX
  /\ exists fir,
       first_index_to_remove 10 Double.d10 = Some fir
       /\ 0 <= fir <= Z.of_nat 10.
Proof.
  assert (Hint : Z.of_nat 10 <= Double.INT_MAX) by (vm_compute; discriminate).
  split; [reflexivity|]. split; [reflexivity|]. split; [reflexivity|].
  split; [lia|]. split; [exact Hint|].
  exact (first_index_to_remove_in_range 10 Double.d10 eq_refl eq_refl eq_refl
           ltac:(lia) Hint).
Defined.

(** X2. At the ends of the percent scale the rounding is exact:
    [first_index_to_remove] is the size for [threshold_percent = 0]
    and 0 for [threshold_percent = 100], whatever the size. *)
Theorem first_index_to_remove_ends (size : nat) :
  (0 < size)%nat -> Z.of_nat size <= Double.INT_MAX ->
  first_index_to_remove size Double.zero = Some (Z.of_nat size)
  /\ first_index_to_remove size Double.d100 = Some 0.
Proof.
  intros Hsize Hint. split.
  - by apply PercentFacts.first_index_of_zero.
  - by apply PercentFacts.first_index_of_hundred.
Qed.

Lemma first_index_to_remove_ends_witness :
  (0 < 1000)%nat /\ Z.of_nat 1000 <= Double.INT_MAX
  /\ first_index_to_remove 1000 Double.zero = Some (Z.of_nat 1000)
  /\ first_index_to_remove 1000 Double.d100 = Some 0.
Proof.
  assert (Hint : Z.of_nat 1000 <= Double.INT_MAX) by (vm_compute; discriminate).
  split; [lia|]. split; [exact Hint|].
  exact (first_index_to_remove_ends 1000 ltac:(lia) Hint).
Defined.

(** ** [remove_outliers] *)
Section More_engine.
Context `{Kernel} {Enriched_point cb_state : Type}.
Variable point_map : Enriched_point -> Point_3.
Variable make_neighbor_query :
  list Enriched_point -> (Enriched_point -> Point_3) -> Neighbor_query.
Implicit Types (points : list Enriched_point) (np : @Named_parameters _ cb_state).
Implicit Types (st : cb_state) (r : @Run Enriched_point cb_state).


(** X4. [remove_outliers (points, k)], with the default parameters,
    stops on a precondition exactly when the range is empty or [k] is
    below 2: the default [threshold_percent] is within range. *)
Theorem remove_outliers_default_precondition_violation points (k : N) st :
  remove_outliers_default point_map make_neighbor_query points k st
    = Precondition_violation
  <-> points = [] \/ (k < 2)%N.
Proof.
  unfold remove_outliers_default. rewrite violation_iff, preconditions_iff.
  change (threshold_percent all_default) with Double.d10.
  split; [|tauto].
  intros [Hp|[Hk|[Hz|Hh]]]; [by left|by right|discriminate Hz|discriminate Hh].
Qed.

(** X5. The engine does not guard the estimator: when the query of
    some point of the range returns no neighbor, the queries before it
    are answered, and the callback has not stopped the run before, the
    run divides by zero. *)
Theorem remove_outliers_unanswered_query pre vt post (k : N) np st :
  preconditions (pre ++ vt :: post) k np = true ->
  answers_queries point_map
    (make_neighbor_query (pre ++ vt :: post) point_map) k np pre = true ->
  make_neighbor_query (pre ++ vt :: post) point_map (point_map vt) k
    (neighbor_radius np) = [] ->
  match callback np with
  | Some cb =>
      Forall (fun c => c.2 = true)
        (poll cb st (progress_from 0 (length pre) (length (pre ++ vt :: post)))).1
  | None => True
  end ->
  remove_outliers point_map make_neighbor_query (pre ++ vt :: post) k np st
  = Undefined_behaviour.
Proof.
  intros Hpre Hans Hvt Hcb. unfold remove_outliers. rewrite Hpre. simpl.
  by rewrite (scoring_pass_unanswered point_map _ k np _ pre vt post [] 0%nat
                [] st Hans Hvt Hcb).
Qed.

(** X6. Without a callback a run on admissible inputs is never
    cancelled: it leaves the range in ranking order, records no call
    and hands the state of the caller back as it was. *)
Theorem remove_outliers_no_callback points (k : N) np st :
  admissible point_map make_neighbor_query points k np ->
  callback np = None ->
  exists r entries,
    remove_outliers point_map make_neighbor_query points k np st = Returned r
    /\ scored point_map (make_neighbor_query points point_map) k np points entries
    /\ run_points r = map snd (multimap_of entries [])
    /\ run_calls r = []
    /\ run_cb_state r = st.
Proof. apply run_no_callback. Qed.

(** X7. With a callback, the calls of a run and the state the callback
    is left in are those of polling it with 1/N, 2/N, ... until its
    first [false] answer, be the run cancelled or completed. *)
Theorem remove_outliers_polls points (k : N) np st cb :
  admissible point_map make_neighbor_query points k np ->
  callback np = Some cb ->
  exists r,
    remove_outliers point_map make_neighbor_query points k np st = Returned r
    /\ poll cb st (progress_from 0 (length points) (length points))
       = (run_calls r, run_cb_state r).
Proof.
  intros Hadm Hcb.
  destruct (remove_outliers_returns _ _ points k np st Hadm) as (r & Hrun & _).
  exists r. split; [done|].
  destruct (remove_outliers_scoring _ _ _ _ _ _ _ Hrun) as [_ Hscore].
  pose proof (scoring_pass_calls point_map
                (make_neighbor_query points point_map) k np cb (length points)
                points [] 0%nat [] st Hcb) as Hpoll.
  destruct (scoring_pass _ _ _ _ _ _ _ _ _ _) as [|calls st'|sorted calls st'];
    [done| |].
  - destruct Hpoll as (more & -> & ->). by rewrite Hscore.
  - destruct Hpoll as (more & -> & ->), Hscore as [-> ->]. done.
Qed.

(** X8. The returned position of a completed run is just past the last
    entry of the ranking that passes the test of the rewriting loop
    (index at most [first_index_to_remove], or score below the squared
    [threshold_distance]): such an entry exists, and every entry that
    passes the test is before the returned position. *)
Theorem remove_outliers_cut points (k : N) np st :
  admissible point_map make_neighbor_query points k np ->
  exists r entries fir,
    remove_outliers point_map make_neighbor_query points k np st = Returned r
    /\ scored point_map (make_neighbor_query points point_map) k np points entries
    /\ first_index_to_remove (length points) (threshold_percent np) = Some fir
    /\ (Forall (fun c => c.2 = true) (run_calls r) ->
        run_points r = map snd (multimap_of entries [])
        /\ exists i e,
             run_result r = S i
             /\ multimap_of entries [] !! i = Some e
             /\ kept_by_test fir (threshold_distance np) (Z.of_nat i) e = true
             /\ forall j e',
                  multimap_of entries [] !! j = Some e' ->
                  kept_by_test fir (threshold_distance np) (Z.of_nat j) e' = true ->
                  (j <= i)%nat).
Proof.
  intros Hadm.
  destruct (remove_outliers_run _ _ points k np st Hadm)
    as (r & entries & fir & Hrun & Hs & Hfir & Hb & Hcase).
  exists r, entries, fir. do 3 (split; [done|]). intros Hall.
  destruct Hcase as [(_ & _ & Hex)|(Hpts & Hres & _)];
    [by destruct (not_all_true _ Hex Hall)|].
  split; [done|].
  pose proof (admissible_nonempty _ _ _ _ _ Hadm) as Hne.
  pose proof (sorted_entries_length _ _ _ _ _ _ Hs) as Hlen.
  set (sorted := multimap_of entries ([] : multimap Enriched_point)) in *.
  destruct (rewrite_pass_tight fir (threshold_distance np) sorted 0 points 0 0)
    as [H0|(i & e & Hi & He & Hk)].
  - exfalso. destruct sorted as [|e0 sorted']; [simpl in Hlen; lia|].
    pose proof (rewrite_pass_keeps_first fir (threshold_distance np) e0 sorted'
                  0 points 0 0 ltac:(lia) (le_n 0)).
    lia.
  - exists i, e. rewrite Hres, Hi. do 3 (split; [done|]).
    intros j e' Hj Hk'.
    pose proof (rewrite_pass_kept fir (threshold_distance np) sorted 0 points
                  0 0 j e' Hj Hk' (le_n 0)).
    lia.
Qed.

(** X9. When no score is below the squared [threshold_distance], the
    percent test alone places the cut: a completed run returns the
    position [first_index_to_remove + 1], or the end of the range when
    this is past it. *)
Theorem remove_outliers_percent_only points (k : N) np st :
  admissible point_map make_neighbor_query points k np ->
  scores_all point_map
    (fun sq_distance =>
       negb (FT_lt_double sq_distance
               (Double.mul (threshold_distance np) (threshold_distance np))))
    (make_neighbor_query points point_map) k np points = true ->
  exists r entries fir,
    remove_outliers point_map make_neighbor_query points k np st = Returned r
    /\ scored point_map (make_neighbor_query points point_map) k np points entries
    /\ first_index_to_remove (length points) (threshold_percent np) = Some fir
    /\ (Forall (fun c => c.2 = true) (run_calls r) ->
        run_points r = map snd (multimap_of entries [])
        /\ run_result r = Nat.min (length points) (Z.to_nat (fir + 1))).
Proof. apply run_percent_only. Qed.

(** X10. With [threshold_percent = 0] (or [-0.]) nothing is marked for
    removal: the run returns the end of the range, whatever the scores
    and [threshold_distance]. *)
Theorem remove_outliers_zero_percent points (k : N) np st :
  admissible point_map make_neighbor_query points k np ->
  Double.leb (threshold_percent np) Double.zero = true ->
  exists r,
    remove_outliers point_map make_neighbor_query points k np st = Returned r
    /\ run_result r = length points
    /\ nb_removed r = 0%nat.
Proof.
  intros Hadm Hzero.
  destruct (remove_outliers_run _ _ points k np st Hadm)
    as (r & entries & fir & Hrun & Hs & Hfir & Hb & Hcase).
  exists r. split; [done|].
  pose proof (admissible_nonempty _ _ _ _ _ Hadm) as Hne.
  pose proof (sorted_entries_length _ _ _ _ _ _ Hs) as Hlen.
  assert (Hres : run_result r = length points).
  { destruct Hcase as [(_ & Hres & _)|(_ & Hres & _)]; [done|].
    destruct Hadm as (Hpre & _ & Hint & _).
    unfold preconditions in Hpre.
    apply andb_true_iff in Hpre as [_ Hp]. apply andb_true_iff in Hp as [Hp0 _].
    rewrite (PercentFacts.first_index_of_zero _ _ Hp0 Hzero Hne Hint) in Hfir.
    injection Hfir as <-.
    rewrite Hres, rewrite_pass_keeps_all.
    - by rewrite Hlen.
    - intros Hnil. rewrite Hnil in Hlen. simpl in Hlen. lia.
    - rewrite Hlen. lia. }
  split; [done|]. unfold nb_removed. rewrite Hres.
  destruct Hcase as [(-> & _)|(-> & _)]; [lia|].
  rewrite length_map, Hlen. lia.
Qed.

(** X11. A range that comes in ascending order of score is left in this
    very order: the ranking moves no point, equal scores included. *)
Theorem remove_outliers_sorted_input points (k : N) np st entries :
  admissible point_map make_neighbor_query points k np ->
  scored point_map (make_neighbor_query points point_map) k np points entries ->
  ascending entries ->
  exists r,
    remove_outliers point_map make_neighbor_query points k np st = Returned r
    /\ run_points r = points.
Proof.
  intros Hadm Hs Hasc.
  destruct (remove_outliers_run _ _ points k np st Hadm)
    as (r & entries' & fir & Hrun & Hs' & _ & _ & Hcase).
  exists r. split; [done|].
  destruct Hcase as [(Hpts & _)|(Hpts & _)]; [done|].
  rewrite (scored_inj point_map _ _ _ _ _ _ Hs' Hs) in Hpts.
  rewrite Hpts, multimap_of_ascending_input by done.
  simpl. by apply (scored_points point_map _ _ _ _ _ Hs).
Qed.

(** X12. With everything else fixed, a [threshold_distance] under
    which every score that passed the distance test still passes it
    never marks more points for removal. *)
Theorem remove_outliers_distance_monotone points (k : N) np st (d2 : double) :
  admissible point_map make_neighbor_query points k np ->
  scores_all point_map
    (fun sq_distance =>
       implb (FT_lt_double sq_distance
                (Double.mul (threshold_distance np) (threshold_distance np)))
             (FT_lt_double sq_distance (Double.mul d2 d2)))
    (make_neighbor_query points point_map) k np points = true ->
  exists r1 r2,
    remove_outliers point_map make_neighbor_query points k np st = Returned r1
    /\ remove_outliers point_map make_neighbor_query points k
         (with_threshold_distance d2 np) st = Returned r2
    /\ (nb_removed r2 <= nb_removed r1)%nat.
Proof.
  intros Hadm1 Hscores.
  assert (Hadm2 : admissible point_map make_neighbor_query points k
                    (with_threshold_distance d2 np)) by exact Hadm1.
  destruct (remove_outliers_returns _ _ points k np st Hadm1)
    as (r1 & Hrun1 & _).
  destruct (remove_outliers_returns _ _ points k _ st Hadm2)
    as (r2 & Hrun2 & _).
  exists r1, r2. split; [done|]. split; [done|].
  destruct Hadm1 as (Hpre1 & _ & _ & Hans).
  assert (Hpre2 : preconditions points k (with_threshold_distance d2 np) = true)
    by exact Hpre1.
  unfold remove_outliers in Hrun1, Hrun2. rewrite Hpre1 in Hrun1.
  rewrite Hpre2 in Hrun2. simpl in Hrun1, Hrun2.
  rewrite (scoring_pass_ext point_map _ k (with_threshold_distance d2 np) np)
    in Hrun2 by done.
  unfold nb_removed.
  destruct (scoring_pass _ _ _ _ _ _ _ _ _ _) as [|calls st1|sorted calls st1]
    eqn:Hscore; [done| |].
  - injection Hrun1 as <-. injection Hrun2 as <-. simpl. lia.
  - destruct (negb _); [done|].
    destruct (first_index_to_remove _ (threshold_percent np)) as [fir|] eqn:Hf;
      [|done].
    apply scoring_pass_done in Hscore as (entries & more & Hs & -> & _).
    pose proof (sorted_entries_length _ _ _ _ _ _ Hs) as Hlen.
    assert (Hsorted :
              Forall (fun e =>
                        FT_lt_double e.1
                          (Double.mul (threshold_distance np)
                             (threshold_distance np)) = true ->
                        FT_lt_double e.1 (Double.mul d2 d2) = true)
                (multimap_of entries [])).
    { rewrite multimap_of_perm. simpl.
      eapply Forall_impl;
        [exact (scores_all_entries point_map _ _ _ _ _ _ Hscores Hs)|].
      intros e He Hlt. simpl in He. by rewrite Hlt in He. }
    pose proof (rewrite_pass_mono_distance fir (threshold_distance np) d2
                  (multimap_of entries []) 0 points points 0 0 0 Hsorted
                  (conj (le_n 0) (le_n 0))) as Hmono.
    pose proof (rewrite_pass_points fir (threshold_distance np)
                  (multimap_of entries []) 0 points 0 0) as Hpts1.
    pose proof (rewrite_pass_points fir d2
                  (multimap_of entries []) 0 points 0 0) as Hpts2.
    simpl in Hrun2.
    destruct (rewrite_pass fir (threshold_distance np) _ _ _ _ _)
      as [points1 res1].
    destruct (rewrite_pass fir d2 _ _ _ _ _) as [points2 res2].
    injection Hrun1 as <-. injection Hrun2 as <-. simpl in *.
    rewrite Hpts1, Hpts2 by lia. lia.
Qed.

(** X13. A range of one point comes back as it is, with nothing to
    remove: the returned position is its end, whatever the
    thresholds. *)
Theorem remove_outliers_single_point (vt : Enriched_point) (k : N) np st :
  admissible point_map make_neighbor_query [vt] k np ->
  exists r,
    remove_outliers point_map make_neighbor_query [vt] k np st = Returned r
    /\ run_points r = [vt]
    /\ run_result r = 1%nat.
Proof.
  intros Hadm.
  destruct (remove_outliers_run _ _ [vt] k np st Hadm)
    as (r & entries & fir & Hrun & Hs & _ & Hb & Hcase).
  exists r. split; [done|].
  destruct Hcase as [(Hpts & Hres & _)|(Hpts & Hres & _)]; [done|].
  apply Forall2_cons_inv_l in Hs as ([sq vt'] & entries' & [_ Hvt] & Hs & ->).
  apply Forall2_nil_inv_l in Hs as ->. simpl in Hvt. subst vt'.
  split; [done|].
  rewrite Hres. simpl.
  by rewrite (proj2 (Z.leb_le 0 fir)) by lia.
Qed.

(** X14. The percent budget bounds the removal: whatever the scores
    and [threshold_distance], a run marks at most
    [N - first_index_to_remove - 1] points for removal, where [N] is
    the size of the range. *)
Theorem remove_outliers_removes_at_most points (k : N) np st :
  admissible point_map make_neighbor_query points k np ->
  exists r fir,
    remove_outliers point_map make_neighbor_query points k np st = Returned r
    /\ first_index_to_remove (length points) (threshold_percent np) = Some fir
    /\ 0 <= fir <= Z.of_nat (length points)
    /\ (nb_removed r <= length points - Z.to_nat (fir + 1))%nat.
Proof.
  intros Hadm.
  destruct (remove_outliers_run _ _ points k np st Hadm)
    as (r & entries & fir & Hrun & Hs & Hfir & Hb & Hcase).
  exists r, fir. do 3 (split; [done|]). unfold nb_removed.
  destruct Hcase as [(-> & -> & _)|(Hpts & Hres & _)]; [lia|].
  pose proof (admissible_nonempty _ _ _ _ _ Hadm) as Hne.
  pose proof (sorted_entries_length _ _ _ _ _ _ Hs) as Hlen.
  rewrite Hpts, length_map, Hlen.
  set (i := Nat.min (length points - 1) (Z.to_nat fir)).
  destruct (lookup_lt_is_Some_2 (multimap_of entries ([] : multimap Enriched_point)) i)
    as [e He]; [rewrite Hlen; unfold i; lia|].
  pose proof (rewrite_pass_kept fir (threshold_distance np)
                (multimap_of entries []) 0 points 0 0 i e He) as Hkept.
  rewrite <- Hres in Hkept.
  assert (Hi : (i < run_result r)%nat).
  { apply Hkept; [|done]. unfold kept_by_test.
    rewrite (proj2 (Z.leb_le (0 + Z.of_nat i) fir)) by (unfold i; lia). done. }
  unfold i in Hi. lia.
Qed.

End More_engine.

(** ** The estimator and the engine on the exact kernel *)
Section Exact_estimator.
Implicit Types (query : Exact.Point) (neighbor_query : @Neighbor_query exact_kernel).

Lemma exact_score_sign query neighbor_query (k : N) (neighbor_radius : Q)
    (sq_distance : Q) :
  compute_avg_knn_sq_distance_3 query neighbor_query k neighbor_radius
    = Some sq_distance ->
  (0 <= sq_distance)%Q
  /\ FT_lt_double sq_distance (Double.mul Double.zero Double.zero) = false.
Proof.
  unfold compute_avg_knn_sq_distance_3. intros Hdiv.
  assert (Hsq : (0 <= sq_distance)%Q).
  { destruct (neighbor_query query k neighbor_radius) as [|n l]; [done|].
    eapply MoreExactFacts.div_nonneg; [| |exact Hdiv].
    - exact (MoreExactFacts.sum_nonneg query (n :: l) 0%Q (Qle_refl 0)).
    - apply Qlt_le_weak, (MoreExactFacts.of_size_pos (length l)). }
  split; [done|].
  change (Double.mul Double.zero Double.zero) with (S754_zero false).
  by apply ExactFacts.ltb_ge.
Qed.

(** X15. On the exact kernel a score is never negative, and so never
    below the square of [threshold_distance = 0]. *)
Theorem exact_score_nonneg query neighbor_query (k : N) (neighbor_radius : Q)
    (sq_distance : Q) :
  compute_avg_knn_sq_distance_3 query neighbor_query k neighbor_radius
    = Some sq_distance ->
  (0 <= sq_distance)%Q
  /\ FT_lt_double sq_distance (Double.mul Double.zero Double.zero) = false.
Proof. apply exact_score_sign. Qed.

(** X16. On the exact kernel the score does not depend on the order in
    which the neighbor query returns the neighbors. *)
Theorem exact_score_order_independent query
    (neighbor_query1 neighbor_query2 : @Neighbor_query exact_kernel)
    (k : N) (neighbor_radius : Q) :
  neighbor_query1 query k neighbor_radius
    ≡ₚ neighbor_query2 query k neighbor_radius ->
  compute_avg_knn_sq_distance_3 query neighbor_query1 k neighbor_radius
  = compute_avg_knn_sq_distance_3 query neighbor_query2 k neighbor_radius.
Proof.
  intros Hperm. unfold compute_avg_knn_sq_distance_3.
  rewrite !fold_left_sq_distance.
  rewrite (Permutation_length Hperm).
  set (l1 := map (fun neighbor => @squared_distance exact_kernel neighbor query)
               (neighbor_query1 query k neighbor_radius)).
  set (l2 := map (fun neighbor => @squared_distance exact_kernel neighbor query)
               (neighbor_query2 query k neighbor_radius)).
  assert (Hsum : (fold_left FT_add l1 FT_zero == fold_left FT_add l2 FT_zero)%Q).
  { change (fold_left FT_add l1 FT_zero)
      with (fold_left (fun a b => Qred (a + b)) l1 0%Q).
    change (fold_left FT_add l2 FT_zero)
      with (fold_left (fun a b => Qred (a + b)) l2 0%Q).
    rewrite !MoreExactFacts.fold_Qred_Qsum.
    rewrite (MoreExactFacts.Qsum_perm l1 l2); [reflexivity|].
    unfold l1, l2. by apply fmap_Permutation. }
  change (FT_div (fold_left FT_add l1 FT_zero)
            (FT_of_size (length (neighbor_query2 query k neighbor_radius))))
    with (Exact.div (fold_left FT_add l1 FT_zero)
            (Exact.of_size (length (neighbor_query2 query k neighbor_radius)))).
  change (FT_div (fold_left FT_add l2 FT_zero)
            (FT_of_size (length (neighbor_query2 query k neighbor_radius))))
    with (Exact.div (fold_left FT_add l2 FT_zero)
            (Exact.of_size (length (neighbor_query2 query k neighbor_radius)))).
  unfold Exact.div. destruct (Qeq_bool _ 0); [done|].
  f_equal. apply Qred_complete. unfold Qdiv. by rewrite Hsum.
Qed.

End Exact_estimator.

Section Exact_engine.
Context {Enriched_point cb_state : Type}.
Variable point_map : Enriched_point -> Exact.Point.
Variable make_neighbor_query :
  list Enriched_point -> (Enriched_point -> Exact.Point)
  -> @Neighbor_query exact_kernel.
Implicit Types (points : list Enriched_point).
Implicit Types (np : @Named_parameters exact_kernel cb_state).
Implicit Types (st : cb_state) (r : @Run Enriched_point cb_state).

Lemma exact_scores_not_below_zero (neighbor_query : @Neighbor_query exact_kernel)
    (k : N) np points :
  scores_all point_map
    (fun sq_distance =>
       negb (FT_lt_double sq_distance (Double.mul Double.zero Double.zero)))
    neighbor_query k np points = true.
Proof.
  unfold scores_all. apply forallb_forall. intros vt _.
  destruct (score_of _ _ _ _ _) as [sq|] eqn:Hsq; [|done].
  apply exact_score_sign in Hsq as [_ ->]. done.
Qed.

(** X17. On the exact kernel, [threshold_distance = 0] leaves the
    percent test alone: a completed run returns the position
    [first_index_to_remove + 1], or the end of the range when this is
    past it. *)
Theorem exact_zero_distance points (k : N) np st :
  admissible point_map make_neighbor_query points k np ->
  threshold_distance np = Double.zero ->
  exists r entries fir,
    remove_outliers point_map make_neighbor_query points k np st = Returned r
    /\ scored point_map (make_neighbor_query points point_map) k np points entries
    /\ first_index_to_remove (length points) (threshold_percent np) = Some fir
    /\ (Forall (fun c => c.2 = true) (run_calls r) ->
        run_points r = map snd (multimap_of entries [])
        /\ run_result r = Nat.min (length points) (Z.to_nat (fir + 1))).
Proof.
  intros Hadm Htd. apply run_percent_only; [done|].
  rewrite Htd. apply exact_scores_not_below_zero.
Qed.

(** X18. [remove_outliers (points, k)] on the exact kernel: for a
    non-empty range that fits an [int], with [k] at least 2 and every
    query answered, the run completes without any call, leaves the
    range in ranking order, and returns the position
    [first_index_to_remove + 1] for [threshold_percent = 10], or the
    end of the range when this is past it. *)
Theorem exact_remove_outliers_default points (k : N) st :
  points <> [] -> (2 <= k)%N ->
  Z.of_nat (length points) <= Double.INT_MAX ->
  answers_queries point_map (make_neighbor_query points point_map) k
    (@all_default exact_kernel cb_state) points = true ->
  exists r entries fir,
    remove_outliers_default point_map make_neighbor_query points k st
      = Returned r
    /\ scored point_map (make_neighbor_query points point_map) k
         (@all_default exact_kernel cb_state) points entries
    /\ first_index_to_remove (length points) Double.d10 = Some fir
    /\ run_points r = map snd (multimap_of entries [])
    /\ run_result r = Nat.min (length points) (Z.to_nat (fir + 1))
    /\ run_calls r = []
    /\ run_cb_state r = st.
Proof.
  intros Hne Hk Hint Hans. unfold remove_outliers_default.
  assert (Hadm : admissible point_map make_neighbor_query points k
                   (@all_default exact_kernel cb_state)).
  { split; [|by split].
    unfold preconditions.
    rewrite (proj2 (N.leb_le 2 k) Hk).
    destruct points; [done|reflexivity]. }
  destruct (run_no_callback (H:=exact_kernel) point_map make_neighbor_query points k _ st Hadm
              eq_refl) as (r & entries & Hrun & Hs & Hpts & Hcalls & Hst).
  destruct (run_percent_only (H:=exact_kernel) point_map make_neighbor_query points k _ st Hadm
              (exact_scores_not_below_zero _ k _ points))
    as (r' & entries' & fir & Hrun' & Hs' & Hfir & Hres).
  rewrite Hrun in Hrun'. injection Hrun' as <-.
  exists r, entries, fir. do 4 (split; [done|]).
  split; [|done].
  apply Hres. rewrite Hcalls. constructor.
Qed.

End Exact_engine.


(** ** The progress fraction, once more *)
Module ProgressFacts.
Import Double DoubleFacts.

(** The fraction handed to the callback is the quotient, rounded. *)
Lemma progress_correct (nb nb_points : nat) :
  (nb < nb_points)%nat -> Z.of_nat nb_points <= 2 ^ 64 ->
  nonneg_finite (progress nb nb_points) = true
  /\ valid (progress nb nb_points) = true
  /\ (to_Q (progress nb nb_points)
      == round (to_Q (of_size (nb + 1)) / to_Q (of_size nb_points)))%Q
  /\ (0 < to_Q (progress nb nb_points))%Q
  /\ (0 < to_Q (of_size nb_points))%Q
  /\ (0 <= to_Q (of_size (nb + 1)) / to_Q (of_size nb_points))%Q.
Proof.
  intros Hnb Hmax. unfold progress.
  destruct (of_size_correct (nb + 1)) as (m1 & e1 & E1 & V1 & _ & Q1 & H1); [lia|lia|].
  destruct (of_size_correct nb_points) as (m2 & e2 & E2 & V2 & _ & Q2 & H2); [lia|lia|].
  set (x := of_size (nb + 1)) in *. set (y := of_size nb_points) in *.
  assert (Hxy : (to_Q x <= to_Q y)%Q).
  { rewrite Q1, Q2. apply round_mono.
    - change 0%Q with (inject_Z 0). rewrite <- Zle_Qle. lia.
    - rewrite <- Zle_Qle. lia. }
  assert (Hq : (pow2 (-64) <= to_Q x / to_Q y <= 1)%Q).
  { split.
    - apply Qle_shift_div_l; [lra|].
      apply Qle_trans with (pow2 (-64) * inject_Z (2 ^ 64))%Q.
      + apply Qmult_le_l; [apply pow2_pos|apply H2].
      + rewrite inject_Z_pow2, <- pow2_add by lia.
        change (-64 + 64) with 0. rewrite pow2_0. apply H1.
    - apply Qle_shift_div_r; lra. }
  assert (Nx : nonneg_finite x = true) by (rewrite E1; reflexivity).
  pose proof (pow2_pos (-64)) as P.
  assert (Hov : (round (to_Q x / to_Q y) < pow2 emax)%Q).
  { apply (round_lt_emax _ 1); [lra| |lia].
    change (inject_Z 1) with 1%Q. apply Hq. }
  revert Hov. generalize Hq. rewrite E2. intros Hq' Hov.
  destruct (div_correct x m2 e2 Nx Hov) as (Nr & Vr & Er).
  cbn zeta in *.
  split; [exact Nr|]. split; [exact Vr|]. split; [exact Er|].
  split; [|split].
  - rewrite Er. apply Qlt_le_trans with (pow2 (-64)); [exact P|].
    rewrite <- (round_pow2 (-64)) by lia. apply round_mono; [lra|apply Hq'].
  - rewrite <- E2. lra.
  - lra.
Qed.

(** Two finite positive binary64 numbers of the same value are the
    same. *)
Lemma to_Q_inj (m1 m2 : positive) (e1 e2 : Z) :
  valid (S754_finite false m1 e1) = true ->
  valid (S754_finite false m2 e2) = true ->
  (to_Q (S754_finite false m1 e1) == to_Q (S754_finite false m2 e2))%Q ->
  S754_finite false m1 e1 = S754_finite false m2 e2.
Proof.
  intros V1 V2 E. cbn [to_Q cond_Zopp] in E.
  change (2 ^ e1)%Q with (pow2 e1) in E. change (2 ^ e2)%Q with (pow2 e2) in E.
  destruct (Z.lt_trichotomy e1 e2) as [Hlt|[->|Hgt]].
  - pose proof (finite_lt_exp m1 m2 e1 e2 V1 V2 Hlt). lra.
  - f_equal. pose proof (pow2_pos e2) as P.
    assert (Hm : (inject_Z (Z.pos m1) == inject_Z (Z.pos m2))%Q) by nra.
    unfold Qeq in Hm. simpl in Hm. lia.
  - pose proof (finite_lt_exp m2 m1 e2 e1 V2 V1 ltac:(lia)). lra.
Qed.

Lemma progress_last (nb_points : nat) :
  (0 < nb_points)%nat -> Z.of_nat nb_points <= 2 ^ 64 ->
  progress (nb_points - 1) nb_points = one.
Proof.
  intros Hn Hmax.
  destruct (progress_correct (nb_points - 1) nb_points ltac:(lia) Hmax)
    as (N & V & E & Hpos & Hy & Hq).
  replace (nb_points - 1 + 1)%nat with nb_points in * by lia.
  assert (E1 : (to_Q (progress (nb_points - 1) nb_points) == to_Q one)%Q).
  { rewrite E, to_Q_one.
    eapply Qeq_trans; [|exact round_one].
    apply round_comp; [exact Hq|]. field. lra. }
  destruct (progress (nb_points - 1) nb_points) as [s| | |s m e];
    try discriminate N.
  - exfalso. cbn [to_Q] in Hpos. lra.
  - destruct s; [discriminate N|].
    now apply to_Q_inj.
Qed.

Lemma progress_mono (nb1 nb2 nb_points : nat) :
  (nb1 <= nb2 < nb_points)%nat -> Z.of_nat nb_points <= 2 ^ 64 ->
  leb (progress nb1 nb_points) (progress nb2 nb_points) = true.
Proof.
  intros Hnb Hmax.
  destruct (progress_correct nb1 nb_points ltac:(lia) Hmax)
    as (N1 & V1 & E1 & P1 & Hy & Hq1).
  destruct (progress_correct nb2 nb_points ltac:(lia) Hmax)
    as (N2 & V2 & E2 & P2 & _ & Hq2).
  apply to_Q_leb; try assumption.
  rewrite E1, E2. apply round_mono; [exact Hq1|].
  apply Qdiv_le_mono; [exact Hy|].
  destruct (of_size_correct (nb1 + 1)) as (_ & _ & _ & _ & _ & Q1 & _); [lia|lia|].
  destruct (of_size_correct (nb2 + 1)) as (_ & _ & _ & _ & _ & Q2 & _); [lia|lia|].
  rewrite Q1, Q2. apply round_mono.
  - change 0%Q with (inject_Z 0). rewrite <- Zle_Qle. lia.
  - rewrite <- Zle_Qle. lia.
Qed.

End ProgressFacts.

Section Progress_runs.
Context `{Kernel} {Enriched_point cb_state : Type}.
Variable point_map : Enriched_point -> Point_3.
Variable make_neighbor_query :
  list Enriched_point -> (Enriched_point -> Point_3) -> Neighbor_query.
Implicit Types (points : list Enriched_point) (np : @Named_parameters _ cb_state).
Implicit Types (st : cb_state) (r : @Run Enriched_point cb_state).

(** The arguments of the calls of a run with a callback. *)
Lemma run_progress_args points k np st cb :
  admissible point_map make_neighbor_query points k np ->
  callback np = Some cb ->
  exists r n,
    remove_outliers point_map make_neighbor_query points k np st = Returned r
    /\ (n <= length points)%nat
    /\ map fst (run_calls r) = progress_from 0 n (length points)
    /\ (Forall (fun c => c.2 = true) (run_calls r) -> n = length points).
Proof.
  intros Hadm Hcb.
  destruct (remove_outliers_returns _ _ points k np st Hadm) as (r & Hrun & Hspec).
  exists r.
  destruct Hspec as [pre arg _ _ Hcalls _ Hargs Hlen|entries fir _ _ _ _ _ _ Hargs].
  - exists (S (length pre)). split; [done|]. split; [lia|]. split; [done|].
    rewrite Hcalls. intros Hall. apply Forall_app in Hall as [_ Hall].
    by apply Forall_cons in Hall as [Hfalse _].
  - rewrite Hcb in Hargs. exists (length points). by split_and!.
Qed.

Lemma progress_from_lookup nb n nb_points i :
  (i < n)%nat ->
  progress_from nb n nb_points !! i = Some (progress (nb + i) nb_points).
Proof.
  intros Hi. unfold progress_from.
  by rewrite list_lookup_fmap, lookup_seq_lt.
Qed.

Lemma progress_from_length nb n nb_points :
  length (progress_from nb n nb_points) = n.
Proof. unfold progress_from. by rewrite length_map, length_seq. Qed.

(** X19. The fraction handed to the callback never decreases from one
    call of a run to the next. *)
Theorem remove_outliers_progress_monotone points (k : N) np st cb :
  admissible point_map make_neighbor_query points k np ->
  callback np = Some cb ->
  exists r,
    remove_outliers point_map make_neighbor_query points k np st = Returned r
    /\ forall i j ci cj,
         run_calls r !! i = Some ci -> run_calls r !! j = Some cj ->
         (i <= j)%nat -> Double.leb ci.1 cj.1 = true.
Proof.
  intros Hadm Hcb.
  destruct (run_progress_args points k np st cb Hadm Hcb)
    as (r & n & Hrun & Hn & Hargs & _).
  exists r. split; [done|]. intros i j ci cj Hi Hj Hij.
  destruct Hadm as (_ & _ & Hint & _).
  assert (Hlen : length (run_calls r) = n).
  { by rewrite <- (length_map fst), Hargs, progress_from_length. }
  pose proof (lookup_lt_Some _ _ _ Hi) as Hi'.
  pose proof (lookup_lt_Some _ _ _ Hj) as Hj'.
  assert (Hci : ci.1 = progress i (length points)).
  { apply (f_equal (fmap fst)) in Hi. rewrite <- list_lookup_fmap in Hi.
    change (fst <$> run_calls r) with (map fst (run_calls r)) in Hi.
    rewrite Hargs, progress_from_lookup in Hi by lia.
    simpl in Hi. congruence. }
  assert (Hcj : cj.1 = progress j (length points)).
  { apply (f_equal (fmap fst)) in Hj. rewrite <- list_lookup_fmap in Hj.
    change (fst <$> run_calls r) with (map fst (run_calls r)) in Hj.
    rewrite Hargs, progress_from_lookup in Hj by lia.
    simpl in Hj. congruence. }
  rewrite Hci, Hcj. apply ProgressFacts.progress_mono; [lia|].
  unfold Double.INT_MAX in Hint. lia.
Qed.

(** X20. The last call of a run that is not cancelled gets exactly
    [1.]: the division of the size by itself is exact. *)
Theorem remove_outliers_progress_final points (k : N) np st cb :
  admissible point_map make_neighbor_query points k np ->
  callback np = Some cb ->
  exists r,
    remove_outliers point_map make_neighbor_query points k np st = Returned r
    /\ (Forall (fun c => c.2 = true) (run_calls r) ->
        last (run_calls r) = Some (Double.one, true)).
Proof.
  intros Hadm Hcb.
  destruct (run_progress_args points k np st cb Hadm Hcb)
    as (r & n & Hrun & Hn & Hargs & Hall).
  exists r. split; [done|]. intros Htrue. specialize (Hall Htrue). subst n.
  pose proof (admissible_nonempty _ _ _ _ _ Hadm) as Hne.
  destruct Hadm as (_ & _ & Hint & _).
  assert (Hlen : length (run_calls r) = length points).
  { by rewrite <- (length_map fst), Hargs, progress_from_length. }
  destruct (last (run_calls r)) as [[arg continue]|] eqn:Hlast.
  - pose proof Hlast as Hin. rewrite last_lookup in Hin.
    rewrite Forall_forall in Htrue.
    pose proof (Htrue _ (list_elem_of_lookup_2 _ _ _ Hin)) as Hc.
    simpl in Hc. subst continue.
    apply (f_equal (fmap fst)) in Hin. rewrite <- list_lookup_fmap in Hin.
    change (fst <$> run_calls r) with (map fst (run_calls r)) in Hin.
    rewrite Hargs, Hlen, progress_from_lookup in Hin by lia.
    simpl in Hin. injection Hin as <-.
    replace (Init.Nat.pred (length points)) with (length points - 1)%nat by lia.
    rewrite ProgressFacts.progress_last; [done|lia|].
    unfold Double.INT_MAX in Hint. lia.
  - apply last_None in Hlast. rewrite Hlast in Hlen. simpl in Hlen. lia.
Qed.

(** X21. A callback that never answers [false] is transparent: the
    run leaves the range and returns the position that the run
    without callback does. *)
Theorem remove_outliers_callback_transparent points (k : N) np st cb :
  admissible point_map make_neighbor_query points k np ->
  callback np = Some cb ->
  exists r1 r2,
    remove_outliers point_map make_neighbor_query points k np st = Returned r1
    /\ remove_outliers point_map make_neighbor_query points k
         {| neighbor_radius := neighbor_radius np;
            threshold_percent := threshold_percent np;
            threshold_distance := threshold_distance np;
            callback := None |} st = Returned r2
    /\ (Forall (fun c => c.2 = true) (run_calls r1) ->
        run_points r1 = run_points r2 /\ run_result r1 = run_result r2).
Proof.
  intros Hadm1 Hcb.
  set (np2 := {| neighbor_radius := neighbor_radius np;
                 threshold_percent := threshold_percent np;
                 threshold_distance := threshold_distance np;
                 callback := None |}).
  assert (Hadm2 : admissible point_map make_neighbor_query points k np2)
    by exact Hadm1.
  destruct (remove_outliers_run _ _ points k np st Hadm1)
    as (r1 & entries1 & fir1 & Hrun1 & Hs1 & Hfir1 & _ & Hcase1).
  destruct (remove_outliers_run _ _ points k np2 st Hadm2)
    as (r2 & entries2 & fir2 & Hrun2 & Hs2 & Hfir2 & _ & Hcase2).
  exists r1, r2. do 2 (split; [done|]). intros Hall.
  destruct Hcase1 as [(_ & _ & Hex)|(Hpts1 & Hres1 & _)];
    [by destruct (not_all_true _ Hex Hall)|].
  destruct (run_no_callback _ _ points k np2 st Hadm2 eq_refl)
    as (r2' & _ & Hrun2' & _ & _ & Hcalls2 & _).
  rewrite Hrun2 in Hrun2'. injection Hrun2' as <-.
  destruct Hcase2 as [(_ & _ & Hex)|(Hpts2 & Hres2 & _)].
  { rewrite Hcalls2 in Hex. by apply Exists_nil in Hex. }
  assert (entries2 = entries1) as ->
    by exact (scored_inj point_map _ _ _ _ _ _ Hs2 Hs1).
  change (threshold_percent np2) with (threshold_percent np) in Hfir2.
  rewrite Hfir1 in Hfir2. injection Hfir2 as <-.
  by rewrite Hpts1, Hpts2, Hres1, Hres2.
Qed.

End Progress_runs.


(** ** The properties at work on the point cloud *)

Lemma remove_outliers_unanswered_query_witness :
  preconditions ([] ++ Scenario.far :: Scenario.cluster) 2
    (Scenario.params Double.d10 Double.zero) = true
  /\ answers_queries (fun p => p)
       (MoreScenario.no_neighbor ([] ++ Scenario.far :: Scenario.cluster)
          (fun p => p)) 2
       (Scenario.params Double.d10 Double.zero) [] = true
  /\ MoreScenario.no_neighbor ([] ++ Scenario.far :: Scenario.cluster)
       (fun p => p) Scenario.far 2%N
       (neighbor_radius (Scenario.params Double.d10 Double.zero)) = []
  /\ remove_outliers (fun p => p) MoreScenario.no_neighbor
       ([] ++ Scenario.far :: Scenario.cluster) 2
       (Scenario.params Double.d10 Double.zero) tt
     = Undefined_behaviour.
Proof.
  split; [reflexivity|]. split; [reflexivity|]. split; [reflexivity|].
  exact (remove_outliers_unanswered_query (fun p => p) MoreScenario.no_neighbor
           [] Scenario.far Scenario.cluster 2
           (Scenario.params Double.d10 Double.zero) tt eq_refl eq_refl eq_refl I).
Defined.

Lemma remove_outliers_no_callback_witness :
  admissible (fun p => p) Exact.neighbor_query Scenario.cloud 2
    (Scenario.params Double.d10 Double.zero)
  /\ callback (Scenario.params Double.d10 Double.zero) = None
  /\ exists r entries,
      remove_outliers (fun p => p) Exact.neighbor_query Scenario.cloud 2
        (Scenario.params Double.d10 Double.zero) tt = Returned r
      /\ scored (fun p => p) (Exact.neighbor_query Scenario.cloud (fun p => p)) 2
           (Scenario.params Double.d10 Double.zero) Scenario.cloud entries
      /\ run_points r = map snd (multimap_of entries [])
      /\ run_calls r = []
      /\ run_cb_state r = tt.
Proof.
  assert (Hadm : admissible (fun p => p) Exact.neighbor_query Scenario.cloud 2
                   (Scenario.params Double.d10 Double.zero)).
  { unfold admissible. repeat split; vm_compute; reflexivity || discriminate. }
  split; [exact Hadm|]. split; [reflexivity|].
  exact (remove_outliers_no_callback (fun p => p) Exact.neighbor_query
           Scenario.cloud 2 (Scenario.params Double.d10 Double.zero) tt Hadm
           eq_refl).
Defined.

Lemma remove_outliers_polls_witness :
  admissible (fun p => p) Exact.neighbor_query Scenario.cloud 2
    (Scenario.params_with_callback Double.d10)
  /\ callback (Scenario.params_with_callback Double.d10)
     = Some Scenario.stop_at_third
  /\ exists r,
      remove_outliers (fun p => p) Exact.neighbor_query Scenario.cloud 2
        (Scenario.params_with_callback Double.d10) 0%nat = Returned r
      /\ poll Scenario.stop_at_third 0%nat
           (progress_from 0 (length Scenario.cloud) (length Scenario.cloud))
         = (run_calls r, run_cb_state r).
Proof.
  assert (Hadm : admissible (fun p => p) Exact.neighbor_query Scenario.cloud 2
                   (Scenario.params_with_callback Double.d10)).
  { unfold admissible. repeat split; vm_compute; reflexivity || discriminate. }
  split; [exact Hadm|]. split; [reflexivity|].
  exact (remove_outliers_polls (fun p => p) Exact.neighbor_query
           Scenario.cloud 2 (Scenario.params_with_callback Double.d10) 0%nat
           Scenario.stop_at_third Hadm eq_refl).
Defined.

Lemma remove_outliers_cut_witness :
  admissible (fun p => p) Exact.neighbor_query Scenario.cloud 2
    (Scenario.params Double.d100 MoreScenario.d50)
  /\ exists r entries fir,
      remove_outliers (fun p => p) Exact.neighbor_query Scenario.cloud 2
        (Scenario.params Double.d100 MoreScenario.d50) tt = Returned r
      /\ scored (fun p => p) (Exact.neighbor_query Scenario.cloud (fun p => p)) 2
           (Scenario.params Double.d100 MoreScenario.d50) Scenario.cloud entries
      /\ first_index_to_remove (length Scenario.cloud)
           (threshold_percent (Scenario.params Double.d100 MoreScenario.d50))
         = Some fir
      /\ (Forall (fun c => c.2 = true) (run_calls r) ->
          run_points r = map snd (multimap_of entries [])
          /\ exists i e,
               run_result r = S i
               /\ multimap_of entries [] !! i = Some e
               /\ kept_by_test fir
                    (threshold_distance
                       (Scenario.params Double.d100 MoreScenario.d50))
                    (Z.of_nat i) e = true
               /\ forall j e',
                    multimap_of entries [] !! j = Some e' ->
                    kept_by_test fir
                      (threshold_distance
                         (Scenario.params Double.d100 MoreScenario.d50))
                      (Z.of_nat j) e' = true ->
                    (j <= i)%nat).
Proof.
  assert (Hadm : admissible (fun p => p) Exact.neighbor_query Scenario.cloud 2
                   (Scenario.params Double.d100 MoreScenario.d50)).
  { unfold admissible. repeat split; vm_compute; reflexivity || discriminate. }
  split; [exact Hadm|].
  exact (remove_outliers_cut (fun p => p) Exact.neighbor_query
           Scenario.cloud 2 (Scenario.params Double.d100 MoreScenario.d50) tt
           Hadm).
Defined.

Lemma remove_outliers_percent_only_witness :
  admissible (fun p => p) Exact.neighbor_query Scenario.cloud 2
    (Scenario.params Scenario.d20 Double.zero)
  /\ scores_all (fun p => p)
       (fun sq_distance =>
          negb (FT_lt_double sq_distance
                  (Double.mul
                     (threshold_distance (Scenario.params Scenario.d20 Double.zero))
                     (threshold_distance (Scenario.params Scenario.d20 Double.zero)))))
       (Exact.neighbor_query Scenario.cloud (fun p => p)) 2
       (Scenario.params Scenario.d20 Double.zero) Scenario.cloud = true
  /\ exists r entries fir,
      remove_outliers (fun p => p) Exact.neighbor_query Scenario.cloud 2
        (Scenario.params Scenario.d20 Double.zero) tt = Returned r
      /\ scored (fun p => p) (Exact.neighbor_query Scenario.cloud (fun p => p)) 2
           (Scenario.params Scenario.d20 Double.zero) Scenario.cloud entries
      /\ first_index_to_remove (length Scenario.cloud)
           (threshold_percent (Scenario.params Scenario.d20 Double.zero))
         = Some fir
      /\ (Forall (fun c => c.2 = true) (run_calls r) ->
          run_points r = map snd (multimap_of entries [])
          /\ run_result r
             = Nat.min (length Scenario.cloud) (Z.to_nat (fir + 1))).
Proof.
  assert (Hadm : admissible (fun p => p) Exact.neighbor_query Scenario.cloud 2
                   (Scenario.params Scenario.d20 Double.zero)).
  { unfold admissible. repeat split; vm_compute; reflexivity || discriminate. }
  assert (Hscores :
            scores_all (fun p => p)
              (fun sq_distance =>
                 negb (FT_lt_double sq_distance
                         (Double.mul
                            (threshold_distance
                               (Scenario.params Scenario.d20 Double.zero))
                            (threshold_distance
                               (Scenario.params Scenario.d20 Double.zero)))))
              (Exact.neighbor_query Scenario.cloud (fun p => p)) 2
              (Scenario.params Scenario.d20 Double.zero) Scenario.cloud = true)
    by (vm_compute; reflexivity).
  split; [exact Hadm|]. split; [exact Hscores|].
  exact (remove_outliers_percent_only (fun p => p) Exact.neighbor_query
           Scenario.cloud 2 (Scenario.params Scenario.d20 Double.zero) tt
           Hadm Hscores).
Defined.

Lemma remove_outliers_zero_percent_witness :
  admissible (fun p => p) Exact.neighbor_query Scenario.cloud 2
    (Scenario.params Double.zero Double.zero)
  /\ Double.leb (threshold_percent (Scenario.params Double.zero Double.zero))
       Double.zero = true
  /\ exists r,
      remove_outliers (fun p => p) Exact.neighbor_query Scenario.cloud 2
        (Scenario.params Double.zero Double.zero) tt = Returned r
      /\ run_result r = length Scenario.cloud
      /\ nb_removed r = 0%nat.
Proof.
  assert (Hadm : admissible (fun p => p) Exact.neighbor_query Scenario.cloud 2
                   (Scenario.params Double.zero Double.zero)).
  { unfold admissible. repeat split; vm_compute; reflexivity || discriminate. }
  split; [exact Hadm|]. split; [reflexivity|].
  exact (remove_outliers_zero_percent (fun p => p) Exact.neighbor_query
           Scenario.cloud 2 (Scenario.params Double.zero Double.zero) tt
           Hadm eq_refl).
Defined.

Lemma remove_outliers_sorted_input_witness :
  admissible (fun p => p) Exact.neighbor_query MoreScenario.ranked_cloud 2
    (Scenario.params Scenario.d20 Double.zero)
  /\ scored (fun p => p)
       (Exact.neighbor_query MoreScenario.ranked_cloud (fun p => p)) 2
       (Scenario.params Scenario.d20 Double.zero) MoreScenario.ranked_cloud
       MoreScenario.ranked_entries
  /\ ascending MoreScenario.ranked_entries
  /\ exists r,
      remove_outliers (fun p => p) Exact.neighbor_query
        MoreScenario.ranked_cloud 2
        (Scenario.params Scenario.d20 Double.zero) tt = Returned r
      /\ run_points r = MoreScenario.ranked_cloud.
Proof.
  assert (Hadm : admissible (fun p => p) Exact.neighbor_query
                   MoreScenario.ranked_cloud 2
                   (Scenario.params Scenario.d20 Double.zero)).
  { unfold admissible. repeat split; vm_compute; reflexivity || discriminate. }
  assert (Hs : scored (fun p => p)
                 (Exact.neighbor_query MoreScenario.ranked_cloud (fun p => p)) 2
                 (Scenario.params Scenario.d20 Double.zero)
                 MoreScenario.ranked_cloud MoreScenario.ranked_entries).
  { unfold scored, MoreScenario.ranked_cloud, MoreScenario.ranked_entries,
      Scenario.cluster. simpl app.
    repeat (constructor; [split; vm_compute; reflexivity|]).
    constructor. }
  assert (Hasc : ascending MoreScenario.ranked_entries).
  { unfold ascending, MoreScenario.ranked_entries.
    repeat (apply SSorted_cons;
            [|repeat (constructor; [vm_compute; reflexivity|]); constructor]).
    apply SSorted_nil. }
  split; [exact Hadm|]. split; [exact Hs|]. split; [exact Hasc|].
  exact (remove_outliers_sorted_input (fun p => p) Exact.neighbor_query
           MoreScenario.ranked_cloud 2
           (Scenario.params Scenario.d20 Double.zero) tt
           MoreScenario.ranked_entries Hadm Hs Hasc).
Defined.

Lemma remove_outliers_distance_monotone_witness :
  admissible (fun p => p) Exact.neighbor_query Scenario.cloud 2
    (Scenario.params Double.d100 Double.zero)
  /\ scores_all (fun p => p)
       (fun sq_distance =>
          implb (FT_lt_double sq_distance
                   (Double.mul
                      (threshold_distance
                         (Scenario.params Double.d100 Double.zero))
                      (threshold_distance
                         (Scenario.params Double.d100 Double.zero))))
                (FT_lt_double sq_distance
                   (Double.mul MoreScenario.d50 MoreScenario.d50)))
       (Exact.neighbor_query Scenario.cloud (fun p => p)) 2
       (Scenario.params Double.d100 Double.zero) Scenario.cloud = true
  /\ exists r1 r2,
      remove_outliers (fun p => p) Exact.neighbor_query Scenario.cloud 2
        (Scenario.params Double.d100 Double.zero) tt = Returned r1
      /\ remove_outliers (fun p => p) Exact.neighbor_query Scenario.cloud 2
           (with_threshold_distance MoreScenario.d50
              (Scenario.params Double.d100 Double.zero)) tt = Returned r2
      /\ (nb_removed r2 <= nb_removed r1)%nat.
Proof.
  assert (Hadm : admissible (fun p => p) Exact.neighbor_query Scenario.cloud 2
                   (Scenario.params Double.d100 Double.zero)).
  { unfold admissible. repeat split; vm_compute; reflexivity || discriminate. }
  assert (Hscores :
            scores_all (fun p => p)
              (fun sq_distance =>
                 implb (FT_lt_double sq_distance
                          (Double.mul
                             (threshold_distance
                                (Scenario.params Double.d100 Double.zero))
                             (threshold_distance
                                (Scenario.params Double.d100 Double.zero))))
                       (FT_lt_double sq_distance
                          (Double.mul MoreScenario.d50 MoreScenario.d50)))
              (Exact.neighbor_query Scenario.cloud (fun p => p)) 2
              (Scenario.params Double.d100 Double.zero) Scenario.cloud = true)
    by (vm_compute; reflexivity).
  split; [exact Hadm|]. split; [exact Hscores|].
  exact (remove_outliers_distance_monotone (fun p => p) Exact.neighbor_query
           Scenario.cloud 2 (Scenario.params Double.d100 Double.zero) tt
           MoreScenario.d50 Hadm Hscores).
Defined.

Lemma remove_outliers_single_point_witness :
  admissible (fun p => p) Exact.neighbor_query [Scenario.far] 2
    (Scenario.params Double.d100 Double.zero)
  /\ exists r,
      remove_outliers (fun p => p) Exact.neighbor_query [Scenario.far] 2
        (Scenario.params Double.d100 Double.zero) tt = Returned r
      /\ run_points r = [Scenario.far]
      /\ run_result r = 1%nat.
Proof.
  assert (Hadm : admissible (fun p => p) Exact.neighbor_query [Scenario.far] 2
                   (Scenario.params Double.d100 Double.zero)).
  { unfold admissible. repeat split; vm_compute; reflexivity || discriminate. }
  split; [exact Hadm|].
  exact (remove_outliers_single_point (fun p => p) Exact.neighbor_query
           Scenario.far 2 (Scenario.params Double.d100 Double.zero) tt Hadm).
Defined.

Lemma exact_score_nonneg_witness :
  compute_avg_knn_sq_distance_3 Scenario.far
    (Exact.neighbor_query Scenario.cloud (fun p => p)) 2 0%Q
    = Some (249001 # 50)%Q
  /\ (0 <= 249001 # 50)%Q
  /\ FT_lt_double (249001 # 50)%Q (Double.mul Double.zero Double.zero)
     = false.
Proof.
  assert (Hsq : compute_avg_knn_sq_distance_3 Scenario.far
                  (Exact.neighbor_query Scenario.cloud (fun p => p)) 2 0%Q
                = Some (249001 # 50)%Q) by (vm_compute; reflexivity).
  split; [exact Hsq|].
  exact (exact_score_nonneg Scenario.far
           (Exact.neighbor_query Scenario.cloud (fun p => p)) 2 0%Q
           (249001 # 50)%Q Hsq).
Defined.

Lemma exact_score_order_independent_witness :
  Exact.neighbor_query Scenario.cloud (fun p => p) Scenario.far 3%N 0%Q
    ≡ₚ MoreScenario.reversed_neighbor_query Scenario.far 3%N 0%Q
  /\ compute_avg_knn_sq_distance_3 Scenario.far
       (Exact.neighbor_query Scenario.cloud (fun p => p)) 3 0%Q
     = compute_avg_knn_sq_distance_3 Scenario.far
         MoreScenario.reversed_neighbor_query 3 0%Q.
Proof.
  assert (Hperm :
            Exact.neighbor_query Scenario.cloud (fun p => p) Scenario.far 3%N 0%Q
              ≡ₚ MoreScenario.reversed_neighbor_query Scenario.far 3%N 0%Q).
  { unfold MoreScenario.reversed_neighbor_query. symmetry.
    apply reverse_Permutation. }
  split; [exact Hperm|].
  exact (exact_score_order_independent Scenario.far
           (Exact.neighbor_query Scenario.cloud (fun p => p))
           MoreScenario.reversed_neighbor_query 3 0%Q Hperm).
Defined.

Lemma exact_zero_distance_witness :
  admissible (fun p => p) Exact.neighbor_query Scenario.cloud 2
    (Scenario.params Scenario.d20 Double.zero)
  /\ threshold_distance (Scenario.params Scenario.d20 Double.zero) = Double.zero
  /\ exists r entries fir,
      remove_outliers (fun p => p) Exact.neighbor_query Scenario.cloud 2
        (Scenario.params Scenario.d20 Double.zero) tt = Returned r
      /\ scored (fun p => p) (Exact.neighbor_query Scenario.cloud (fun p => p)) 2
           (Scenario.params Scenario.d20 Double.zero) Scenario.cloud entries
      /\ first_index_to_remove (length Scenario.cloud)
           (threshold_percent (Scenario.params Scenario.d20 Double.zero))
         = Some fir
      /\ (Forall (fun c => c.2 = true) (run_calls r) ->
          run_points r = map snd (multimap_of entries [])
          /\ run_result r
             = Nat.min (length Scenario.cloud) (Z.to_nat (fir + 1))).
Proof.
  assert (Hadm : admissible (fun p => p) Exact.neighbor_query Scenario.cloud 2
                   (Scenario.params Scenario.d20 Double.zero)).
  { unfold admissible. repeat split; vm_compute; reflexivity || discriminate. }
  split; [exact Hadm|]. split; [reflexivity|].
  exact (exact_zero_distance (fun p => p) Exact.neighbor_query
           Scenario.cloud 2 (Scenario.params Scenario.d20 Double.zero) tt
           Hadm eq_refl).
Defined.

Lemma exact_remove_outliers_default_witness :
  Scenario.cloud <> [] /\ (2 <= 2)%N
  /\ Z.of_nat (length Scenario.cloud) <= Double.INT_MAX
  /\ answers_queries (fun p => p)
       (Exact.neighbor_query Scenario.cloud (fun p => p)) 2
       (@all_default exact_kernel unit) Scenario.cloud = true
  /\ exists r entries fir,
      remove_outliers_default (fun p => p) Exact.neighbor_query
        Scenario.cloud 2 tt = Returned r
      /\ scored (fun p => p) (Exact.neighbor_query Scenario.cloud (fun p => p)) 2
           (@all_default exact_kernel unit) Scenario.cloud entries
      /\ first_index_to_remove (length Scenario.cloud) Double.d10 = Some fir
      /\ run_points r = map snd (multimap_of entries [])
      /\ run_result r = Nat.min (length Scenario.cloud) (Z.to_nat (fir + 1))
      /\ run_calls r = []
      /\ run_cb_state r = tt.
Proof.
  assert (Hne : Scenario.cloud <> []) by discriminate.
  assert (Hk : (2 <= 2)%N) by lia.
  assert (Hint : Z.of_nat (length Scenario.cloud) <= Double.INT_MAX)
    by (vm_compute; discriminate).
  assert (Hans : answers_queries (fun p => p)
                   (Exact.neighbor_query Scenario.cloud (fun p => p)) 2
                   (@all_default exact_kernel unit) Scenario.cloud = true)
    by (vm_compute; reflexivity).
  split; [exact Hne|]. split; [exact Hk|]. split; [exact Hint|].
  split; [exact Hans|].
  exact (exact_remove_outliers_default (fun p => p) Exact.neighbor_query
           Scenario.cloud 2 tt Hne Hk Hint Hans).
Defined.

Lemma remove_outliers_progress_monotone_witness :
  admissible (fun p => p) Exact.neighbor_query Scenario.cloud 2
    (Scenario.params_go_on Double.d10)
  /\ callback (Scenario.params_go_on Double.d10) = Some Scenario.go_on
  /\ exists r,
      remove_outliers (fun p => p) Exact.neighbor_query Scenario.cloud 2
        (Scenario.params_go_on Double.d10) tt = Returned r
      /\ forall i j ci cj,
           run_calls r !! i = Some ci -> run_calls r !! j = Some cj ->
           (i <= j)%nat -> Double.leb ci.1 cj.1 = true.
Proof.
  assert (Hadm : admissible (fun p => p) Exact.neighbor_query Scenario.cloud 2
                   (Scenario.params_go_on Double.d10)).
  { unfold admissible. repeat split; vm_compute; reflexivity || discriminate. }
  split; [exact Hadm|]. split; [reflexivity|].
  exact (remove_outliers_progress_monotone (fun p => p) Exact.neighbor_query
           Scenario.cloud 2 (Scenario.params_go_on Double.d10) tt
           Scenario.go_on Hadm eq_refl).
Defined.

Lemma remove_outliers_progress_final_witness :
  admissible (fun p => p) Exact.neighbor_query Scenario.cloud 2
    (Scenario.params_go_on Double.d10)
  /\ callback (Scenario.params_go_on Double.d10) = Some Scenario.go_on
  /\ exists r,
      remove_outliers (fun p => p) Exact.neighbor_query Scenario.cloud 2
        (Scenario.params_go_on Double.d10) tt = Returned r
      /\ (Forall (fun c => c.2 = true) (run_calls r) ->
          last (run_calls r) = Some (Double.one, true)).
Proof.
  assert (Hadm : admissible (fun p => p) Exact.neighbor_query Scenario.cloud 2
                   (Scenario.params_go_on Double.d10)).
  { unfold admissible. repeat split; vm_compute; reflexivity || discriminate. }
  split; [exact Hadm|]. split; [reflexivity|].
  exact (remove_outliers_progress_final (fun p => p) Exact.neighbor_query
           Scenario.cloud 2 (Scenario.params_go_on Double.d10) tt
           Scenario.go_on Hadm eq_refl).
Defined.

Lemma remove_outliers_callback_transparent_witness :
  admissible (fun p => p) Exact.neighbor_query Scenario.cloud 2
    (Scenario.params_go_on Scenario.d20)
  /\ callback (Scenario.params_go_on Scenario.d20) = Some Scenario.go_on
  /\ exists r1 r2,
      remove_outliers (fun p => p) Exact.neighbor_query Scenario.cloud 2
        (Scenario.params_go_on Scenario.d20) tt = Returned r1
      /\ remove_outliers (fun p => p) Exact.neighbor_query Scenario.cloud 2
           {| neighbor_radius := neighbor_radius (Scenario.params_go_on Scenario.d20);
              threshold_percent :=
                threshold_percent (Scenario.params_go_on Scenario.d20);
              threshold_distance :=
                threshold_distance (Scenario.params_go_on Scenario.d20);
              callback := None |} tt = Returned r2
      /\ (Forall (fun c => c.2 = true) (run_calls r1) ->
          run_points r1 = run_points r2 /\ run_result r1 = run_result r2).
Proof.
  assert (Hadm : admissible (fun p => p) Exact.neighbor_query Scenario.cloud 2
                   (Scenario.params_go_on Scenario.d20)).
  { unfold admissible. repeat split; vm_compute; reflexivity || discriminate. }
  split; [exact Hadm|]. split; [reflexivity|].
  exact (remove_outliers_callback_transparent (fun p => p) Exact.neighbor_query
           Scenario.cloud 2 (Scenario.params_go_on Scenario.d20) tt
           Scenario.go_on Hadm eq_refl).
Defined.

Lemma remove_outliers_removes_at_most_witness :
  admissible (fun p => p) Exact.neighbor_query Scenario.cloud 2
    (Scenario.params Scenario.d20 Double.zero)
  /\ exists r fir,
      remove_outliers (fun p => p) Exact.neighbor_query Scenario.cloud 2
        (Scenario.params Scenario.d20 Double.zero) tt = Returned r
      /\ first_index_to_remove (length Scenario.cloud)
           (threshold_percent (Scenario.params Scenario.d20 Double.zero))
         = Some fir
      /\ 0 <= fir <= Z.of_nat (length Scenario.cloud)
      /\ (nb_removed r <= length Scenario.cloud - Z.to_nat (fir + 1))%nat.
Proof.
  assert (Hadm : admissible (fun p => p) Exact.neighbor_query Scenario.cloud 2
                   (Scenario.params Scenario.d20 Double.zero)).
  { unfold admissible. repeat split; vm_compute; reflexivity || discriminate. }
  split; [exact Hadm|].
  exact (remove_outliers_removes_at_most (fun p => p) Exact.neighbor_query
           Scenario.cloud 2 (Scenario.params Scenario.d20 Double.zero) tt Hadm).
Defined.
